(** * Gatekeeper API (FastAPI-Pipeline): the authentication verdict engine
      and the ticket lifecycle of [app/main.py]

    The development embeds [auth_verdict_from_headers], [create_ticket],
    [get_ticket] and [list_tickets] of [app/main.py].

    Text.  A Python [str] is modelled by a Rocq [string]; a character is
    read as the code point of the same number, so the model covers header
    text over the code points U+0000..U+00FF.  On that range the character
    classes below are those of CPython 3: [str.lower], [str.isspace] (the
    class [\s] of [re]), alphanumeric-or-underscore (the class [\w] of
    [re]) and the line boundaries of [str.splitlines].

    Requests.  The handlers share the module-level [conn] and [cur].
    [create_ticket] is given as a whole, a handler that runs without a
    statement of another handler in between, and step by step ([advance],
    [step], [run]), for the handlers of requests that overlap; every
    statement on [cur], [conn] or the analyzer is one step. *)

From Stdlib Require Import ZArith NArith Ascii Lia DecimalString.
From Stdlib Require String.
From stdpp Require Import base option list gmap strings sorting.

(** ** Characters *)

Module Char.

Definition code (c : ascii) : N := N_of_ascii c.

Definition between (lo hi : N) (c : ascii) : bool :=
  ((lo <=? code c) && (code c <=? hi))%N.

Definition is_code (n : N) (c : ascii) : bool := (code c =? n)%N.

Definition is_upper (c : ascii) : bool := between 65 90 c.
Definition is_lower (c : ascii) : bool := between 97 122 c.

(** [[a-zA-Z]]; under [re.IGNORECASE] the class is the same on this range. *)
Definition is_letter (c : ascii) : bool := is_upper c || is_lower c.

Definition is_digit (c : ascii) : bool := between 48 57 c.

(** [str.lower] on one character: [A-Z], and the Latin-1 capitals
    U+00C0..U+00DE except the multiplication sign U+00D7. *)
Definition lower (c : ascii) : ascii :=
  if is_upper c || between 192 214 c || between 216 222 c
  then ascii_of_N (code c + 32)
  else c.

(** [str.isspace], which is [\s]: TAB LF VT FF CR, FS GS RS US, SPACE,
    NEL (U+0085) and NBSP (U+00A0). *)
Definition is_space (c : ascii) : bool :=
  between 9 13 c || between 28 32 c || is_code 133 c || is_code 160 c.

(** [str.isalnum] on U+0000..U+00FF. *)
Definition is_alnum (c : ascii) : bool :=
  is_digit c || is_letter c
  || is_code 170 c || is_code 178 c || is_code 179 c || is_code 181 c || is_code 185 c || is_code 186 c
  || between 188 190 c || between 192 214 c || between 216 246 c
  || between 248 255 c.

(** [\w]: alphanumeric or underscore. *)
Definition is_word (c : ascii) : bool := is_alnum c || is_code 95 c.

(** The line boundaries of [str.splitlines]: LF VT FF CR, FS GS RS, NEL. *)
Definition is_linebreak (c : ascii) : bool :=
  between 10 13 c || between 28 30 c || is_code 133 c.

End Char.

(** ** Strings *)

Module Str.

Fixpoint map (f : ascii -> ascii) (s : string) : string :=
  match s with
  | EmptyString => EmptyString
  | String c s' => String (f c) (map f s')
  end.

Fixpoint all (p : ascii -> bool) (s : string) : bool :=
  match s with
  | EmptyString => true
  | String c s' => p c && all p s'
  end.

(** The last character of [s], or [prev] when [s] is empty. *)
Fixpoint last (prev : option ascii) (s : string) : option ascii :=
  match s with
  | EmptyString => prev
  | String c s' => last (Some c) s'
  end.

Definition head (s : string) : option ascii :=
  match s with
  | EmptyString => None
  | String c _ => Some c
  end.

(** [s.lower()] *)
Definition lower (s : string) : string := map Char.lower s.

(** [s.startswith(p)] *)
Fixpoint startswith (s p : string) {struct p} : bool :=
  match p with
  | EmptyString => true
  | String a p' =>
      match s with
      | EmptyString => false
      | String b s' => if ascii_dec a b then startswith s' p' else false
      end
  end.

(** [s.splitlines()]: [cur] is the line read so far.  A line ends at a
    line boundary, CR LF counting as one; the characters after the last
    boundary form a line only when there are any. *)
Fixpoint splitlines_from (cur s : string) : list string :=
  match s with
  | EmptyString =>
      match cur with
      | EmptyString => []
      | _ => [cur]
      end
  | String c s' =>
      if Char.is_linebreak c then
        match s' with
        | String c' s'' =>
            if Char.is_code 13 c && Char.is_code 10 c'
            then cur :: splitlines_from EmptyString s''
            else cur :: splitlines_from EmptyString s'
        | EmptyString => cur :: splitlines_from EmptyString s'
        end
      else splitlines_from (cur +:+ String c EmptyString) s'
  end.

Definition splitlines (s : string) : list string :=
  splitlines_from EmptyString s.

(** [sep.join(l)] *)
Definition join (sep : string) (l : list string) : string :=
  String.concat sep l.

(** [s.split(",")]: never empty, ["".split(",") = [""]]. *)
Fixpoint split_comma_from (cur s : string) : list string :=
  match s with
  | EmptyString => [cur]
  | String c s' =>
      if Char.is_code 44 c
      then cur :: split_comma_from EmptyString s'
      else split_comma_from (cur +:+ String c EmptyString) s'
  end.

Definition split_comma (s : string) : list string :=
  split_comma_from EmptyString s.

End Str.

(** ** The result pattern

    [_RESULT_RE = re.compile(r'\b(spf|dkim|dmarc)\s*=\s*([a-zA-Z]+)',
    re.IGNORECASE)].

    The matcher below follows the pattern left to right.  No choice of the
    backtracking engine is lost: the three alternatives start differently,
    ['='] is not white space and a letter is not white space, so after a
    greedy [\s*] or [[a-zA-Z]+] no shorter repetition can succeed where the
    longest one fails. *)

Module Re.

(** A literal under [re.IGNORECASE]: the matched text and what follows. *)
Fixpoint literal (p s : string) : option (string * string) :=
  match p with
  | EmptyString => Some (EmptyString, s)
  | String a p' =>
      match s with
      | EmptyString => None
      | String b s' =>
          if ascii_dec (Char.lower b) (Char.lower a) then
            match literal p' s' with
            | Some (m, r) => Some (String b m, r)
            | None => None
            end
          else None
      end
  end.

(** [(spf|dkim|dmarc)] *)
Definition alternatives (s : string) : option (string * string) :=
  match literal "spf" s with
  | Some r => Some r
  | None =>
      match literal "dkim" s with
      | Some r => Some r
      | None => literal "dmarc" s
      end
  end.

(** A greedy repetition of one character class: the longest prefix in the
    class, and what follows. *)
Fixpoint span (p : ascii -> bool) (s : string) : string * string :=
  match s with
  | EmptyString => (EmptyString, EmptyString)
  | String c s' =>
      if p c then let '(m, r) := span p s' in (String c m, r)
      else (EmptyString, s)
  end.

Definition is_word_at (c : option ascii) : bool :=
  match c with
  | Some c => Char.is_word c
  | None => false
  end.

(** [\b] between the character [prev] and the text [s]. *)
Definition word_boundary (prev : option ascii) (s : string) : bool :=
  xorb (is_word_at prev) (is_word_at (Str.head s)).

(** A match of the whole pattern starting at [s], [prev] being the
    character before it: group 1, group 2 and the text after the match. *)
Definition match_here (prev : option ascii) (s : string)
  : option (string * string * string) :=
  if word_boundary prev s then
    match alternatives s with
    | Some (g1, s1) =>
        let '(_, s2) := span Char.is_space s1 in
        match s2 with
        | String c s3 =>
            if Char.is_code 61 c then
              let '(_, s4) := span Char.is_space s3 in
              let '(g2, s5) := span Char.is_letter s4 in
              match g2 with
              | EmptyString => None
              | _ => Some (g1, g2, s5)
              end
            else None
        | EmptyString => None
        end
    | None => None
    end
  else None.

(** [finditer]: the matches from left to right, without overlap.  The
    search tries every position; after a match it resumes where the match
    ended, so the [skip] characters of a match are passed over. *)
Fixpoint finditer_from (skip : nat) (prev : option ascii) (s : string)
  : list (string * string) :=
  match s with
  | EmptyString => []
  | String c s' =>
      match skip with
      | S n => finditer_from n (Some c) s'
      | O =>
          match match_here prev s with
          | Some (g1, g2, rest) =>
              (g1, g2)
                :: finditer_from (String.length s - String.length rest - 1)
                     (Some c) s'
          | None => finditer_from 0 (Some c) s'
          end
      end
  end.

Definition finditer (s : string) : list (string * string) :=
  finditer_from 0 None s.

End Re.

(** ** [auth_verdict_from_headers] *)

Definition GOOD_VALUE : string := "pass".

(** The returned dict [{"spf": .., "dkim": .., "dmarc": .., "overall": ..}];
    [None] is Python's [None]. *)
Record verdict := Verdict {
  spf : option string;
  dkim : option string;
  dmarc : option string;
  overall : string
}.

(** Header Scanner: the first loop. *)
Definition scan_line (lines : list string) (line : string) : list string :=
  if Str.startswith (Str.lower line) "authentication-results"
  then lines ++ [line]
  else if Str.startswith (Str.lower line) "authentication-results-original"
  then lines ++ [line]
  else lines.

Definition header_lines (raw_headers : string) : list string :=
  foldl scan_line [] (Str.splitlines raw_headers).

(** [found.setdefault(k, v)] *)
Definition setdefault (k v : string) (found : gmap string string)
  : gmap string string :=
  match found !! k with
  | Some _ => found
  | None => <[k:=v]> found
  end.

(** Signal Extractor: the second loop. *)
Definition record_match (found : gmap string string) (m : string * string)
  : gmap string string :=
  let k := Str.lower m.1 in
  let v := Str.lower m.2 in
  setdefault k v found.

Definition extract_line (found : gmap string string) (l : string)
  : gmap string string :=
  foldl record_match found (Re.finditer l).

Definition extract (lines : list string) : gmap string string :=
  foldl extract_line ∅ lines.

(** Verdict Resolver: from [found] to the returned dict. *)
Definition resolve (found : gmap string string) : verdict :=
  let spf := found !! "spf" in
  let dkim := found !! "dkim" in
  let dmarc := found !! "dmarc" in
  let present := omap id [spf; dkim; dmarc] in
  let overall :=
    match present with
    | [] => "unknown"
    | _ =>
        if existsb (λ v, negb (String.eqb v GOOD_VALUE)) present then "fail"
        else if bool_decide (spf = dkim) && bool_decide (dkim = dmarc)
                && bool_decide (dmarc = Some "pass")
        then "pass" else "fail"
    end in
  Verdict spf dkim dmarc overall.

Definition auth_verdict_from_headers (raw_headers : string) : verdict :=
  resolve (extract (header_lines raw_headers)).

(** ** The store, the analyzer and the endpoints *)

(** A JSON value, as far as [analyzer_result] needs: [json.dumps] writes
    it to the TEXT column and [json.loads] reads the same value back, so
    the column is modelled by the value it holds.  An object keeps its
    keys in insertion order, like a Python dict. *)
#[local] Set Warnings "-register-all".
Inductive json :=
| JNull
| JStr (s : string)
| JObj (fields : list (string * json)).

(** [d[k] = v] on a dict. *)
Fixpoint dict_set (k : string) (v : json) (d : list (string * json))
  : list (string * json) :=
  match d with
  | [] => [(k, v)]
  | (k', v') :: d' =>
      if String.eqb k' k then (k, v) :: d' else (k', v') :: dict_set k v d'
  end.

Definition json_of_result (o : option string) : json :=
  match o with
  | Some s => JStr s
  | None => JNull
  end.

(** The verdict dict as a JSON object. *)
Definition json_of_verdict (v : verdict) : json :=
  JObj [("spf", json_of_result (spf v)); ("dkim", json_of_result (dkim v));
        ("dmarc", json_of_result (dmarc v)); ("overall", JStr (overall v))].

(** [time.time()] is only stored, never inspected. *)
Definition timestamp := Z.

(** [class TicketIn(BaseModel)]; the request body after validation. *)
Record TicketIn := {
  reporter : string;
  title : string;
  body : string;
  urls : option (list string);
  headers : string
}.

(** [class TicketOut(BaseModel)] *)
Record TicketOut := {
  ticket_id : Z;
  status : string
}.

(** A row of table [tickets] without its [id], which is the key. *)
Record ticket_row := {
  row_ts : timestamp;
  row_reporter : string;
  row_title : string;
  row_body : string;
  row_urls : string;
  row_headers : string;
  row_analyzer_status : string;
  row_analyzer_result : option json
}.

(** What one [client.post] followed by [resp.raise_for_status()] can do in
    the [try] block. *)
Inductive post_outcome :=
| TransportError (e : string)   (* [client.post] raised: timeout, connection *)
| StatusError (e : string)      (* [raise_for_status] raised: non-success status *)
| Success (text : string).      (* [resp.text] of a successful response *)

Inductive event :=
| EvInsert (id : Z) (r : ticket_row)
| EvUpdate (id : Z) (analyzer_status : string) (analyzer_result : option json)
| EvCommit
| EvPost (url : string) (data : list (string * string)).

(** What the handlers read from outside: the configured address, the clock
    and the outcome of the n-th outbound call. *)
Record env := {
  ANALYZER_FORM_URL : string;
  time_time : timestamp;
  analyzer : nat -> post_outcome
}.

(** What the handlers change: table [tickets] keyed by its INTEGER PRIMARY
    KEY, the AUTOINCREMENT counter of SQLite, the shared cursor's
    [lastrowid], the number of outbound calls made and the log of
    effects. *)
Record world := {
  tickets : gmap Z ticket_row;
  sqlite_sequence : Z;
  lastrowid : Z;
  calls : nat;
  log : list event
}.

Definition M (A : Type) : Type := env -> world -> A * world.

#[global] Instance M_ret : MRet M := λ A x _ w, (x, w).
#[global] Instance M_bind : MBind M :=
  λ A B f m e w, let '(x, w') := m e w in f x e w'.

Definition ask : M env := λ e w, (e, w).

Definition emit (ev : event) : M unit := λ _ w,
  (tt, {| tickets := tickets w; sqlite_sequence := sqlite_sequence w;
          lastrowid := lastrowid w; calls := calls w;
          log := log w ++ [ev] |}).

(** The largest key of the table, 0 when it is empty. *)
Definition max_rowid (t : gmap Z ticket_row) : Z :=
  map_fold (λ k _ acc, Z.max k acc) 0%Z t.

(** AUTOINCREMENT: one more than the largest rowid that ever existed. *)
Definition next_rowid (w : world) : Z :=
  (Z.max (sqlite_sequence w) (max_rowid (tickets w)) + 1)%Z.

(** [cur.execute("INSERT INTO tickets (...) VALUES (?,?,?,?,?,?,?,?)", ...)] *)
Definition execute_insert (r : ticket_row) : M unit := λ _ w,
  let id := next_rowid w in
  (tt, {| tickets := <[id:=r]> (tickets w); sqlite_sequence := id;
          lastrowid := id; calls := calls w;
          log := log w ++ [EvInsert id r] |}).

Definition set_outcome (analyzer_status : string)
    (analyzer_result : option json) (r : ticket_row) : ticket_row :=
  {| row_ts := row_ts r; row_reporter := row_reporter r;
     row_title := row_title r; row_body := row_body r;
     row_urls := row_urls r; row_headers := row_headers r;
     row_analyzer_status := analyzer_status;
     row_analyzer_result := analyzer_result |}.

(** [cur.execute("UPDATE tickets SET analyzer_status=?, analyzer_result=?
    WHERE id=?", ...)] *)
Definition execute_update (analyzer_status : string)
    (analyzer_result : option json) (id : Z) : M unit := λ _ w,
  (tt, {| tickets := alter (set_outcome analyzer_status analyzer_result) id
                       (tickets w);
          sqlite_sequence := sqlite_sequence w;
          lastrowid := lastrowid w; calls := calls w;
          log := log w ++ [EvUpdate id analyzer_status analyzer_result] |}).

(** [conn.commit()] *)
Definition commit : M unit := emit EvCommit.

(** [cur.lastrowid] *)
Definition cur_lastrowid : M Z := λ _ w, (lastrowid w, w).

(** [client.post(url, data=...)] then [resp.raise_for_status()] *)
Definition client_post (url : string) (data : list (string * string))
  : M post_outcome := λ e w,
  (analyzer e (calls w),
   {| tickets := tickets w; sqlite_sequence := sqlite_sequence w;
      lastrowid := lastrowid w; calls := S (calls w);
      log := log w ++ [EvPost url data] |}).

(** [SELECT ... FROM tickets WHERE id=?] and [cur.fetchone()] *)
Definition fetchone (id : Z) : M (option (Z * ticket_row)) := λ _ w,
  ((λ r, (id, r)) <$> tickets w !! id, w).

Definition id_desc (a b : Z * ticket_row) : Prop := (b.1 ≤ a.1)%Z.

#[global] Instance id_desc_dec : RelDecision id_desc.
Proof. intros a b. unfold id_desc. apply _. Defined.


(** [r[5].split(",") if r[5] else []] *)
Definition urls_of_column (c : string) : list string :=
  match c with
  | EmptyString => []
  | _ => Str.split_comma c
  end.

(** [@app.post("/tickets")], run from its first statement to its return
    with no statement of another handler in between; [advance] below
    gives its steps one by one. *)
Definition create_ticket (t : TicketIn) : M TicketOut :=
  e ← ask;
  (* 1) Store ticket (queued) *)
  execute_insert
    {| row_ts := time_time e; row_reporter := reporter t;
       row_title := title t; row_body := body t;
       row_urls := Str.join "," (default [] (urls t));
       row_headers := headers t;
       row_analyzer_status := "queued"; row_analyzer_result := None |};;
  commit;;
  ticket_id ← cur_lastrowid;
  (* 2) Call analyzer UI *)
  outcome ← client_post (ANALYZER_FORM_URL e) [("headers", headers t)];
  let '(analysis, analyzer_call_ok) :=
    match outcome with
    | Success text => (Some [("html", JStr text)], true)
    | TransportError e | StatusError e => (Some [("error", JStr e)], false)
    end in
  (* 3) Compute pass/fail from raw headers *)
  let verdict := auth_verdict_from_headers (headers t) in
  let status := if analyzer_call_ok then overall verdict
                else "analyzer_error" in
  let analysis :=
    match analysis with
    | Some d => Some (dict_set "verdict" (json_of_verdict verdict) d)
    | None => None
    end in
  (* 4) Save outcome *)
  execute_update status (JObj <$> analysis) ticket_id;;
  commit;;
  mret {| ticket_id := ticket_id; status := status |}.

(** The dict returned by [get_ticket]. *)
Record ticket_full := {
  full_id : Z;
  full_ts : timestamp;
  full_reporter : string;
  full_title : string;
  full_body : string;
  full_urls : list string;
  full_headers : string;
  full_analyzer_status : string;
  full_analyzer_result : option json
}.


Inductive HTTPException := HTTP (status_code : Z) (detail : string).

(** [@app.get("/tickets/{ticket_id}")], for a [ticket_id] that SQLite can
    hold, a 64-bit integer; [get_ticket_request] below is the handler for
    any [int]. *)
Definition get_ticket (ticket_id : Z) : M (HTTPException + ticket_full) :=
  r ← fetchone ticket_id;
  match r with
  | None => mret (inl (HTTP 404 "ticket not found"))
  | Some (id, r) =>
      mret (inr {| full_id := id; full_ts := row_ts r;
                   full_reporter := row_reporter r;
                   full_title := row_title r; full_body := row_body r;
                   full_urls := urls_of_column (row_urls r);
                   full_headers := row_headers r;
                   full_analyzer_status := row_analyzer_status r;
                   full_analyzer_result := row_analyzer_result r |})
  end.

(** The integers that bind to a parameter of a statement: SQLite holds
    64-bit integers, and [cur.execute] raises OverflowError (Python int
    too large to convert to SQLite INTEGER) for any other [int]. *)
Definition sqlite_integer (n : Z) : bool :=
  ((- 2 ^ 63 <=? n) && (n <? 2 ^ 63))%Z.

(** An exception that no handler catches: the server answers the request
    with status 500. *)
Inductive unhandled := OverflowError.

(** [get_ticket] as the server calls it, with the [int] read from the
    path: the parameter is bound by [cur.execute] before any row is
    read. *)
Definition get_ticket_request (ticket_id : Z)
  : M (unhandled + (HTTPException + ticket_full)) :=
  if sqlite_integer ticket_id
  then r ← get_ticket ticket_id; mret (inr r)
  else mret (inl OverflowError).


(** ** Requests that overlap

    The routes are [def] functions: the server runs each request on a
    thread of its pool, and every handler uses the one module-level [conn]
    and [cur], opened with [check_same_thread=False].  Between two
    statements of a handler, statements of other handlers can run.  A
    handler of [create_ticket] is modelled by the stage it has reached:
    a step runs it up to and including its next statement on [cur],
    [conn] or the analyzer, each such statement taken as atomic. *)

Inductive stage :=
| AtInsert                                  (* before the INSERT *)
| AtCommit                                  (* before the first commit *)
| AtLastrowid                               (* before [cur.lastrowid] *)
| AtPost (ticket_id : Z)                    (* before the outbound call *)
| AtUpdate (ticket_id : Z) (outcome : post_outcome)   (* before the UPDATE *)
| AtLastCommit (out : TicketOut)            (* before the second commit *)
| Returned (out : TicketOut).

(** One step of a handler of [create_ticket] for the body [t]. *)
Definition advance (t : TicketIn) (s : stage) : M stage :=
  match s with
  | AtInsert =>
      e ← ask;
      execute_insert
        {| row_ts := time_time e; row_reporter := reporter t;
           row_title := title t; row_body := body t;
           row_urls := Str.join "," (default [] (urls t));
           row_headers := headers t;
           row_analyzer_status := "queued"; row_analyzer_result := None |};;
      mret AtCommit
  | AtCommit => commit;; mret AtLastrowid
  | AtLastrowid => ticket_id ← cur_lastrowid; mret (AtPost ticket_id)
  | AtPost ticket_id =>
      e ← ask;
      outcome ← client_post (ANALYZER_FORM_URL e) [("headers", headers t)];
      mret (AtUpdate ticket_id outcome)
  | AtUpdate ticket_id outcome =>
      let '(analysis, analyzer_call_ok) :=
        match outcome with
        | Success text => (Some [("html", JStr text)], true)
        | TransportError e | StatusError e =>
            (Some [("error", JStr e)], false)
        end in
      let verdict := auth_verdict_from_headers (headers t) in
      let status := if analyzer_call_ok then overall verdict
                    else "analyzer_error" in
      let analysis :=
        match analysis with
        | Some d => Some (dict_set "verdict" (json_of_verdict verdict) d)
        | None => None
        end in
      execute_update status (JObj <$> analysis) ticket_id;;
      mret (AtLastCommit {| ticket_id := ticket_id; status := status |})
  | AtLastCommit out => commit;; mret (Returned out)
  | Returned out => mret (Returned out)
  end.

(** A request being handled: its body, what its handler reads from
    outside, and the stage it has reached. *)
Record handler := {
  h_ticket : TicketIn;
  h_env : env;
  h_stage : stage
}.

(** The requests in the pool and the shared store. *)
Definition pool : Type := list handler * world.

(** The handler of request [i] makes its next step. *)
Definition step (i : nat) (pw : pool) : pool :=
  match pw.1 !! i with
  | Some h =>
      let '(s, w) := advance (h_ticket h) (h_stage h) (h_env h) pw.2 in
      (<[i := {| h_ticket := h_ticket h; h_env := h_env h; h_stage := s |}]>
         pw.1, w)
  | None => pw
  end.

(** The handlers step in the order the schedule gives. *)
Definition run (schedule : list nat) (pw : pool) : pool :=
  foldl (λ pw i, step i pw) pw schedule.

(** Requests that have arrived and not started. *)
Definition arrive (rs : list (TicketIn * env)) : list handler :=
  (λ r, {| h_ticket := r.1; h_env := r.2; h_stage := AtInsert |}) <$> rs.

(** The six steps of a handler from its INSERT to its return. *)
Definition whole (i : nat) : list nat := replicate 6 i.

(** ** [send_sample_ticket.py]: the generator of header blocks

    The generator draws from [random] and reads the clock.  A run is
    modelled over a source of draws, [tape], read in order, and a clock
    whose n-th reading is the text [rfc2822_now()] returns then.  A
    comparison [random.random() < p] is modelled by a drawn boolean: the
    probability weighs the outcomes and excludes none that the statements
    below depend on. *)

Module Sample.

Record source := {
  tape : nat → nat;
  pos : nat;
  ticks : nat
}.

Definition G (A : Type) : Type := (nat → string) → source → A * source.

#[global] Instance G_ret : MRet G := λ A x _ g, (x, g).
#[global] Instance G_bind : MBind G :=
  λ A B f m clock g, let '(x, g') := m clock g in f x clock g'.

Definition draw : G nat := λ _ g,
  (tape g (pos g), {| tape := tape g; pos := S (pos g); ticks := ticks g |}).

(** A draw below [n], as [random] makes one to pick an index. *)
Definition randbelow (n : nat) : G nat := d ← draw; mret (d mod n).

(** [random.random() < p] *)
Definition bernoulli : G bool := d ← draw; mret (Nat.odd d).

(** [random.choice(seq)] for a non-empty [seq]. *)
Definition choice (seq : list string) : G string :=
  i ← randbelow (length seq); mret (default "" (seq !! i)).

(** [random.randint(a, b)] *)
Definition randint (a b : nat) : G nat :=
  i ← randbelow (b - a + 1); mret (a + i).

(** ["".join(random.choices(population, k=k))] *)
Fixpoint choices (population : string) (k : nat) : G string :=
  match k with
  | O => mret ""
  | S k' =>
      i ← randbelow (String.length population);
      rest ← choices population k';
      mret (String (default "000"%char (String.get i population)) rest)
  end.

(** [x[i], x[j] = x[j], x[i]] *)
Definition swap (i j : nat) (x : list string) : list string :=
  let xi := default "" (x !! i) in
  let xj := default "" (x !! j) in
  <[j := xi]> (<[i := xj]> x).

(** [random.shuffle(x)]: for [i] from the last index down to 1, swap the
    element at [i] with one at a drawn index up to [i]. *)
Fixpoint shuffle_from (i : nat) (x : list string) : G (list string) :=
  match i with
  | O => mret x
  | S i' => j ← randbelow (S i); shuffle_from i' (swap i j x)
  end.

Definition shuffle (x : list string) : G (list string) :=
  shuffle_from (length x - 1) x.

(** [rfc2822_now()] *)
Definition rfc2822_now : G string := λ clock g,
  (clock (ticks g),
   {| tape := tape g; pos := pos g; ticks := S (ticks g) |}).

(** [str(n)] and [f"{n:02d}"] for a natural number. *)
Definition str (n : nat) : string := NilEmpty.string_of_uint (Nat.to_uint n).

Definition pad2 (n : nat) : string :=
  if String.length (str n) <? 2 then "0" +:+ str n else str n.

Definition nl : string := String "010" "".

Definition SENDER_DOMAINS_TRUSTY : list string :=
  ["zoom.us"; "google.com"; "microsoft.com"].

Definition SENDER_DOMAINS_SUSPICIOUS : list string :=
  ["secure-login.click"; "update-verify.top"; "mail-reset.xyz";
   "invoicing-rest.work"].

Definition FAIL_FLAVORS : list string :=
  ["fail"; "softfail"; "none"; "permerror"; "temperror"; "neutral"].

Fixpoint times {A} (n : nat) (m : G A) : G (list A) :=
  match n with
  | O => mret []
  | S n' => x ← m; xs ← times n' m; mret (x :: xs)
  end.

Definition rand_ipv6 : G string :=
  groups ← times 8 (choices "0123456789abcdef" 4);
  mret (Str.join ":" groups).

Definition rand_id (n : nat) : G string :=
  choices "abcdefghijklmnopqrstuvwxyzABCDEFGHIJKLMNOPQRSTUVWXYZ0123456789" n.

Definition rand_local (n : nat) : G string :=
  choices "abcdefghijklmnopqrstuvwxyz" n.

(** The host name of [make_received_chain]. *)
Definition host : G string :=
  l ← rand_local 6;
  a ← randint 10 999;
  b ← randint 1 20;
  mret (l +:+ str a +:+ ".namprd" +:+ pad2 b +:+ ".prod.outlook.com").

(** The loop of [make_received_chain]. *)
Fixpoint received_loop (hops : nat) (lines : list string) (src : string)
  : G (list string) :=
  match hops with
  | O => mret lines
  | S hops' =>
      dst ← host;
      ip1 ← rand_ipv6;
      ip2 ← rand_ipv6;
      now ← rfc2822_now;
      received_loop hops'
        (lines ++ ["Received: from " +:+ src +:+ " (" +:+ ip1 +:+ ")" +:+ nl
                   +:+ " by " +:+ dst +:+ " (" +:+ ip2
                   +:+ ") with Microsoft SMTP Server;" +:+ " " +:+ now])
        dst
  end.

Definition make_received_chain (hops : nat) : G (list string) :=
  src ← host; received_loop hops [] src.

(** [spf, dkim, dmarc = vals]; a list of another length raises, which a
    shuffled list of three never has. *)
Definition unpack3 (vals : list string) : string * string * string :=
  match vals with
  | [a; b; c] => (a, b, c)
  | _ => ("", "", "")
  end.

(** The line of [make_auth_results]. *)
Definition auth_line (spf dkim dmarc mail_from_domain : string) : string :=
  "Authentication-Results: "
  +:+ "spf=" +:+ spf +:+ " smtp.mailfrom=bounce@" +:+ mail_from_domain
  +:+ "; " +:+ "dkim=" +:+ dkim +:+ " header.d=" +:+ mail_from_domain
  +:+ "; " +:+ "dmarc=" +:+ dmarc +:+ " header.from=" +:+ mail_from_domain.

(** The three results that [make_auth_results] draws. *)
Definition draw_results (pass_triplet : bool)
  : G (string * string * string) :=
  if pass_triplet then mret ("pass", "pass", "pass")
  else
    v1 ← choice FAIL_FLAVORS;
    v2 ← choice ("pass" :: FAIL_FLAVORS);
    v3 ← choice ("pass" :: FAIL_FLAVORS);
    vals ← shuffle [v1; v2; v3];
    mret (unpack3 vals).

Definition make_auth_results (pass_triplet legit_sender : bool)
  : G (string * string) :=
  '(spf, dkim, dmarc) ← draw_results pass_triplet;
  mail_from_domain ← choice (if legit_sender then SENDER_DOMAINS_TRUSTY
                             else SENDER_DOMAINS_SUSPICIOUS);
  mret (auth_line spf dkim dmarc mail_from_domain, mail_from_domain).

(** [s.split('.')[0]] *)
Fixpoint before_dot (s : string) : string :=
  match s with
  | EmptyString => EmptyString
  | String c s' =>
      if Char.is_code 46 c then EmptyString else String c (before_dot s')
  end.

Definition upper (c : ascii) : ascii :=
  if Char.is_lower c then ascii_of_N (Char.code c - 32) else c.

(** [s.title()] for ASCII text: in every run of letters the first one in
    upper case and the others in lower case. *)
Fixpoint title_from (after_letter : bool) (s : string) : string :=
  match s with
  | EmptyString => EmptyString
  | String c s' =>
      if Char.is_lower c
      then String (if after_letter then c else upper c) (title_from true s')
      else if Char.is_upper c
      then String (if after_letter then Char.lower c else c)
             (title_from true s')
      else String c (title_from false s')
  end.

Definition title (s : string) : string := title_from false s.

Definition generate_headers : G (string * bool) :=
  is_pass ← bernoulli;
  legit_sender ← ((if is_pass : bool then mret true else bernoulli)
                  : G bool);
  hops ← randint 3 5;
  received ← make_received_chain hops;
  '(auth_line, sender_domain) ← make_auth_results is_pass legit_sender;
  from_local ← ((if legit_sender : bool then mret "no-reply"
                 else choice ["support"; "security"; "it-help"])
                : G string);
  to_addr ← choice ["student@example.edu"; "you@example.com";
                    "it@example.org"];
  subj ← choice ["Meeting assets are ready"; "Password reset";
                 "Action required"; "Invoice available";
                 "Please verify your account"];
  subj ← ((if negb is_pass
           then p ← choice ["URGENT"; "VERIFY"; "RESET"; "ACTION REQUIRED"];
                mret (p +:+ ": " +:+ subj)
           else mret subj) : G string);
  date ← rfc2822_now;
  id ← rand_id 22;
  let hdrs :=
    received
    ++ [auth_line;
        "Date: " +:+ date;
        "From: " +:+ title (before_dot sender_domain) +:+ " <"
          +:+ from_local +:+ "@" +:+ sender_domain +:+ ">";
        "To: " +:+ to_addr;
        "Message-ID: <" +:+ id +:+ "@" +:+ sender_domain +:+ ">";
        "Subject: " +:+ subj] in
  mret (Str.join nl hdrs, is_pass).

End Sample.

(** ** What the statements speak of *)

(** *** Lines *)

(** The line has the prefix [p] up to the case of its letters. *)
Definition ci_prefix (p line : string) : Prop :=
  ∃ a b, line = a +:+ b ∧ Str.lower a = p.

(** A candidate line of the specification. *)
Definition candidate (line : string) : Prop :=
  ci_prefix "authentication-results" line
  ∨ ci_prefix "authentication-results-original" line.

(** The line holds no line boundary. *)
Definition no_linebreak (line : string) : Prop :=
  Str.all (λ c, negb (Char.is_linebreak c)) line = true.

(** A line terminator: one line boundary character, or CR LF. *)
Definition terminator (sep : string) : Prop :=
  (∃ c, sep = String c "" ∧ Char.is_linebreak c = true)
  ∨ sep = String "013" (String "010" "").

(** The text [s] read as lines: each line is free of line boundaries and
    is followed by a terminator, a CR directly before an LF never being a
    terminator of its own; the last line may lack its terminator when it
    is not empty. *)
Inductive lines_of : string → list string → Prop :=
| lines_none : lines_of "" []
| lines_last l :
    l ≠ "" → Str.all (λ c, negb (Char.is_linebreak c)) l = true →
    lines_of l [l]
| lines_more l sep rest ls :
    Str.all (λ c, negb (Char.is_linebreak c)) l = true →
    terminator sep →
    ¬ (sep = String "013" "" ∧ Str.head rest = Some "010"%char) →
    lines_of rest ls →
    lines_of (l +:+ sep +:+ rest) (l :: ls).

(** *** Results *)

(** The three mechanisms. *)
Definition mechanisms : list string := ["spf"; "dkim"; "dmarc"].

(** The first character of [s], if any, satisfies [p]. *)
Definition starts_with_a (p : ascii → bool) (s : string) : bool :=
  match Str.head s with
  | Some c => p c
  | None => false
  end.

(** The pattern of the specification read at the start of [s], [prev]
    being the character before: a mechanism name [g1] in any casing, white
    space, ['='], white space, and the longest run [g2] of one or more
    letters, with [rest] after it; the name starts at a word boundary. *)
Definition token (prev : option ascii) (s g1 g2 rest : string) : Prop :=
  ∃ w1 w2,
    s = g1 +:+ w1 +:+ "=" +:+ w2 +:+ g2 +:+ rest
    ∧ Str.lower g1 ∈ mechanisms
    ∧ Str.all Char.is_space w1 = true
    ∧ Str.all Char.is_space w2 = true
    ∧ g2 ≠ ""
    ∧ Str.all Char.is_letter g2 = true
    ∧ starts_with_a Char.is_letter rest = false
    ∧ Re.is_word_at prev = false.

(** Reading a line from left to right without overlap: at each position
    either a token starts, is taken and the reading resumes after it, or
    none starts and the reading moves one character on. *)
Inductive scans : option ascii → string → list (string * string) → Prop :=
| scans_end prev : scans prev "" []
| scans_token prev s g1 g2 rest ms :
    token prev s g1 g2 rest →
    scans (Str.last prev g2) rest ms →
    scans prev s ((g1, g2) :: ms)
| scans_skip prev c s ms :
    (∀ g1 g2 rest, ¬ token prev (String c s) g1 g2 rest) →
    scans (Some c) s ms →
    scans prev (String c s) ms.

(** The pattern of the specification, [<mechanism> = <word>], occurs
    somewhere in [text] with mechanism [k] and word [v] up to case. *)
Definition occurrence (text k v : string) : Prop :=
  ∃ pre m w1 w2 p post,
    text = pre +:+ m +:+ w1 +:+ "=" +:+ w2 +:+ p +:+ post
    ∧ Str.lower m = k
    ∧ Str.all Char.is_space w1 = true
    ∧ Str.all Char.is_space w2 = true
    ∧ p ≠ "" ∧ Str.all Char.is_letter p = true
    ∧ Str.lower p = v.

(** The results read on the lines, in document order, lowercased as the
    second loop stores them. *)
Definition signals (lines : list string) : list (string * string) :=
  l ← lines; (λ m : string * string, (Str.lower m.1, Str.lower m.2))
               <$> Re.finditer l.

(** The first result recorded for mechanism [k] in a sequence. *)
Fixpoint first_result (k : string) (sigs : list (string * string))
  : option string :=
  match sigs with
  | [] => None
  | (k', v) :: sigs' => if decide (k' = k) then Some v
                        else first_result k sigs'
  end.

(** *** Lines that carry the three tokens *)

(** White space that stays on the line. *)
Definition inline_space (w : string) : Prop :=
  Str.all (λ c, Char.is_space c && negb (Char.is_linebreak c)) w = true.

(** [tok] is the token [k=pass]: the mechanism [k] in any casing, ['=']
    with any white space of the line around it, and pass in any casing. *)
Definition pass_token (k tok : string) : Prop :=
  ∃ m w1 w2 p,
    tok = m +:+ w1 +:+ "=" +:+ w2 +:+ p
    ∧ Str.lower m = k
    ∧ inline_space w1 ∧ inline_space w2
    ∧ Str.lower p = "pass".

(** No result can start inside [a]: every mechanism name in [a] comes
    directly after a word character of [a]. *)
Definition no_result_start (a : string) : Prop :=
  ∀ a1 m r, a = a1 +:+ m +:+ r → Str.lower m ∈ mechanisms →
    Re.is_word_at (Str.last None a1) = true.

(** The beginning of a candidate line up to its first token. *)
Definition line_start (a : string) : Prop :=
  ci_prefix "authentication-results" a
  ∧ Str.all (λ c, negb (Char.is_linebreak c)) a = true
  ∧ no_result_start a
  ∧ Re.is_word_at (Str.last None a) = false.

(** The text between two tokens of a line: it does not continue the word
    before it, it ends with a character that is not a word character, and
    no result starts in it. *)
Definition separator (a : string) : Prop :=
  a ≠ ""
  ∧ Str.all (λ c, negb (Char.is_linebreak c)) a = true
  ∧ starts_with_a Char.is_letter a = false
  ∧ no_result_start a
  ∧ Re.is_word_at (Str.last None a) = false.

(** The lines before the candidate line: complete lines, none of them a
    candidate. *)
Definition lines_before (before : string) : Prop :=
  (before = ""
   ∨ ∃ b c, before = b +:+ String c "" ∧ Char.is_linebreak c = true)
  ∧ Forall (λ l, ¬ candidate l) (Str.splitlines before).

(** A decision procedure for [no_result_start]; [after_word] tells whether
    the previous character is a word character. *)
Fixpoint quiet (after_word : bool) (a : string) : bool :=
  match a with
  | EmptyString => true
  | String c a' =>
      (after_word || negb (bool_decide (is_Some (Re.alternatives a))))
      && quiet (Char.is_word c) a'
  end.

(** *** Submissions *)

(** The outbound call failed. *)
Definition gateway_failed (o : post_outcome) : Prop :=
  match o with
  | Success _ => False
  | TransportError _ | StatusError _ => True
  end.

#[global] Instance gateway_failed_dec o : Decision (gateway_failed o).
Proof. destruct o; simpl; apply _. Defined.

(** The merged result object of the specification: the analyzer's outcome
    with the verdict attached. *)
Definition merged_result (o : post_outcome) (v : verdict) : json :=
  match o with
  | Success text => JObj [("html", JStr text); ("verdict", json_of_verdict v)]
  | TransportError d | StatusError d =>
      JObj [("error", JStr d); ("verdict", json_of_verdict v)]
  end.

(** The terminal status of the specification. *)
Definition terminal_status (o : post_outcome) (v : verdict) : string :=
  if decide (gateway_failed o) then "analyzer_error" else overall v.

(** The record of the initial write. *)
Definition queued_row (e : env) (t : TicketIn) : ticket_row :=
  {| row_ts := time_time e; row_reporter := reporter t;
     row_title := title t; row_body := body t;
     row_urls := Str.join "," (default [] (urls t));
     row_headers := headers t;
     row_analyzer_status := "queued"; row_analyzer_result := None |}.

(** A persistence write is an INSERT or an UPDATE. *)
Definition is_write (ev : event) : bool :=
  match ev with
  | EvInsert _ _ | EvUpdate _ _ _ => true
  | _ => false
  end.

Definition is_post (ev : event) : bool :=
  match ev with
  | EvPost _ _ => true
  | _ => false
  end.

Definition ticket_statuses : list string :=
  ["queued"; "pass"; "fail"; "unknown"; "analyzer_error"].

Definition submit_statuses : list string :=
  ["pass"; "fail"; "unknown"; "analyzer_error"].

(** The status an event writes, if it writes one. *)
Definition written_status (ev : event) : option string :=
  match ev with
  | EvInsert _ r => Some (row_analyzer_status r)
  | EvUpdate _ st _ => Some st
  | _ => None
  end.

(** The store after any number of further submissions. *)
Inductive later : world → world → Prop :=
| later_now w : later w w
| later_submit w w' t e : later w w' → later w (create_ticket t e w').2.


(** ** Sample inputs

    The payload and the header lines of [send_sample_ticket.py]. *)

Definition sample_headers : string :=
  "Authentication-Results: spf=pass smtp.mailfrom=bounce@zoom.us; dkim=pass header.d=zoom.us; dmarc=pass header.from=zoom.us".

Definition sample_ticket : TicketIn :=
  {| reporter := "alice@example.com"; title := "Benign email";
     body := "Looks fine to me."; urls := Some ["https://zoom.us"];
     headers := sample_headers |}.

Definition other_ticket : TicketIn :=
  {| reporter := "bob@example.com"; title := "Suspicious email";
     body := "Looks odd"; urls := Some ["http://example.bad/reset"];
     headers := sample_headers |}.

Definition unreachable_env : env :=
  {| ANALYZER_FORM_URL := "http://analyzer:8080/"; time_time := 0%Z;
     analyzer := λ _, TransportError "timed out" |}.

Definition failing_env : env :=
  {| ANALYZER_FORM_URL := "http://analyzer:8080/"; time_time := 7%Z;
     analyzer := λ _, StatusError "Server error '500 Internal Server Error'" |}.

Definition empty_world : world :=
  {| tickets := ∅; sqlite_sequence := 0%Z; lastrowid := 0%Z; calls := 0;
     log := [] |}.

(** Two lines of a Received header, and the end of a block. *)
Definition sample_before : string :=
  "Received: from a.example (2001:db8::1)
 by b.example (2001:db8::2) with Microsoft SMTP Server;
".

Definition sample_rest : string :=
  " header.from=zoom.us
Date: Tue, 03 Nov 2026 10:00:00 +0000".

(** A header whose results are on a folded continuation line. *)
Definition folded_headers : string :=
  "Authentication-Results: mx.example.com;
 spf=pass; dkim=pass; dmarc=pass".

(** A candidate line with a result whose mechanism name follows a word
    character. *)
Definition glued_line : string := "Authentication-Results: mx.example.com; xspf=pass".

(** A header block in which only another header carries the tokens. *)
Definition arc_headers : string :=
  "ARC-Authentication-Results: i=1; mx.example.com; spf=pass dkim=pass dmarc=pass".

(** *** The answers of the read endpoints *)

(** The dict [get_ticket] returns for the row [r] with key [id]. *)
Definition full_of (id : Z) (r : ticket_row) : ticket_full :=
  {| full_id := id; full_ts := row_ts r; full_reporter := row_reporter r;
     full_title := row_title r; full_body := row_body r;
     full_urls := urls_of_column (row_urls r);
     full_headers := row_headers r;
     full_analyzer_status := row_analyzer_status r;
     full_analyzer_result := row_analyzer_result r |}.


(** The result object carries a verdict as its last key. *)
Definition has_verdict (res : option json) : Prop :=
  ∃ d v, res = Some (JObj (d ++ [("verdict", v)])).

(** *** Letter case *)

(** Two texts that differ at most in the case of their letters. *)
Definition same_case (s s' : string) : Prop := Str.lower s = Str.lower s'.

(** A character class that does not look at the case. *)
Definition caseless (p : ascii → bool) : Prop :=
  ∀ c, p (Char.lower c) = p c.

(** *** Generated header blocks *)

(** The results and the domains the generator draws from. *)
Definition RESULT_VALUES : list string := "pass" :: Sample.FAIL_FLAVORS.

Definition SENDER_DOMAINS : list string :=
  Sample.SENDER_DOMAINS_TRUSTY ++ Sample.SENDER_DOMAINS_SUSPICIOUS.

(** An entry of the Received chain: two lines. *)
Definition received_entry (e : string) : Prop :=
  ∃ x y, e = "Received: from " +:+ x +:+ Sample.nl +:+ " by " +:+ y
         ∧ no_linebreak x ∧ no_linebreak y.

(** The generated line is one candidate line on which the three results
    are read as drawn. *)
Definition auth_line_ok (spf dkim dmarc domain : string) : bool :=
  let line := Sample.auth_line spf dkim dmarc domain in
  Str.all (λ c, negb (Char.is_linebreak c)) line
  && Str.startswith (Str.lower line) "authentication-results"
  && bool_decide (signals [line]
                  = [("spf", spf); ("dkim", dkim); ("dmarc", dmarc)]).

(** The orders a list of three can be left in. *)
Definition orders3 (a b c : string) : list (list string) :=
  [[a; b; c]; [a; c; b]; [b; a; c]; [b; c; a]; [c; a; b]; [c; b; a]].

(** A clock whose readings differ. *)
Definition sample_clock (n : nat) : string :=
  "Tue, 03 Nov 2026 10:00:0" +:+ Sample.str n +:+ " +0000".

Definition sample_source : Sample.source :=
  {| Sample.tape := λ n, n * 13 + 2; Sample.pos := 0; Sample.ticks := 0 |}.

(** An analyzer that answers, and a ticket that carries a generated
    block. *)
Definition answering_env : env :=
  {| ANALYZER_FORM_URL := "http://analyzer:8080/"; time_time := 3%Z;
     analyzer := λ _, Success "<html>ok</html>" |}.

Definition generated_ticket : TicketIn :=
  {| reporter := "alice@example.com"; title := "Sample ticket";
     body := "Generated headers."; urls := None;
     headers := (Sample.generate_headers sample_clock sample_source).1.1 |}.

(** The entries of a Received chain that starts from host [src]: every
    entry is received from the host that the entry before it names after
    [by]. *)
Fixpoint chained (src : string) (chain : list string) : Prop :=
  match chain with
  | [] => True
  | e :: rest =>
      ∃ dst ip1 ip2 now,
        e = "Received: from " +:+ src +:+ " (" +:+ ip1 +:+ ")" +:+ Sample.nl
            +:+ " by " +:+ dst +:+ " (" +:+ ip2
            +:+ ") with Microsoft SMTP Server; " +:+ now
        ∧ chained dst rest
  end.

(** *** Random text *)

(** A digit or a letter of [a-f]. *)
Definition hex_digit (c : ascii) : bool :=
  Char.is_digit c || Char.between 97 102 c.

(** A letter of [a-zA-Z] or a digit. *)
Definition ascii_alnum (c : ascii) : bool :=
  Char.is_letter c || Char.is_digit c.

(** A text of [n] characters of the class [p]. *)
Definition word_of (p : ascii → bool) (n : nat) (s : string) : Prop :=
  String.length s = n ∧ Str.all p s = true.

(** *** The results read on a block *)

(** The results read on the candidate lines among [ls], in document
    order, each candidate line being read from left to right as [scans]
    describes, and the pairs lowercased. *)
Inductive reads : list string → list (string * string) → Prop :=
| reads_end : reads [] []
| reads_other l ls sigs :
    ¬ candidate l → reads ls sigs → reads (l :: ls) sigs
| reads_candidate l ls ms sigs :
    candidate l → scans None l ms → reads ls sigs →
    reads (l :: ls)
      (((λ m : string * string, (Str.lower m.1, Str.lower m.2)) <$> ms)
       ++ sigs).

(** A block whose tokens are spread over several candidate lines: a
    candidate line without a result first, a mechanism name without a
    result between two tokens, a line of another header that carries a
    result, and a second result for spf at the end. *)
Definition spread_headers : string :=
  "Received: from a.example (2001:db8::1)
Authentication-Results: mx.example.com; none
authentication-results: mx.example.com; SPF = Pass (SPF record ok); dkim=pass header.d=zoom.us
X-Forwarded: dmarc=fail
Authentication-Results-Original: mx.example.com; dmarc =PASS; spf=fail".

(** *** Overlapping submissions *)

(** The handler has made its INSERT, its outbound call, its UPDATE. *)
Definition inserted (s : stage) : bool :=
  match s with
  | AtInsert => false
  | _ => true
  end.

Definition posted (s : stage) : bool :=
  match s with
  | AtUpdate _ _ | AtLastCommit _ | Returned _ => true
  | _ => false
  end.

Definition updated (s : stage) : bool :=
  match s with
  | AtLastCommit _ | Returned _ => true
  | _ => false
  end.


(** The id the handler has read, which is the one it updates and
    returns. *)
Definition held_id (s : stage) : option Z :=
  match s with
  | AtPost id | AtUpdate id _ => Some id
  | AtLastCommit out | Returned out => Some (ticket_id out)
  | _ => None
  end.

(** The number of handlers whose stage satisfies [P]. *)
Definition count (P : stage → bool) (p : list handler) : nat :=
  length (List.filter (λ h, P (h_stage h)) p).

(** The stage of request [i]. *)
Definition stage_of (pw : pool) (i : nat) : option stage :=
  h_stage <$> pw.1 !! i.

(** A record is queued without a result, or it has a terminal status and
    a result that carries a verdict. *)
Definition settled (r : ticket_row) : Prop :=
  (row_analyzer_status r = "queued" ∧ row_analyzer_result r = None)
  ∨ (row_analyzer_status r ∈ submit_statuses
     ∧ has_verdict (row_analyzer_result r)).

(** The writes of the log that go to record [id]. *)
Definition writes_to (id : Z) (ev : event) : bool :=
  match ev with
  | EvInsert k _ | EvUpdate k _ _ => bool_decide (k = id)
  | _ => false
  end.

(** Two requests: the analyzer times out for the first and answers the
    second. *)
Definition two_requests : list (TicketIn * env) :=
  [(sample_ticket, unreachable_env); (other_ticket, answering_env)].

(** The second request makes its INSERT between the first commit of the
    first request and its reading of [cur.lastrowid]; the first request
    then runs to its end, and the second after it. *)
Definition overtaken : list nat := [0; 0; 1; 0; 0; 0; 0; 1; 1; 1; 1; 1].

(** The same, the second request running to its end before the first
    one reads [cur.lastrowid]. *)
Definition overtaken_late : list nat := [0; 0; 1; 1; 1; 1; 1; 1; 0; 0; 0; 0].

(** What holds of the pool and of the store however the handlers are
    scheduled, when the store starts empty: the ids are 1 up to the
    number of records, which is the number of INSERTs made and the value
    of [cur.lastrowid]; every call and every write is counted by the
    stage of its handler; every id a handler holds is the id of a record;
    every record is [settled]. *)
Definition coherent (pw : pool) : Prop :=
  let n := size (tickets pw.2) in
  sqlite_sequence pw.2 = Z.of_nat n
  ∧ lastrowid pw.2 = Z.of_nat n
  ∧ (∀ k : Z, is_Some (tickets pw.2 !! k) ↔ (1 ≤ k ≤ Z.of_nat n)%Z)
  ∧ n = count inserted pw.1
  ∧ calls pw.2 = count posted pw.1
  ∧ length (filter is_post (log pw.2)) = count posted pw.1
  ∧ length (filter is_write (log pw.2))
    = count inserted pw.1 + count updated pw.1
  ∧ Forall (λ h,
      (∀ id, held_id (h_stage h) = Some id → (1 ≤ id ≤ Z.of_nat n)%Z)
      ∧ (∀ out, h_stage h = AtLastCommit out ∨ h_stage h = Returned out →
           status out ∈ submit_statuses)) pw.1
  ∧ map_Forall (λ _ r, settled r) (tickets pw.2).

(** Request [i] has read the id [a]. *)
Definition holds (pw : pool) (i : nat) (a : Z) : Prop :=
  ∃ h, pw.1 !! i = Some h ∧ held_id (h_stage h) = Some a.

(** Request [i] has arrived and made no step. *)
Definition waiting (pw : pool) (i : nat) : Prop :=
  ∃ h, pw.1 !! i = Some h ∧ h_stage h = AtInsert.



(** * Theorems *)

(** Membership in a list written out. *)
Ltac in_list :=
  solve [repeat first [apply list_elem_of_here | apply list_elem_of_further]].

Ltac list_cases H :=
  repeat (apply elem_of_cons in H as [H | H]);
  [.. | by apply elem_of_nil in H].

(** ** Verdict Resolver *)

Section resolver.
Variable found : gmap string string.

Lemma resolve_fields :
  spf (resolve found) = found !! "spf"
  ∧ dkim (resolve found) = found !! "dkim"
  ∧ dmarc (resolve found) = found !! "dmarc".
Proof. done. Qed.

Lemma resolve_unknown :
  (∀ m, m ∈ mechanisms → found !! m = None) →
  overall (resolve found) = "unknown".
Proof.
  intros H. unfold resolve.
  rewrite (H "spf"), (H "dkim"), (H "dmarc"); [done | | |];
    unfold mechanisms; set_solver.
Qed.

Lemma resolve_fail :
  (∃ m v, m ∈ mechanisms ∧ found !! m = Some v ∧ v ≠ "pass") →
  overall (resolve found) = "fail".
Proof.
  intros (m & v & Hm & Hv & Hne). unfold resolve.
  assert (String.eqb v GOOD_VALUE = false) as Hb
    by (by apply String.eqb_neq).
  unfold mechanisms in Hm.
  repeat (apply elem_of_cons in Hm as [-> | Hm]);
    [| | | by apply elem_of_nil in Hm];
    rewrite Hv;
    repeat match goal with
    | |- context [found !! ?k] => destruct (found !! k); simpl
    end; rewrite ?Hb; simpl;
    repeat match goal with
    | |- context [negb (String.eqb ?x GOOD_VALUE)] =>
        destruct (negb (String.eqb x GOOD_VALUE)); simpl; rewrite ?Hb
    end; done.
Qed.

Lemma resolve_all_pass :
  (∀ m, m ∈ mechanisms → found !! m = Some "pass") →
  overall (resolve found) = "pass".
Proof.
  intros H. unfold resolve.
  rewrite (H "spf"), (H "dkim"), (H "dmarc"); [done | | |];
    unfold mechanisms; set_solver.
Qed.

Lemma resolve_partial :
  (∃ m, m ∈ mechanisms ∧ found !! m = None) →
  (∃ m, m ∈ mechanisms ∧ is_Some (found !! m)) →
  overall (resolve found) = "fail".
Proof.
  intros (m & Hm & Hnone) (m' & Hm' & [v Hsome]). unfold resolve.
  unfold mechanisms in Hm, Hm'.
  repeat (apply elem_of_cons in Hm as [-> | Hm]);
    [| | | by apply elem_of_nil in Hm];
    repeat (apply elem_of_cons in Hm' as [-> | Hm']);
    try (by apply elem_of_nil in Hm'); try congruence;
    rewrite Hnone, Hsome; simpl;
    repeat match goal with
    | |- context [found !! ?k] => destruct (found !! k); simpl
    | |- context [negb (String.eqb ?x GOOD_VALUE)] =>
        destruct (negb (String.eqb x GOOD_VALUE)); simpl
    end; try done;
    repeat case_bool_decide; simpl; done.
Qed.

Lemma resolve_overall_cases :
  overall (resolve found) ∈ ["unknown"; "fail"; "pass"].
Proof.
  unfold resolve.
  destruct (found !! "spf"), (found !! "dkim"), (found !! "dmarc"); simpl;
    repeat match goal with
    | |- context [negb (String.eqb ?x GOOD_VALUE)] =>
        destruct (negb (String.eqb x GOOD_VALUE)); simpl
    end;
    repeat case_bool_decide; simpl; set_solver.
Qed.
End resolver.

(** C1. For every extracted mapping: when none of spf, dkim, dmarc is
    present the verdict is unknown; when some present value is not exactly
    pass it is fail; when every present value is pass (and one is present)
    it is pass if and only if all three are present, and fail otherwise. *)
Theorem verdict_resolver (found : gmap string string) :
  ((∀ m, m ∈ mechanisms → found !! m = None) →
     overall (resolve found) = "unknown")
  ∧ ((∃ m, m ∈ mechanisms ∧ is_Some (found !! m)) →
     (∃ m v, m ∈ mechanisms ∧ found !! m = Some v ∧ v ≠ "pass") →
     overall (resolve found) = "fail")
  ∧ ((∃ m, m ∈ mechanisms ∧ is_Some (found !! m)) →
     (∀ m v, m ∈ mechanisms → found !! m = Some v → v = "pass") →
     (overall (resolve found) = "pass"
        ↔ ∀ m, m ∈ mechanisms → is_Some (found !! m))
     ∧ (¬ (∀ m, m ∈ mechanisms → is_Some (found !! m)) →
        overall (resolve found) = "fail")).
Proof.
  split; [apply resolve_unknown|].
  split; [intros _; apply resolve_fail|].
  intros Hsome Hpass.
  assert ((∀ m, m ∈ mechanisms → is_Some (found !! m)) →
          overall (resolve found) = "pass") as Hfull.
  { intros Hall. apply resolve_all_pass. intros m Hm.
    destruct (Hall m Hm) as [v Hv]. by rewrite Hv, (Hpass m v Hm Hv). }
  assert (¬ (∀ m, m ∈ mechanisms → is_Some (found !! m)) →
          overall (resolve found) = "fail") as Hpart.
  { intros Hnot. apply resolve_partial; [|done].
    destruct (decide (Forall (λ m, is_Some (found !! m)) mechanisms))
      as [Hall | Hex].
    - destruct Hnot. intros m Hm.
      by apply (proj1 (Forall_forall _ _) Hall).
    - apply not_Forall_Exists in Hex; [|apply _].
      apply Exists_exists in Hex as (m & Hm & Hn).
      exists m. split; [done|]. by apply eq_None_not_Some. }
  split; [|done].
  split; [|done].
  intros Hov.
  destruct (decide (Forall (λ m, is_Some (found !! m)) mechanisms))
    as [Hall | Hex].
  - intros m Hm. by apply (proj1 (Forall_forall _ _) Hall).
  - rewrite Hpart in Hov; [done|].
    intros Hall. apply Hex, Forall_forall. done.
Qed.

(** One mapping for each case. *)
Lemma verdict_resolver_witness :
  overall (resolve {["spf" := "pass"]}) = "fail"
  ∧ overall (resolve (<["spf" := "pass"]> (<["dkim" := "pass"]>
                        {["dmarc" := "pass"]}))) = "pass"
  ∧ overall (resolve {["dkim" := "none"]}) = "fail"
  ∧ overall (resolve ∅) = "unknown".
Proof.
  split; [|split; [|split]].
  - apply (proj2 (proj2 (verdict_resolver {["spf" := "pass"]}))).
    + exists "spf". split; [set_solver | by exists "pass"].
    + intros m v Hm. unfold mechanisms in Hm.
      repeat (apply elem_of_cons in Hm as [-> | Hm]);
        [| | | by apply elem_of_nil in Hm]; vm_compute; congruence.
    + intros H. by destruct (H "dkim"); [set_solver|].
  - apply (proj2 (proj2 (verdict_resolver _))).
    + exists "spf". split; [set_solver | by exists "pass"].
    + intros m v Hm. unfold mechanisms in Hm.
      repeat (apply elem_of_cons in Hm as [-> | Hm]);
        [| | | by apply elem_of_nil in Hm]; vm_compute; congruence.
    + intros m Hm. unfold mechanisms in Hm.
      repeat (apply elem_of_cons in Hm as [-> | Hm]);
        [| | | by apply elem_of_nil in Hm]; by exists "pass".
  - apply (proj1 (proj2 (verdict_resolver {["dkim" := "none"]}))).
    + exists "dkim". split; [set_solver | by exists "none"].
    + exists "dkim", "none". split; [set_solver|]. by split.
  - apply (proj1 (verdict_resolver ∅)). intros m _. apply lookup_empty.
Defined.

(** ** Ticket Orchestrator *)

Lemma max_rowid_bound (t : gmap Z ticket_row) (k : Z) :
  is_Some (t !! k) → (k ≤ max_rowid t)%Z.
Proof.
  unfold max_rowid. revert k.
  apply (map_fold_weak_ind
           (λ r (m : gmap Z ticket_row), ∀ k, is_Some (m !! k) → (k ≤ r)%Z)).
  - intros k [x Hx]. by rewrite lookup_empty in Hx.
  - intros i x m r Hi IH k Hk.
    destruct (decide (i = k)) as [-> | Hne]; [lia|].
    rewrite lookup_insert_ne in Hk by done. specialize (IH k Hk). lia.
Qed.

(** AUTOINCREMENT gives a key the table does not hold. *)
Lemma next_rowid_fresh (w : world) : tickets w !! next_rowid w = None.
Proof.
  apply eq_None_not_Some. intros H%max_rowid_bound.
  unfold next_rowid in H. lia.
Qed.

(** One run of [create_ticket], effect by effect. *)
Lemma create_ticket_run (t : TicketIn) (e : env) (w : world) :
  let id := next_rowid w in
  let o := analyzer e (calls w) in
  let v := auth_verdict_from_headers (headers t) in
  let st := terminal_status o v in
  let res := Some (merged_result o v) in
  create_ticket t e w =
    ({| ticket_id := id; status := st |},
     {| tickets := <[id := set_outcome st res (queued_row e t)]> (tickets w);
        sqlite_sequence := id;
        lastrowid := id;
        calls := S (calls w);
        log := log w ++ [EvInsert id (queued_row e t); EvCommit;
                         EvPost (ANALYZER_FORM_URL e)
                           [("headers", headers t)];
                         EvUpdate id st res; EvCommit] |}).
Proof.
  intros id o v st res.
  unfold create_ticket, mbind, M_bind, mret, M_ret, ask, execute_insert,
    commit, emit, cur_lastrowid, client_post, execute_update; simpl.
  fold id o v.
  assert (∀ f r, alter f id (<[id := r]> (tickets w)) = <[id := f r]> (tickets w))
    as Halter by (intros; apply alter_insert_eq).
  subst st res. unfold terminal_status, queued_row.
  destruct o; simpl; rewrite Halter, <- !app_assoc; simpl; reflexivity.
Qed.

(** A submission that no other request overlaps.  When the analyzer call
    fails the terminal status is analyzer_error whatever the verdict is,
    and the verdict, computed over the raw headers, is attached to the
    stored result in both cases: error and verdict on failure, html and
    verdict on success. *)
Theorem gateway_failure_keeps_verdict (t : TicketIn) (e : env) (w : world) :
  let '(out, w') := create_ticket t e w in
  let v := json_of_verdict (auth_verdict_from_headers (headers t)) in
  ∃ r, tickets w' !! ticket_id out = Some r
    ∧ row_analyzer_status r = status out
    ∧ match analyzer e (calls w) with
      | Success text =>
          row_analyzer_result r
            = Some (JObj [("html", JStr text); ("verdict", v)])
      | TransportError d | StatusError d =>
          status out = "analyzer_error"
          ∧ row_analyzer_result r
            = Some (JObj [("error", JStr d); ("verdict", v)])
      end.
Proof.
  rewrite create_ticket_run; simpl.
  eexists. rewrite lookup_insert_eq. split; [reflexivity|].
  split; [reflexivity|].
  destruct (analyzer e (calls w)); simpl; auto.
Qed.

(** A submission that no other request overlaps.  Every status written
    for it is one of queued, pass, fail, unknown, analyzer_error; the
    terminal status, which is the one Submit returns, is one of the last
    four, and it is analyzer_error if and only if the analyzer call
    failed. *)
Theorem ticket_status_invariant (t : TicketIn) (e : env) (w : world) :
  let '(out, w') := create_ticket t e w in
  (∀ ev st, ev ∈ drop (length (log w)) (log w') →
     written_status ev = Some st → st ∈ ticket_statuses)
  ∧ (map_Forall (λ _ r, row_analyzer_status r ∈ ticket_statuses) (tickets w) →
     map_Forall (λ _ r, row_analyzer_status r ∈ ticket_statuses) (tickets w'))
  ∧ (row_analyzer_status <$> tickets w' !! ticket_id out) = Some (status out)
  ∧ status out ∈ submit_statuses
  ∧ (status out = "analyzer_error" ↔ gateway_failed (analyzer e (calls w))).
Proof.
  rewrite create_ticket_run; simpl.
  set (v := auth_verdict_from_headers (headers t)).
  set (o := analyzer e (calls w)).
  assert (overall v ∈ ["unknown"; "fail"; "pass"]) as Hov
    by apply resolve_overall_cases.
  assert (terminal_status o v ∈ submit_statuses) as Hst.
  { unfold terminal_status, submit_statuses.
    case_decide; [in_list|]. list_cases Hov; rewrite Hov; in_list. }
  assert (terminal_status o v ∈ ticket_statuses) as Hst'
    by (by apply list_elem_of_further).
  split; [|split; [|split; [|split]]].
  - intros ev st Hev Hw. rewrite drop_app_length in Hev.
    list_cases Hev; subst ev; simpl in Hw; simplify_eq; try done.
    unfold ticket_statuses. in_list.
  - intros Hall. by apply map_Forall_insert_2.
  - by rewrite lookup_insert_eq.
  - done.
  - unfold terminal_status. case_decide; [done|].
    split; [|done]. intros Heq. rewrite Heq in Hov. by list_cases Hov.
Qed.

(** The sample ticket while the analyzer is unreachable. *)
Lemma ticket_status_invariant_witness :
  let '(out, w') := create_ticket sample_ticket unreachable_env empty_world in
  status out = "analyzer_error"
  ∧ map_Forall (λ _ r, row_analyzer_status r ∈ ticket_statuses) (tickets w').
Proof.
  pose proof (ticket_status_invariant sample_ticket unreachable_env
                empty_world) as H.
  destruct (create_ticket sample_ticket unreachable_env empty_world)
    as [out w'].
  destruct H as (_ & Hinv & _ & _ & Hiff). split.
  - apply Hiff. exact I.
  - apply Hinv. apply map_Forall_empty.
Defined.

(** A submission that no other request overlaps makes exactly one
    outbound call and exactly two persistence writes: the insert of a new
    record with status queued and no result, then the update of status
    and result on that same record; this holds whether the call succeeds
    or fails, and the table gains exactly that one record while every
    other record is unchanged. *)
Theorem two_writes_one_call (t : TicketIn) (e : env) (w : world) :
  let '(out, w') := create_ticket t e w in
  let id := ticket_id out in
  ∃ r0 st res,
    log w' = log w ++ [EvInsert id r0; EvCommit;
                       EvPost (ANALYZER_FORM_URL e) [("headers", headers t)];
                       EvUpdate id st res; EvCommit]
    ∧ row_analyzer_status r0 = "queued" ∧ row_analyzer_result r0 = None
    ∧ length (filter is_write (drop (length (log w)) (log w'))) = 2
    ∧ length (filter is_post (drop (length (log w)) (log w'))) = 1
    ∧ calls w' = S (calls w)
    ∧ tickets w !! id = None
    ∧ tickets w' = <[id := set_outcome st res r0]> (tickets w)
    ∧ size (tickets w') = S (size (tickets w))
    ∧ (∀ k, k ≠ id → tickets w' !! k = tickets w !! k).
Proof.
  rewrite create_ticket_run; simpl.
  eexists (queued_row e t), _, _.
  split; [reflexivity|]. split; [reflexivity|]. split; [reflexivity|].
  rewrite drop_app_length.
  split; [reflexivity|]. split; [reflexivity|]. split; [reflexivity|].
  split; [apply next_rowid_fresh|]. split; [reflexivity|].
  split; [apply map_size_insert_None, next_rowid_fresh|].
  intros k Hk. by rewrite lookup_insert_ne.
Qed.

(** The sample ticket on an empty store. *)
Lemma two_writes_one_call_witness :
  let '(out, w') := create_ticket sample_ticket unreachable_env empty_world in
  tickets w' !! (ticket_id out + 1)%Z = None
  ∧ length (filter is_write (log w')) = 2
  ∧ length (filter is_post (log w')) = 1.
Proof.
  pose proof (two_writes_one_call sample_ticket unreachable_env empty_world)
    as H.
  destruct (create_ticket sample_ticket unreachable_env empty_world)
    as [out w'].
  destruct H as (r0 & st & res & _ & _ & _ & Hw & Hp & _ & _ & _ & _ & Hother).
  split; [|split].
  - rewrite Hother by lia. reflexivity.
  - exact Hw.
  - exact Hp.
Defined.

(** C9. The status Submit returns is a function of the raw headers and of
    whether the analyzer call succeeded: two submissions with the same raw
    headers and the same success or failure of the call return the same
    status, whatever their reporter, title, body and urls, and whatever
    the store holds. *)
Theorem status_deterministic
    (t1 t2 : TicketIn) (e1 e2 : env) (w1 w2 : world) :
  headers t1 = headers t2 →
  (gateway_failed (analyzer e1 (calls w1))
     ↔ gateway_failed (analyzer e2 (calls w2))) →
  status (create_ticket t1 e1 w1).1 = status (create_ticket t2 e2 w2).1.
Proof.
  intros Hh Hg. rewrite !create_ticket_run; simpl.
  unfold terminal_status. rewrite Hh.
  repeat case_decide; tauto.
Qed.

(** Two reporters, the same headers, two kinds of failure. *)
Lemma status_deterministic_witness :
  status (create_ticket sample_ticket unreachable_env empty_world).1
  = status (create_ticket other_ticket failing_env empty_world).1.
Proof.
  apply status_deterministic; [reflexivity | simpl; tauto].
Defined.

(** ** Strings *)

Lemma app_cons (c : ascii) (s t : string) :
  String c s +:+ t = String c (s +:+ t).
Proof. reflexivity. Qed.

Lemma app_empty_l (s : string) : "" +:+ s = s.
Proof. reflexivity. Qed.

Lemma app_empty_r (s : string) : s +:+ "" = s.
Proof. induction s as [|c s IH]; [done|]. by rewrite app_cons, IH. Qed.

Lemma app_assoc_s (s t u : string) : (s +:+ t) +:+ u = s +:+ (t +:+ u).
Proof. induction s as [|c s IH]; [done|]. by rewrite !app_cons, IH. Qed.

Lemma app_snoc (s : string) (c : ascii) (t : string) :
  (s +:+ String c "") +:+ t = s +:+ String c t.
Proof. by rewrite app_assoc_s. Qed.

Lemma length_app_s (s t : string) :
  String.length (s +:+ t) = String.length s + String.length t.
Proof. induction s as [|c s IH]; [done|]. rewrite app_cons. simpl. lia. Qed.

Lemma all_app (p : ascii → bool) (s t : string) :
  Str.all p (s +:+ t) = Str.all p s && Str.all p t.
Proof.
  induction s as [|c s IH]; [done|].
  rewrite app_cons. simpl. rewrite IH. by destruct (p c).
Qed.

Lemma lower_app (s t : string) :
  Str.lower (s +:+ t) = Str.lower s +:+ Str.lower t.
Proof.
  induction s as [|c s IH]; [done|].
  rewrite app_cons. unfold Str.lower in *. simpl. by rewrite IH.
Qed.


(** Strong induction on the length of a string. *)
Lemma string_length_ind (P : string → Prop) :
  (∀ s, (∀ s', String.length s' < String.length s → P s') → P s) →
  ∀ s, P s.
Proof.
  intros H s. remember (String.length s) as n eqn:Hn. revert s Hn.
  induction n as [n IH] using lt_wf_ind. intros s ->.
  apply H. intros s' Hs'. by apply (IH (String.length s')).
Qed.

(** [startswith] is the prefix relation. *)
Lemma startswith_prefix (s p : string) :
  Str.startswith s p = true ↔ ∃ r, s = p +:+ r.
Proof.
  revert s. induction p as [|a p IH]; intros s; simpl.
  - split; [by exists s|done].
  - destruct s as [|b s].
    + split; [done|]. by intros [r Hr].
    + destruct (ascii_dec a b) as [-> | Hne].
      * rewrite IH. split; intros [r Hr]; exists r.
        -- by rewrite app_cons, <- Hr.
        -- rewrite app_cons in Hr. by simplify_eq.
      * split; [done|]. intros [r Hr]. rewrite app_cons in Hr.
        by simplify_eq.
Qed.

Lemma is_code_eq (n : N) (c : ascii) :
  Char.is_code n c = true → (n < 256)%N → c = ascii_of_N n.
Proof.
  intros H _. apply N.eqb_eq in H. unfold Char.code in H.
  by rewrite <- H, ascii_N_embedding.
Qed.

(** ** Header Scanner *)

Lemma ci_prefix_startswith (p line : string) :
  ci_prefix p line ↔ Str.startswith (Str.lower line) p = true.
Proof.
  rewrite startswith_prefix. split.
  - intros (a & b & -> & <-). exists (Str.lower b). apply lower_app.
  - revert line. induction p as [|c p IH]; intros line [r Hr].
    + by exists "", line.
    + destruct line as [|d line]; [done|].
      rewrite app_cons in Hr. unfold Str.lower in Hr. simpl in Hr.
      injection Hr as Hc Hr.
      destruct (IH line) as (a & b & -> & <-); [by exists r|].
      exists (String d a), b. split; [done|].
      unfold Str.lower. simpl. by rewrite Hc.
Qed.

#[global] Instance ci_prefix_dec p line : Decision (ci_prefix p line).
Proof.
  destruct (Str.startswith (Str.lower line) p) eqn:E.
  - left. by apply ci_prefix_startswith.
  - right. intros H%ci_prefix_startswith. congruence.
Defined.

Lemma scan_line_spec (lines : list string) (line : string) :
  scan_line lines line
  = if decide (candidate line) then lines ++ [line] else lines.
Proof.
  unfold scan_line, candidate.
  destruct (Str.startswith _ "authentication-results") eqn:E1.
  - rewrite decide_True; [done|]. left. by apply ci_prefix_startswith.
  - destruct (Str.startswith _ "authentication-results-original") eqn:E2.
    + rewrite decide_True; [done|]. right. by apply ci_prefix_startswith.
    + rewrite decide_False; [done|].
      intros [H%ci_prefix_startswith | H%ci_prefix_startswith]; congruence.
Qed.

Lemma foldl_scan_line (acc l : list string) :
  foldl scan_line acc l = acc ++ filter candidate l.
Proof.
  revert acc. induction l as [|x l IH]; intros acc; simpl.
  - by rewrite app_nil_r.
  - rewrite IH, scan_line_spec, filter_cons.
    destruct (decide (candidate x)); [|done].
    by rewrite <- app_assoc.
Qed.

Lemma header_lines_filter (raw_headers : string) :
  header_lines raw_headers = filter candidate (Str.splitlines raw_headers).
Proof. unfold header_lines. by rewrite foldl_scan_line. Qed.


Lemma splitlines_from_lines (s cur : string) :
  Str.all (λ c, negb (Char.is_linebreak c)) cur = true →
  lines_of (cur +:+ s) (Str.splitlines_from cur s).
Proof.
  revert cur. induction s as [s IH] using string_length_ind. intros cur Hcur.
  destruct s as [|c s]; simpl.
  - rewrite app_empty_r. destruct cur; [constructor|]. by constructor.
  - destruct (Char.is_linebreak c) eqn:Hc.
    + assert (∀ r, String c r = String c "" +:+ r) as Hsep by done.
      assert (terminator (String c "")) as Hterm by (left; eauto).
      destruct s as [|c' s].
      * rewrite Hsep. apply lines_more; try done; [by intros [_ ?]|].
        constructor.
      * destruct (Char.is_code 13 c && Char.is_code 10 c') eqn:Hcr.
        -- apply andb_prop in Hcr as [H1 H2].
           apply N.eqb_eq in H1, H2.
           assert (c = "013"%char) as ->
             by (rewrite <- (ascii_N_embedding c); unfold Char.code in H1;
                 by rewrite H1).
           assert (c' = "010"%char) as ->
             by (rewrite <- (ascii_N_embedding c'); unfold Char.code in H2;
                 by rewrite H2).
           change (String "013" (String "010" s))
             with (String "013" (String "010" "") +:+ s).
           apply lines_more; try done.
           ++ by right.
           ++ by intros [? _].
           ++ apply (IH s ltac:(simpl; lia) "" eq_refl).
        -- rewrite Hsep. apply lines_more; try done.
           ++ intros [Heq Hhd]. simplify_eq. simpl in Hhd. by simplify_eq.
           ++ apply (IH (String c' s) ltac:(simpl; lia) "" eq_refl).
    + rewrite <- app_snoc. apply IH; [simpl; lia|].
      rewrite all_app. simpl. by rewrite Hc, Hcur.
Qed.

Lemma splitlines_from_break (cur x : string) (c : ascii) :
  Char.is_linebreak c = true →
  ¬ (c = "013"%char ∧ Str.head x = Some "010"%char) →
  Str.splitlines_from cur (String c x) = cur :: Str.splitlines x.
Proof.
  intros Hc Hx. simpl. rewrite Hc. destruct x as [|c' x]; [done|].
  destruct (Char.is_code 13 c && Char.is_code 10 c') eqn:E; [|done].
  apply andb_prop in E as [H1 H2]. destruct Hx.
  apply is_code_eq in H1, H2; try done. by subst.
Qed.

Lemma splitlines_from_prefix (l cur s : string) :
  Str.all (λ c, negb (Char.is_linebreak c)) l = true →
  Str.splitlines_from cur (l +:+ s) = Str.splitlines_from (cur +:+ l) s.
Proof.
  revert cur. induction l as [|c l IH]; intros cur H.
  - by rewrite app_empty_r.
  - simpl in H. apply andb_prop in H as [Hc Hl]. rewrite app_cons. simpl.
    apply negb_true_iff in Hc. rewrite Hc, IH by done. by rewrite app_snoc.
Qed.

(** [lines_of] admits one reading only. *)
Lemma lines_of_splitlines (s : string) (ls : list string) :
  lines_of s ls → ls = Str.splitlines s.
Proof.
  unfold Str.splitlines.
  induction 1 as [|l Hne Hl|l sep rest ls Hl Hsep Hcr _ IH]; [done|..].
  - rewrite <- (app_empty_r l) at 2.
    rewrite splitlines_from_prefix, app_empty_l by done. simpl.
    by destruct l.
  - rewrite splitlines_from_prefix, app_empty_l by done.
    destruct Hsep as [(c & -> & Hc) | ->].
    + change (String c "" +:+ rest) with (String c rest).
      rewrite splitlines_from_break; [by rewrite IH | done |].
      intros [-> Hhd]. by apply Hcr.
    + change (String "013" (String "010" "") +:+ rest)
        with (String "013" (String "010" rest)).
      simpl. by rewrite IH.
Qed.



(** ** Signal Extractor *)

Lemma extract_line_signals (found : gmap string string) (l : string) :
  extract_line found l
  = foldl (λ f kv, setdefault kv.1 kv.2 f) found (signals [l]).
Proof.
  unfold extract_line, signals. simpl. rewrite app_nil_r.
  generalize (Re.finditer l). intros ms. revert found.
  induction ms as [|m ms IH]; intros found; simpl; [done|]. apply IH.
Qed.

Lemma signals_cons (l : string) (lines : list string) :
  signals (l :: lines) = signals [l] ++ signals lines.
Proof. unfold signals. simpl. by rewrite app_nil_r. Qed.

Lemma foldl_extract_signals (found : gmap string string) lines :
  foldl extract_line found lines
  = foldl (λ f kv, setdefault kv.1 kv.2 f) found (signals lines).
Proof.
  revert found. induction lines as [|l lines IH]; intros found; [done|].
  rewrite signals_cons, foldl_app. simpl.
  by rewrite IH, extract_line_signals.
Qed.

Lemma setdefault_lookup (k v k' : string) (found : gmap string string) :
  setdefault k v found !! k'
  = match found !! k' with
    | Some x => Some x
    | None => if decide (k = k') then Some v else None
    end.
Proof.
  unfold setdefault. destruct (found !! k) as [x|] eqn:E.
  - destruct (found !! k') eqn:E'; [done|].
    case_decide; [congruence | done].
  - rewrite lookup_insert. case_decide as Hk.
    + subst k'. by rewrite E.
    + by destruct (found !! k').
Qed.

Lemma foldl_setdefault_lookup sigs (found : gmap string string) k :
  foldl (λ f kv, setdefault kv.1 kv.2 f) found sigs !! k
  = match found !! k with
    | Some x => Some x
    | None => first_result k sigs
    end.
Proof.
  revert found. induction sigs as [|[k' v] sigs IH]; intros found; simpl.
  - by destruct (found !! k).
  - rewrite IH, setdefault_lookup. simpl.
    destruct (found !! k); [done|]. by case_decide.
Qed.

(** What the extractor keeps for a mechanism is its first result. *)
Lemma extract_first_result (lines : list string) (k : string) :
  extract lines !! k = first_result k (signals lines).
Proof.
  unfold extract. by rewrite foldl_extract_signals, foldl_setdefault_lookup.
Qed.




(** ** The urls column *)








Lemma create_ticket_keeps (t : TicketIn) (e : env) (w : world) id r :
  tickets w !! id = Some r →
  tickets (create_ticket t e w).2 !! id = Some r.
Proof.
  intros H. rewrite create_ticket_run; simpl.
  rewrite lookup_insert_ne; [done|].
  intros Heq. rewrite <- Heq, next_rowid_fresh in H. done.
Qed.

Lemma later_keeps (w w' : world) id r :
  later w w' → tickets w !! id = Some r → tickets w' !! id = Some r.
Proof.
  induction 1 as [|w w' t e _ IH]; [done|].
  intros H. by apply create_ticket_keeps, IH.
Qed.



(** ** The result pattern *)

Ltac each_char c :=
  destruct c as [[] [] [] [] [] [] [] []]; vm_compute; try done.


Lemma lower_letter (c : ascii) :
  Char.is_lower (Char.lower c) = true → Char.is_letter c = true.
Proof. each_char c. Qed.

Lemma letter_word (c : ascii) :
  Char.is_letter c = true → Char.is_word c = true.
Proof. each_char c. Qed.

Lemma letter_not_space (c : ascii) :
  Char.is_letter c = true → Char.is_space c = false.
Proof. each_char c. Qed.


Lemma all_lower_letter (s : string) :
  Str.all Char.is_lower (Str.lower s) = true →
  Str.all Char.is_letter s = true.
Proof.
  induction s as [|c s IH]; [done|]. unfold Str.lower. simpl.
  intros [Hc Hs]%andb_prop. by rewrite (lower_letter c Hc), IH.
Qed.

Lemma mechanisms_letters (m : string) :
  Str.lower m ∈ mechanisms →
  m ≠ "" ∧ Str.all Char.is_letter m = true.
Proof.
  intros H. split.
  - intros ->. by list_cases H.
  - apply all_lower_letter. list_cases H; by rewrite H.
Qed.



Lemma literal_spec (p s m r : string) :
  Re.literal p s = Some (m, r)
  ↔ s = m +:+ r ∧ Str.lower m = Str.lower p.
Proof.
  revert s m r. induction p as [|a p IH]; intros s m r; simpl.
  - split.
    + intros [= <- <-]. done.
    + intros [-> Hm]. by destruct m.
  - destruct s as [|b s].
    + split; [done|]. intros [Hs Hm]. by destruct m.
    + destruct (ascii_dec (Char.lower b) (Char.lower a)) as [Hab | Hab].
      * destruct (Re.literal p s) as [[m' r']|] eqn:E.
        -- apply IH in E as [-> Hm']. split.
           ++ intros [= <- <-]. split; [done|].
              unfold Str.lower in *. simpl. by rewrite Hab, Hm'.
           ++ intros [Hs Hm]. destruct m as [|c m]; [done|].
              rewrite app_cons in Hs. unfold Str.lower in Hm. simpl in Hm.
              injection Hs as -> Hs. injection Hm as _ Hm.
              assert (Re.literal p (m' +:+ r') = Some (m, r)) as E'
                by (apply IH; by rewrite Hs).
              assert (Re.literal p (m' +:+ r') = Some (m', r')) as E''
                by (by apply IH).
              congruence.
        -- split; [done|]. intros [Hs Hm]. destruct m as [|c m]; [done|].
           rewrite app_cons in Hs. unfold Str.lower in Hm. simpl in Hm.
           injection Hs as -> Hs. injection Hm as _ Hm.
           assert (Re.literal p s = Some (m, r)) as E' by (by apply IH).
           congruence.
      * split; [done|]. intros [Hs Hm]. destruct m as [|c m]; [done|].
        rewrite app_cons in Hs. unfold Str.lower in Hm. simpl in Hm.
        injection Hs as -> Hs. injection Hm as Hc Hm. done.
Qed.

Lemma literal_other (p q s m r : string) :
  Re.literal p s = Some (m, r) →
  Str.head (Str.lower p) ≠ Str.head (Str.lower q) → p ≠ "" → q ≠ "" →
  Re.literal q s = None.
Proof.
  intros [-> Hm]%literal_spec Hne Hp Hq.
  destruct (Re.literal q (m +:+ r)) as [[m' r']|] eqn:E; [|done].
  apply literal_spec in E as [Hs Hm'].
  destruct q as [|b q]; [done|]. destruct p as [|a p]; [done|].
  destruct m as [|c m]; [done|]. destruct m' as [|c' m']; [done|].
  rewrite !app_cons in Hs. unfold Str.lower in *. simpl in *.
  simplify_eq. congruence.
Qed.

Lemma alternatives_spec (s m r : string) :
  Re.alternatives s = Some (m, r)
  ↔ s = m +:+ r ∧ Str.lower m ∈ mechanisms.
Proof.
  unfold Re.alternatives. split.
  - destruct (Re.literal "spf" s) as [[m1 r1]|] eqn:E1.
    { intros [= -> ->]. apply literal_spec in E1 as [-> ->].
      split; [done|]. vm_compute. in_list. }
    destruct (Re.literal "dkim" s) as [[m2 r2]|] eqn:E2.
    { intros [= -> ->]. apply literal_spec in E2 as [-> ->].
      split; [done|]. vm_compute. in_list. }
    intros [-> ->]%literal_spec. split; [done|]. vm_compute. in_list.
  - intros [-> Hm]. list_cases Hm.
    + assert (Re.literal "spf" (m +:+ r) = Some (m, r)) as ->
        by (by apply literal_spec). done.
    + assert (Re.literal "dkim" (m +:+ r) = Some (m, r)) as E
        by (by apply literal_spec).
      rewrite (literal_other "dkim" "spf" _ m r E), E; done.
    + assert (Re.literal "dmarc" (m +:+ r) = Some (m, r)) as E
        by (by apply literal_spec).
      rewrite (literal_other "dmarc" "spf" _ m r E) by done.
      destruct (Re.literal "dkim" (m +:+ r)) as [[m' r']|] eqn:E'; [|done].
      exfalso. apply literal_spec in E as [_ Hm'].
      apply literal_spec in E' as [Hs Hm''].
      destruct m as [|c1 [|c2 m]]; try done.
      destruct m' as [|d1 [|d2 m']]; try done.
      rewrite !app_cons in Hs. unfold Str.lower in *. simpl in *.
      simplify_eq.
      match goal with
      | H1 : Char.lower ?d = "m"%char, H2 : Char.lower ?d = Char.lower "k"
        |- _ => rewrite H1 in H2; by vm_compute in H2
      end.
Qed.

Lemma span_spec (p : ascii → bool) (s m r : string) :
  Re.span p s = (m, r)
  ↔ s = m +:+ r ∧ Str.all p m = true ∧ starts_with_a p r = false.
Proof.
  revert m r. induction s as [|c s IH]; intros m r; simpl.
  - split.
    + intros [= <- <-]. done.
    + intros (Hs & _ & _). destruct m; [|done].
      rewrite app_empty_l in Hs. by subst r.
  - destruct (p c) eqn:Hc.
    + destruct (Re.span p s) as [m' r'] eqn:E.
      destruct (IH m' r') as [IH1 _]. destruct (IH1 eq_refl) as (-> & Hm' & Hr').
      split.
      * intros [= <- <-]. rewrite app_cons. simpl. by rewrite Hc, Hm'.
      * intros (Hs & Hm & Hr). destruct m as [|d m].
        -- rewrite app_empty_l in Hs. subst r.
           unfold starts_with_a in Hr. simpl in Hr. congruence.
        -- rewrite app_cons in Hs. injection Hs as <- Hs.
           simpl in Hm. apply andb_prop in Hm as [_ Hm].
           assert ((m', r') = (m, r)) as E' by (by apply IH).
           congruence.
    + split.
      * intros [= <- <-]. unfold starts_with_a. simpl. by rewrite Hc.
      * intros (Hs & Hm & Hr). destruct m as [|d m].
        -- rewrite app_empty_l in Hs. by subst r.
        -- rewrite app_cons in Hs. injection Hs as <- Hs.
           simpl in Hm. by rewrite Hc in Hm.
Qed.

Lemma word_at_head (s : string) :
  Re.is_word_at (Str.head s) = starts_with_a Char.is_word s.
Proof. reflexivity. Qed.

Lemma starts_letters_word (m t : string) :
  m ≠ "" → Str.all Char.is_letter m = true →
  starts_with_a Char.is_word (m +:+ t) = true.
Proof.
  destruct m as [|c m]; [done|]. intros _ [H _]%andb_prop.
  by apply letter_word.
Qed.

Lemma starts_letters_not_space (m t : string) :
  m ≠ "" → Str.all Char.is_letter m = true →
  starts_with_a Char.is_space (m +:+ t) = false.
Proof.
  destruct m as [|c m]; [done|]. intros _ [H _]%andb_prop.
  by apply letter_not_space.
Qed.

(** The matcher finds a match exactly where the pattern, read as in
    [token], is present. *)
Lemma match_here_token (prev : option ascii) (s g1 g2 rest : string) :
  Re.match_here prev s = Some (g1, g2, rest) ↔ token prev s g1 g2 rest.
Proof.
  unfold Re.match_here, token. split.
  - destruct (Re.word_boundary prev s) eqn:Hb; [|done].
    destruct (Re.alternatives s) as [[m s1]|] eqn:Ea; [|done].
    destruct (Re.span Char.is_space s1) as [w1 s2] eqn:E1.
    destruct s2 as [|c s3]; [done|].
    destruct (Char.is_code 61 c) eqn:Hc; [|done].
    destruct (Re.span Char.is_space s3) as [w2 s4] eqn:E2.
    destruct (Re.span Char.is_letter s4) as [g s5] eqn:E3.
    destruct g as [|d g]; [done|]. intros [= <- <- <-].
    apply alternatives_spec in Ea as [-> Hm].
    apply span_spec in E1 as (-> & Hw1 & _).
    apply span_spec in E2 as (-> & Hw2 & _).
    apply span_spec in E3 as (-> & Hg & Hrest).
    apply is_code_eq in Hc as ->; [|done].
    exists w1, w2. repeat split; try done.
    destruct (mechanisms_letters m Hm) as [Hne Hletters].
    unfold Re.word_boundary in Hb.
    rewrite (word_at_head (m +:+ _)), starts_letters_word in Hb by done.
    by destruct (Re.is_word_at prev).
  - intros (w1 & w2 & -> & Hm & Hw1 & Hw2 & Hne & Hg & Hrest & Hprev).
    destruct (mechanisms_letters g1 Hm) as [Hne1 Hletters].
    unfold Re.word_boundary.
    rewrite (word_at_head (g1 +:+ _)), starts_letters_word, Hprev by done.
    simpl.
    assert (Re.alternatives (g1 +:+ w1 +:+ "=" +:+ w2 +:+ g2 +:+ rest)
            = Some (g1, w1 +:+ "=" +:+ w2 +:+ g2 +:+ rest)) as ->
      by (by apply alternatives_spec).
    assert (Re.span Char.is_space (w1 +:+ "=" +:+ w2 +:+ g2 +:+ rest)
            = (w1, String "=" (w2 +:+ g2 +:+ rest))) as ->
      by (by apply span_spec).
    change (Char.is_code 61 "=") with true. simpl.
    assert (Re.span Char.is_space (w2 +:+ g2 +:+ rest)
            = (w2, g2 +:+ rest)) as ->.
    { apply span_spec. repeat split; try done.
      by apply starts_letters_not_space. }
    assert (Re.span Char.is_letter (g2 +:+ rest) = (g2, rest)) as ->
      by (by apply span_spec).
    by destruct g2.
Qed.

Lemma last_app (prev : option ascii) (s t : string) :
  Str.last prev (s +:+ t) = Str.last (Str.last prev s) t.
Proof.
  revert prev. induction s as [|c s IH]; intros prev; [done|].
  rewrite app_cons. simpl. apply IH.
Qed.

Lemma last_nonempty (p q : option ascii) (s : string) :
  s ≠ "" → Str.last p s = Str.last q s.
Proof. by destruct s. Qed.

Lemma finditer_from_skip (m t : string) (prev : option ascii) :
  Re.finditer_from (String.length m) prev (m +:+ t)
  = Re.finditer_from 0 (Str.last prev m) t.
Proof.
  revert prev. induction m as [|c m IH]; intros prev.
  - rewrite app_empty_l. simpl. by destruct t.
  - rewrite app_cons. simpl. apply IH.
Qed.

Lemma finditer_from_none (prev : option ascii) (c : ascii) (s : string) :
  Re.match_here prev (String c s) = None →
  Re.finditer_from 0 prev (String c s) = Re.finditer_from 0 (Some c) s.
Proof. intros H. simpl. by rewrite H. Qed.

Lemma finditer_from_match (prev : option ascii) (s g1 g2 rest : string) :
  Re.match_here prev s = Some (g1, g2, rest) →
  Re.finditer_from 0 prev s
  = (g1, g2) :: Re.finditer_from 0 (Str.last prev g2) rest.
Proof.
  intros H. pose proof H as Ht. apply match_here_token in Ht.
  destruct Ht as (w1 & w2 & Hs & Hm & _ & _ & Hne & _).
  destruct (mechanisms_letters g1 Hm) as [Hne1 _].
  destruct g1 as [|c g1]; [done|].
  remember (g1 +:+ w1 +:+ "=" +:+ w2 +:+ g2) as cs eqn:Hcs.
  assert (s = String c (cs +:+ rest)) as Hs'.
  { rewrite Hs, Hcs, app_cons. by rewrite !app_assoc_s. }
  rewrite Hs' in H |- *. simpl. rewrite H. f_equal.
  rewrite length_app_s.
  replace (S (String.length cs + String.length rest)
           - String.length rest - 1) with (String.length cs) by lia.
  rewrite finditer_from_skip. f_equal.
  rewrite Hcs, <- !app_assoc_s, last_app.
  by apply last_nonempty.
Qed.

Lemma token_shorter (prev : option ascii) (s g1 g2 rest : string) :
  token prev s g1 g2 rest → String.length rest < String.length s.
Proof.
  intros (w1 & w2 & -> & Hm & _).
  destruct (mechanisms_letters g1 Hm) as [Hne _].
  rewrite !length_app_s. destruct g1; [done|]. simpl. lia.
Qed.

(** [finditer] reads the line as [scans] describes. *)
Lemma finditer_scans (s : string) (prev : option ascii) :
  scans prev s (Re.finditer_from 0 prev s).
Proof.
  revert prev. induction s as [s IH] using string_length_ind. intros prev.
  destruct s as [|c s]; [constructor|].
  destruct (Re.match_here prev (String c s)) as [[[g1 g2] rest]|] eqn:E.
  - rewrite (finditer_from_match _ _ _ _ _ E).
    apply match_here_token in E.
    eapply scans_token; [done|]. apply IH. by eapply token_shorter.
  - rewrite (finditer_from_none _ _ _ E). apply scans_skip.
    + intros g1 g2 rest Ht%match_here_token. congruence.
    + apply IH. simpl. lia.
Qed.

(** No other reading exists. *)
Lemma scans_finditer (s : string) (prev : option ascii) ms :
  scans prev s ms → ms = Re.finditer_from 0 prev s.
Proof.
  induction 1 as [prev | prev s g1 g2 rest ms Ht _ IH | prev c s ms Hno _ IH].
  - done.
  - apply match_here_token in Ht.
    by rewrite (finditer_from_match _ _ _ _ _ Ht), IH.
  - rewrite finditer_from_none, IH; [done|].
    destruct (Re.match_here prev (String c s)) as [[[g1 g2] rest]|] eqn:E;
      [|done].
    apply match_here_token in E. by destruct (Hno g1 g2 rest).
Qed.

Lemma finditer_from_groups (s : string) (n : nat) (prev : option ascii)
    (g1 g2 : string) :
  (g1, g2) ∈ Re.finditer_from n prev s →
  Str.lower g1 ∈ mechanisms ∧ g2 ≠ "" ∧ Str.all Char.is_letter g2 = true.
Proof.
  revert n prev. induction s as [|c s IH]; intros n prev; simpl.
  - intros H. by apply elem_of_nil in H.
  - destruct n as [|n]; [|apply IH].
    destruct (Re.match_here prev (String c s)) as [[[m g] rest]|] eqn:E;
      [|apply IH].
    intros [Heq | Hin]%elem_of_cons; [|by eapply IH].
    injection Heq as -> ->. apply match_here_token in E.
    destruct E as (w1 & w2 & _ & Hm & _ & _ & Hne & Hg & _). done.
Qed.

Lemma letter_lower (c : ascii) :
  Char.is_letter c = true → Char.is_lower (Char.lower c) = true.
Proof. each_char c. Qed.

Lemma all_letter_lower (s : string) :
  Str.all Char.is_letter s = true →
  Str.all Char.is_lower (Str.lower s) = true.
Proof.
  induction s as [|c s IH]; [done|]. unfold Str.lower in *. simpl.
  intros [Hc Hs]%andb_prop. by rewrite (letter_lower c Hc), IH.
Qed.

(** Every recorded pair names a mechanism and carries a non-empty word of
    lowercase letters. *)
Lemma signals_valid (lines : list string) (k v : string) :
  (k, v) ∈ signals lines →
  k ∈ mechanisms ∧ v ≠ "" ∧ Str.all Char.is_lower v = true.
Proof.
  unfold signals. intros (l & Hkv & _)%list_elem_of_bind.
  apply list_elem_of_fmap in Hkv as ([g1 g2] & [= -> ->] & Hin).
  apply finditer_from_groups in Hin as (Hm & Hne & Hg).
  split; [done|]. split; [by destruct g2 | by apply all_letter_lower].
Qed.

Lemma first_result_Some (k v : string) sigs :
  first_result k sigs = Some v → (k, v) ∈ sigs.
Proof.
  induction sigs as [|[k' v'] sigs IH]; simpl; [done|].
  case_decide as Hk.
  - intros [= ->]. subst k'. by left.
  - intros H. right. by apply IH.
Qed.

Lemma first_result_None (k : string) sigs :
  first_result k sigs = None ↔ ∀ v, (k, v) ∉ sigs.
Proof.
  induction sigs as [|[k' v'] sigs IH]; simpl.
  - split; [|done]. intros _ v H. by apply elem_of_nil in H.
  - case_decide as Hk.
    + split; [done|]. intros H. subst k'. destruct (H v'). by left.
    + rewrite IH. split.
      * intros H v [Heq | Hin]%elem_of_cons; [congruence | by eapply H].
      * intros H v Hin. apply (H v). by right.
Qed.

Lemma extract_keys (lines : list string) :
  dom (extract lines) ⊆ list_to_set mechanisms.
Proof.
  intros k [v Hv]%elem_of_dom. rewrite extract_first_result in Hv.
  apply first_result_Some, signals_valid in Hv as [Hk _].
  by apply elem_of_list_to_set.
Qed.

Lemma extract_size (lines : list string) : size (extract lines) ≤ 3.
Proof.
  rewrite <- size_dom.
  etrans; [apply subseteq_size, extract_keys|].
  rewrite size_list_to_set; [done|]. compute_done.
Qed.

(** The pattern as the specification words it occurs on [glued_line], a
    candidate line, and nothing is recorded: the mechanism name does not
    start at a word boundary. *)
Lemma signal_extractor_counterexample :
  candidate glued_line
  ∧ occurrence glued_line "spf" "pass"
  ∧ signals [glued_line] = []
  ∧ extract [glued_line] !! "spf" = None.
Proof.
  split; [|split; [|split]].
  - left. by apply ci_prefix_startswith.
  - exists "Authentication-Results: mx.example.com; x", "spf", "", "",
      "pass", "". by repeat split.
  - reflexivity.
  - reflexivity.
Qed.

(** C7, with the word boundary of the pattern.  On every line the Signal
    Extractor visits, from left to right and without overlap, exactly the
    places where a mechanism name (spf, dkim or dmarc in any casing) that
    starts at a word boundary is followed by optional white space, ['='],
    optional white space and a longest run of one or more letters; it
    records the lowercased pair unless the mechanism has one already.  The
    mapping has at most three entries, its keys are mechanisms, its values
    are non-empty words of lowercase letters, and a mechanism without a
    match has no entry. *)
Theorem signal_extractor (lines : list string) :
  (∀ line, scans None line (Re.finditer line)
           ∧ ∀ ms, scans None line ms → ms = Re.finditer line)
  ∧ (∀ k, extract lines !! k = first_result k (signals lines))
  ∧ (∀ k v, extract lines !! k = Some v →
       k ∈ mechanisms ∧ v ≠ "" ∧ Str.all Char.is_lower v = true)
  ∧ size (extract lines) ≤ 3
  ∧ (∀ k, extract lines !! k = None ↔ ∀ v, (k, v) ∉ signals lines).
Proof.
  split; [|split; [|split; [|split]]].
  - intros line. split; [apply finditer_scans | apply scans_finditer].
  - apply extract_first_result.
  - intros k v Hv. rewrite extract_first_result in Hv.
    by apply first_result_Some, signals_valid in Hv.
  - apply extract_size.
  - intros k. rewrite extract_first_result. apply first_result_None.
Qed.

(** A line with one result, in mixed case and with white space. *)
Lemma signal_extractor_witness :
  "spf" ∈ mechanisms
  ∧ extract ["Authentication-Results: x; SPF = Pass"] !! "dkim" = None.
Proof.
  destruct (signal_extractor ["Authentication-Results: x; SPF = Pass"])
    as (_ & _ & Hval & _ & Hnone).
  split.
  - apply (Hval "spf" "pass"). reflexivity.
  - apply Hnone. intros v Hin. vm_compute in Hin.
    apply list_elem_of_singleton in Hin. congruence.
Defined.

(** ** Lines of a block that ends a line *)


Lemma splitlines_from_app (b cur x : string) (c : ascii) :
  Char.is_linebreak c = true →
  ¬ (c = "013"%char ∧ Str.head x = Some "010"%char) →
  Str.splitlines_from cur ((b +:+ String c "") +:+ x)
  = Str.splitlines_from cur (b +:+ String c "") ++ Str.splitlines x.
Proof.
  intros Hc Hx. revert cur.
  induction b as [b IH] using string_length_ind. intros cur.
  destruct b as [|d b].
  - rewrite !app_empty_l. change (String c "" +:+ x) with (String c x).
    rewrite splitlines_from_break by done.
    rewrite (splitlines_from_break cur "" c Hc) by (by intros [_ ?]).
    done.
  - rewrite !app_cons. simpl.
    destruct (Char.is_linebreak d) eqn:Hd.
    + destruct b as [|d' b].
      * rewrite !app_empty_l. change (String c "" +:+ x) with (String c x).
        destruct (Char.is_code 13 d && Char.is_code 10 c) eqn:E;
          rewrite ?E.
        -- done.
        -- rewrite splitlines_from_break by done.
           rewrite (splitlines_from_break "" "" c Hc) by (by intros [_ ?]).
           done.
      * rewrite !app_cons.
        destruct (Char.is_code 13 d && Char.is_code 10 d') eqn:E;
          rewrite ?E.
        -- rewrite (IH b) by (simpl; lia). done.
        -- rewrite <- !app_cons. rewrite (IH (String d' b)) by (simpl; lia).
           done.
    + rewrite (IH b) by (simpl; lia). done.
Qed.

Lemma splitlines_app (before x : string) :
  (before = ""
   ∨ ∃ b c, before = b +:+ String c "" ∧ Char.is_linebreak c = true) →
  starts_with_a Char.is_letter x = true →
  Str.splitlines (before +:+ x) = Str.splitlines before ++ Str.splitlines x.
Proof.
  intros [-> | (b & c & -> & Hc)] Hx; [done|].
  apply splitlines_from_app; [done|]. intros [_ Hhd].
  unfold starts_with_a in Hx. by rewrite Hhd in Hx.
Qed.


(** The first line of a text that starts with a non-empty part [cur] of
    it. *)
Lemma splitlines_from_first (s cur : string) :
  cur ≠ "" →
  ∃ r1 r2 more,
    s = r1 +:+ r2 ∧ Str.splitlines_from cur s = (cur +:+ r1) :: more.
Proof.
  revert cur. induction s as [|c s IH]; intros cur Hcur.
  - exists "", "", []. split; [done|]. rewrite app_empty_r. simpl.
    by destruct cur.
  - simpl. destruct (Char.is_linebreak c) eqn:Hc.
    + exists "", (String c s). rewrite app_empty_r.
      destruct s as [|c' s]; [by eexists|].
      destruct (Char.is_code 13 c && Char.is_code 10 c'); by eexists.
    + destruct (IH (cur +:+ String c "")) as (r1 & r2 & more & -> & Hsp).
      { by destruct cur. }
      exists (String c r1), r2, more. split; [done|].
      by rewrite Hsp, app_snoc.
Qed.

(** ** Text in which no result starts *)

Lemma app_eq_app (a b g y : string) :
  a +:+ b = g +:+ y →
  (∃ r, a = g +:+ r) ∨ (∃ x, x ≠ "" ∧ g = a +:+ x).
Proof.
  revert g. induction a as [|c a IH]; intros g H.
  - destruct g as [|d g]; [left; by exists "" | right; by exists (String d g)].
  - destruct g as [|d g]; [left; by eexists|].
    rewrite !app_cons in H. injection H as <- H.
    destruct (IH g H) as [[r ->] | (x & Hx & ->)].
    + left. by exists r.
    + right. by exists x.
Qed.

Lemma last_all (p : ascii → bool) (prev : option ascii) (s : string) :
  s ≠ "" → Str.all p s = true →
  ∃ c, Str.last prev s = Some c ∧ p c = true.
Proof.
  revert prev. induction s as [|c s IH]; intros prev Hne H; [done|].
  simpl in H. apply andb_prop in H as [Hc Hs]. simpl.
  destruct s as [|d s]; [by exists c|]. by apply IH.
Qed.

Lemma finditer_from_quiet (a b : string) (prev : option ascii) :
  (∀ a1 m r, a = a1 +:+ m +:+ r → Str.lower m ∈ mechanisms →
     Re.is_word_at (Str.last prev a1) = true) →
  (a ≠ "" → Re.is_word_at (Str.last prev a) = false) →
  Re.finditer_from 0 prev (a +:+ b)
  = Re.finditer_from 0 (Str.last prev a) b.
Proof.
  revert prev. induction a as [|c a IH]; intros prev Hno Hend; [done|].
  rewrite app_cons, finditer_from_none.
  - simpl. apply IH.
    + intros a1 m r -> Hm. by apply (Hno (String c a1) m r).
    + intros _. by apply Hend.
  - destruct (Re.match_here prev (String c (a +:+ b)))
      as [[[g1 g2] rest]|] eqn:E; [|done].
    exfalso. apply match_here_token in E.
    destruct E as (w1 & w2 & Hs & Hm & _ & _ & _ & _ & _ & Hprev).
    rewrite <- app_cons in Hs.
    destruct (app_eq_app _ _ _ _ Hs) as [[r Hr] | (x & Hx & Hg)].
    + specialize (Hno "" g1 r Hr Hm). simpl in Hno. congruence.
    + destruct (mechanisms_letters g1 Hm) as [_ Hl].
      rewrite Hg, all_app in Hl. apply andb_prop in Hl as [Hl _].
      destruct (last_all _ prev (String c a) ltac:(done) Hl)
        as (d & Hd1 & Hd2).
      rewrite Hd1 in Hend. simpl in Hend.
      rewrite letter_word in Hend by done. by specialize (Hend ltac:(done)).
Qed.

Lemma no_result_start_prev (a : string) (prev : option ascii) :
  no_result_start a →
  ∀ a1 m r, a = a1 +:+ m +:+ r → Str.lower m ∈ mechanisms →
    Re.is_word_at (Str.last prev a1) = true.
Proof.
  intros H a1 m r Ha Hm. specialize (H a1 m r Ha Hm).
  destruct a1; [done|]. exact H.
Qed.

(** Reading on through text in which no result starts. *)
Lemma finditer_from_pass (a b : string) (prev : option ascii) :
  a ≠ "" → no_result_start a →
  Re.is_word_at (Str.last None a) = false →
  Re.finditer_from 0 prev (a +:+ b)
  = Re.finditer_from 0 (Str.last None a) b.
Proof.
  intros Hne Hno Hend.
  rewrite (last_nonempty None prev a Hne).
  apply finditer_from_quiet.
  - by apply no_result_start_prev.
  - intros _. by rewrite (last_nonempty prev None a Hne).
Qed.

Lemma quiet_sound (a : string) (after_word : bool) :
  quiet after_word a = true →
  ∀ a1 m r, a = a1 +:+ m +:+ r → Str.lower m ∈ mechanisms →
    match a1 with
    | EmptyString => after_word
    | _ => Re.is_word_at (Str.last None a1)
    end = true.
Proof.
  revert after_word. induction a as [|c a IH]; intros aw Hq a1 m r Ha Hm.
  - destruct a1; [|done]. rewrite app_empty_l in Ha.
    destruct (mechanisms_letters m Hm) as [Hne _]. by destruct m.
  - simpl in Hq. apply andb_prop in Hq as [Hq1 Hq2].
    destruct a1 as [|d a1].
    + rewrite app_empty_l in Ha.
      destruct aw; [done|]. simpl in Hq1.
      apply negb_true_iff, bool_decide_eq_false in Hq1. destruct Hq1.
      exists (m, r). by apply alternatives_spec.
    + rewrite app_cons in Ha. injection Ha as <- Ha.
      specialize (IH _ Hq2 a1 m r Ha Hm). simpl.
      destruct a1; [done|]. exact IH.
Qed.

Lemma quiet_no_result_start (a : string) :
  quiet false a = true → no_result_start a.
Proof.
  intros Hq a1 m r Ha Hm. pose proof (quiet_sound a false Hq a1 m r Ha Hm).
  by destruct a1.
Qed.

(** ** A line with the three tokens *)

Lemma inline_space_space (w : string) :
  inline_space w → Str.all Char.is_space w = true.
Proof.
  unfold inline_space. induction w as [|c w IH]; [done|]. simpl.
  intros [[Hc _]%andb_prop Hw]%andb_prop. by rewrite Hc, IH.
Qed.

Lemma inline_space_no_linebreak (w : string) :
  inline_space w → Str.all (λ c, negb (Char.is_linebreak c)) w = true.
Proof.
  unfold inline_space. induction w as [|c w IH]; [done|]. simpl.
  intros [[_ Hc]%andb_prop Hw]%andb_prop. by rewrite Hc, IH.
Qed.

Lemma letter_no_linebreak (c : ascii) :
  Char.is_letter c = true → Char.is_linebreak c = false.
Proof. each_char c. Qed.

Lemma letters_no_linebreak (s : string) :
  Str.all Char.is_letter s = true →
  Str.all (λ c, negb (Char.is_linebreak c)) s = true.
Proof.
  induction s as [|c s IH]; [done|]. simpl.
  intros [Hc Hs]%andb_prop. by rewrite (letter_no_linebreak c Hc), IH.
Qed.

Lemma pass_letters (p : string) :
  Str.lower p = "pass" → p ≠ "" ∧ Str.all Char.is_letter p = true.
Proof.
  intros H. split; [by intros ->|]. apply all_lower_letter. by rewrite H.
Qed.

Lemma pass_token_no_linebreak (k tok : string) :
  k ∈ mechanisms → pass_token k tok →
  Str.all (λ c, negb (Char.is_linebreak c)) tok = true.
Proof.
  intros Hk (m & w1 & w2 & p & -> & Hm & Hw1 & Hw2 & Hp).
  rewrite <- Hm in Hk. destruct (mechanisms_letters m Hk) as [_ Hl].
  destruct (pass_letters p Hp) as [_ Hpl].
  rewrite !all_app, (letters_no_linebreak m), (letters_no_linebreak p),
    (inline_space_no_linebreak w1), (inline_space_no_linebreak w2) by done.
  done.
Qed.

(** At a word boundary a token [k=pass] followed by something that is not
    a letter is matched, whatever its casing and its white space. *)
Lemma finditer_from_pass_token (k tok rest : string) (prev : option ascii) :
  k ∈ mechanisms → pass_token k tok →
  Re.is_word_at prev = false →
  starts_with_a Char.is_letter rest = false →
  ∃ m p prev',
    Str.lower m = k ∧ Str.lower p = "pass"
    ∧ Re.is_word_at prev' = true
    ∧ Re.finditer_from 0 prev (tok +:+ rest)
      = (m, p) :: Re.finditer_from 0 prev' rest.
Proof.
  intros Hk (m & w1 & w2 & p & -> & Hm & Hw1 & Hw2 & Hp) Hprev Hrest.
  destruct (pass_letters p Hp) as [Hne Hpl].
  destruct (last_all _ prev p Hne Hpl) as (d & Hd1 & Hd2).
  exists m, p, (Some d). split; [done|]. split; [done|].
  split; [by apply letter_word|].
  rewrite <- Hd1. apply finditer_from_match, match_here_token.
  exists w1, w2. rewrite !app_assoc_s. rewrite Hm.
  repeat split; try done; by apply inline_space_space.
Qed.

Lemma starts_app (p : ascii → bool) (a x : string) :
  a ≠ "" → starts_with_a p (a +:+ x) = starts_with_a p a.
Proof. by destruct a. Qed.

Lemma starts_prefix_false (p : ascii → bool) (r1 r2 : string) :
  starts_with_a p (r1 +:+ r2) = false → starts_with_a p r1 = false.
Proof. by destruct r1. Qed.

Lemma filter_none (lines : list string) :
  Forall (λ l, ¬ candidate l) lines → filter candidate lines = [].
Proof.
  induction 1 as [|l lines Hl _ IH]; [done|].
  by rewrite filter_cons, decide_False.
Qed.

Lemma line_start_nonempty (a : string) :
  line_start a →
  a ≠ "" ∧ starts_with_a Char.is_letter a = true.
Proof.
  intros [(x & y & -> & Hx) _].
  destruct x as [|c x]; [done|]. split; [done|].
  unfold Str.lower in Hx. simpl in Hx. injection Hx as Hc _.
  rewrite app_cons. apply lower_letter. by rewrite Hc.
Qed.

Lemma line_start_candidate (a x : string) :
  line_start a → candidate (a +:+ x).
Proof.
  intros [(y & z & -> & Hy) _]. left. exists y, (z +:+ x).
  by rewrite app_assoc_s.
Qed.

(** The results read on a line that carries the three tokens. *)
Lemma signals_three_tokens (a0 t1 a1 t2 a2 t3 r1 k1 k2 k3 : string) :
  k1 ∈ mechanisms → k2 ∈ mechanisms → k3 ∈ mechanisms →
  line_start a0 →
  pass_token k1 t1 → separator a1 →
  pass_token k2 t2 → separator a2 →
  pass_token k3 t3 →
  starts_with_a Char.is_letter r1 = false →
  ∃ more,
    signals [a0 +:+ t1 +:+ a1 +:+ t2 +:+ a2 +:+ t3 +:+ r1]
    = (k1, "pass") :: (k2, "pass") :: (k3, "pass") :: more.
Proof.
  intros Hk1 Hk2 Hk3 H0 Ht1 (Hne1 & _ & Hs1 & Hno1 & Hend1)
    Ht2 (Hne2 & _ & Hs2 & Hno2 & Hend2) Ht3 Hr1.
  destruct (line_start_nonempty a0 H0) as [Hne0 _].
  destruct H0 as (_ & _ & Hno0 & Hend0).
  unfold signals. simpl. rewrite app_nil_r. unfold Re.finditer.
  rewrite finditer_from_pass by done.
  destruct (finditer_from_pass_token k1 t1 (a1 +:+ t2 +:+ a2 +:+ t3 +:+ r1)
              (Str.last None a0)) as (m1 & p1 & q1 & Hm1 & Hp1 & _ & ->);
    [done | done | done | by rewrite starts_app |].
  rewrite finditer_from_pass by done.
  destruct (finditer_from_pass_token k2 t2 (a2 +:+ t3 +:+ r1)
              (Str.last None a1)) as (m2 & p2 & q2 & Hm2 & Hp2 & _ & ->);
    [done | done | done | by rewrite starts_app |].
  rewrite finditer_from_pass by done.
  destruct (finditer_from_pass_token k3 t3 r1 (Str.last None a2))
    as (m3 & p3 & q3 & Hm3 & Hp3 & _ & ->); [done..|].
  rewrite !fmap_cons. simpl. rewrite Hm1, Hm2, Hm3, Hp1, Hp2, Hp3.
  by eexists.
Qed.

(** The three tokens on one line.  A header block whose first
    Authentication-Results line carries the tokens spf=pass, dkim=pass and
    dmarc=pass, in any order, in any casing and with any white space of
    the line around ['='], has the verdict pass, provided that the lines
    before it are complete and none of them is a candidate, that each
    token starts at a word boundary and is followed by something other
    than a letter, and that no other result starts on that line before or
    between the tokens. *)
Lemma three_tokens_on_one_line
    (before a0 t1 a1 t2 a2 t3 rest k1 k2 k3 : string) :
  [k1; k2; k3] ≡ₚ mechanisms →
  lines_before before →
  line_start a0 →
  pass_token k1 t1 → separator a1 →
  pass_token k2 t2 → separator a2 →
  pass_token k3 t3 →
  starts_with_a Char.is_letter rest = false →
  overall (auth_verdict_from_headers
             (before +:+ a0 +:+ t1 +:+ a1 +:+ t2 +:+ a2 +:+ t3 +:+ rest))
  = "pass".
Proof.
  intros Hperm [Hbefore Hnone] H0 Ht1 Ha1 Ht2 Ha2 Ht3 Hrest.
  assert (∀ k, k ∈ [k1; k2; k3] ↔ k ∈ mechanisms) as Hin
    by (intros k; by rewrite Hperm).
  assert (k1 ∈ mechanisms) as Hk1 by (apply Hin; in_list).
  assert (k2 ∈ mechanisms) as Hk2 by (apply Hin; in_list).
  assert (k3 ∈ mechanisms) as Hk3 by (apply Hin; in_list).
  destruct (line_start_nonempty a0 H0) as [Hne0 Hletter].
  set (L := a0 +:+ t1 +:+ a1 +:+ t2 +:+ a2 +:+ t3).
  assert (a0 +:+ t1 +:+ a1 +:+ t2 +:+ a2 +:+ t3 +:+ rest = L +:+ rest)
    as -> by (unfold L; by rewrite !app_assoc_s).
  assert (Str.all (λ c, negb (Char.is_linebreak c)) L = true) as HL.
  { unfold L. destruct H0 as (_ & Hl0 & _), Ha1 as (_ & Hl1 & _),
      Ha2 as (_ & Hl2 & _).
    rewrite !all_app, Hl0, Hl1, Hl2,
      (pass_token_no_linebreak k1 t1), (pass_token_no_linebreak k2 t2),
      (pass_token_no_linebreak k3 t3) by done.
    done. }
  assert (L ≠ "") as HLne by (unfold L; by destruct a0).
  unfold auth_verdict_from_headers.
  rewrite header_lines_filter, splitlines_app; [|done|].
  2:{ unfold L. rewrite !app_assoc_s. by rewrite starts_app. }
  rewrite filter_app, filter_none, app_nil_l by done.
  unfold Str.splitlines. rewrite splitlines_from_prefix, app_empty_l by done.
  destruct (splitlines_from_first rest L HLne)
    as (r1 & r2 & more & -> & ->).
  apply starts_prefix_false in Hrest.
  rewrite filter_cons_True
    by (unfold L; rewrite !app_assoc_s; by apply line_start_candidate).
  destruct (signals_three_tokens a0 t1 a1 t2 a2 t3 r1 k1 k2 k3)
    as [sigs Hsigs]; try done.
  apply resolve_all_pass. intros k Hk.
  rewrite extract_first_result, signals_cons.
  unfold L. rewrite !app_assoc_s, Hsigs. simpl.
  apply Hin in Hk. repeat case_decide; try done.
  list_cases Hk; congruence.
Qed.

(** The three tokens occur in [arc_headers], which has no candidate line:
    the verdict is unknown. *)
Lemma all_pass_verdict_counterexample :
  occurrence arc_headers "spf" "pass"
  ∧ occurrence arc_headers "dkim" "pass"
  ∧ occurrence arc_headers "dmarc" "pass"
  ∧ overall (auth_verdict_from_headers arc_headers) = "unknown".
Proof.
  split; [|split; [|split]].
  - exists "ARC-Authentication-Results: i=1; mx.example.com; ", "spf", "", "",
      "pass", " dkim=pass dmarc=pass". by repeat split.
  - exists "ARC-Authentication-Results: i=1; mx.example.com; spf=pass ",
      "dkim", "", "", "pass", " dmarc=pass". by repeat split.
  - exists
      "ARC-Authentication-Results: i=1; mx.example.com; spf=pass dkim=pass ",
      "dmarc", "", "", "pass", "". by repeat split.
  - reflexivity.
Qed.

Ltac separator_here :=
  split; [done|]; split; [reflexivity|]; split; [reflexivity|];
  split; [by apply quiet_no_result_start | reflexivity].

(** A block with two lines of another header first, the tokens in the
    order dkim, dmarc, spf, in mixed case, with white space around ['=']. *)
Lemma three_tokens_on_one_line_example :
  overall (auth_verdict_from_headers
             (sample_before +:+ "authentication-RESULTS: mx.example.com; "
              +:+ "DKIM = Pass" +:+ " header.d=zoom.us; "
              +:+ "dmarc =PASS" +:+ " (p=none); "
              +:+ "Spf= pass" +:+ sample_rest))
  = "pass".
Proof.
  apply (three_tokens_on_one_line sample_before
           "authentication-RESULTS: mx.example.com; "
           "DKIM = Pass" " header.d=zoom.us; "
           "dmarc =PASS" " (p=none); "
           "Spf= pass" sample_rest "dkim" "dmarc" "spf").
  - symmetry. apply (Permutation_cons_append ["dkim"; "dmarc"] "spf").
  - split.
    + right.
      exists "Received: from a.example (2001:db8::1)
 by b.example (2001:db8::2) with Microsoft SMTP Server;", "010"%char.
      split; reflexivity.
    + vm_compute Str.splitlines.
      repeat constructor; intros [H | H];
        apply ci_prefix_startswith in H; discriminate H.
  - split; [by apply ci_prefix_startswith|]. split; [reflexivity|].
    split; [by apply quiet_no_result_start | reflexivity].
  - exists "DKIM", " ", " ", "Pass". by repeat split.
  - separator_here.
  - exists "dmarc", " ", "", "PASS". by repeat split.
  - separator_here.
  - exists "Spf", "", " ", "pass". by repeat split.
  - reflexivity.
Defined.

(** ** The results read on a block *)

Lemma signals_one (l : string) :
  signals [l]
  = (λ m : string * string, (Str.lower m.1, Str.lower m.2))
      <$> Re.finditer l.
Proof. unfold signals. simpl. by rewrite app_nil_r. Qed.

Lemma reads_signals (ls : list string) (sigs : list (string * string)) :
  reads ls sigs → sigs = signals (filter candidate ls).
Proof.
  induction 1 as [|l ls sigs Hno _ IH | l ls ms sigs Hcand Hscan _ IH].
  - done.
  - by rewrite filter_cons_False.
  - rewrite filter_cons_True, signals_cons, signals_one, IH by done.
    by rewrite (scans_finditer l None ms Hscan).
Qed.

Lemma signals_reads (ls : list string) :
  reads ls (signals (filter candidate ls)).
Proof.
  induction ls as [|l ls IH]; [constructor|].
  destruct (decide (candidate l)) as [Hcand | Hno].
  - rewrite filter_cons_True, signals_cons, signals_one by done.
    apply reads_candidate; [done | apply finditer_scans | done].
  - rewrite filter_cons_False by done. by apply reads_other.
Qed.

(** What the scanner and the extractor find is what [reads] describes. *)
Lemma extract_reads (raw_headers : string) (ls : list string)
    (sigs : list (string * string)) (k : string) :
  lines_of raw_headers ls → reads ls sigs →
  extract (header_lines raw_headers) !! k = first_result k sigs.
Proof.
  intros Hls Hreads.
  rewrite extract_first_result, header_lines_filter.
  by rewrite <- (lines_of_splitlines raw_headers ls Hls),
    <- (reads_signals ls sigs Hreads).
Qed.

(** C5, for the results read on the candidate lines.  A header block in
    which the first result read for each of spf, dkim and dmarc on the
    lines that start, in any casing, with authentication-results is pass
    has the verdict pass: the tokens may stand in any order, in any
    casing, with white space around ['='], on one such line or on
    several, with any other text between them. *)
Theorem all_pass_verdict (raw_headers : string) (ls : list string)
    (sigs : list (string * string)) :
  lines_of raw_headers ls →
  reads ls sigs →
  (∀ k, k ∈ mechanisms → first_result k sigs = Some "pass") →
  overall (auth_verdict_from_headers raw_headers) = "pass".
Proof.
  intros Hls Hreads Hpass. unfold auth_verdict_from_headers.
  apply resolve_all_pass. intros k Hk.
  rewrite (extract_reads raw_headers ls sigs) by done. by apply Hpass.
Qed.

(** The tokens spread over two of three candidate lines. *)
Lemma all_pass_verdict_witness :
  overall (auth_verdict_from_headers spread_headers) = "pass".
Proof.
  apply (all_pass_verdict spread_headers (Str.splitlines spread_headers)
           (signals (filter candidate (Str.splitlines spread_headers)))).
  - apply (splitlines_from_lines spread_headers "" eq_refl).
  - apply signals_reads.
  - intros k Hk. rewrite <- header_lines_filter.
    list_cases Hk; subst k; reflexivity.
Defined.

(** ** The examples of the specification *)

Example verdict_all_pass :
  auth_verdict_from_headers
    "Authentication-Results: spf=pass smtp.mailfrom=x; dkim=pass header.d=x; dmarc=pass header.from=x"
  = Verdict (Some "pass") (Some "pass") (Some "pass") "pass".
Proof. reflexivity. Qed.

Example verdict_one_fail :
  overall (auth_verdict_from_headers
             "Authentication-Results: spf=fail smtp.mailfrom=x; dkim=pass header.d=x; dmarc=pass header.from=x")
  = "fail".
Proof. reflexivity. Qed.

Example verdict_partial :
  auth_verdict_from_headers "Authentication-Results: dkim=pass header.d=x"
  = Verdict None (Some "pass") None "fail".
Proof. reflexivity. Qed.

Example verdict_empty :
  auth_verdict_from_headers "" = Verdict None None None "unknown".
Proof. reflexivity. Qed.

Example verdict_sample :
  overall (auth_verdict_from_headers sample_headers) = "pass".
Proof. reflexivity. Qed.

(** A folded line is not joined to the line it continues. *)
Example folded_not_joined :
  header_lines folded_headers = ["Authentication-Results: mx.example.com;"]
  ∧ overall (auth_verdict_from_headers folded_headers) = "unknown".
Proof. split; reflexivity. Qed.

(** The analyzer times out while the headers resolve to pass. *)
Example timeout_keeps_pass_verdict :
  let '(out, w') := create_ticket sample_ticket unreachable_env empty_world in
  out = {| ticket_id := 1; status := "analyzer_error" |}
  ∧ (row_analyzer_result <$> tickets w' !! 1%Z)
    = Some (Some (JObj [("error", JStr "timed out");
                        ("verdict",
                         JObj [("spf", JStr "pass"); ("dkim", JStr "pass");
                               ("dmarc", JStr "pass");
                               ("overall", JStr "pass")])])).
Proof. split; reflexivity. Qed.

(** Why the tokens must be the first results of the line, whole words at
    a word boundary, and on one line. *)
Example earlier_result_wins :
  overall (auth_verdict_from_headers
             "Authentication-Results: spf=fail; spf=pass; dkim=pass; dmarc=pass")
  = "fail".
Proof. reflexivity. Qed.

Example longer_word_is_not_pass :
  auth_verdict_from_headers
    "Authentication-Results: spf=passed; dkim=pass; dmarc=pass"
  = Verdict (Some "passed") (Some "pass") (Some "pass") "fail".
Proof. reflexivity. Qed.

Example glued_name_is_skipped :
  auth_verdict_from_headers
    "Authentication-Results: xspf=pass; dkim=pass; dmarc=pass"
  = Verdict None (Some "pass") (Some "pass") "fail".
Proof. reflexivity. Qed.

Example token_split_by_line_end :
  auth_verdict_from_headers
    "Authentication-Results: dkim=pass; dmarc=pass; spf=
pass"
  = Verdict None (Some "pass") (Some "pass") "fail".
Proof. reflexivity. Qed.

(** * Further properties of the code *)

(** ** Reading the store *)

Lemma get_ticket_found (id : Z) (e : env) (w : world) (r : ticket_row) :
  tickets w !! id = Some r → get_ticket id e w = (inr (full_of id r), w).
Proof.
  intros H. unfold get_ticket, fetchone, mbind, M_bind, mret, M_ret; simpl.
  by rewrite H.
Qed.

Lemma get_ticket_not_found (id : Z) (e : env) (w : world) :
  tickets w !! id = None →
  get_ticket id e w = (inl (HTTP 404 "ticket not found"), w).
Proof.
  intros H. unfold get_ticket, fetchone, mbind, M_bind, mret, M_ret; simpl.
  by rewrite H.
Qed.

(** Submissions handled in turn, none overlapping another.  Get-by-id
    gives back what was submitted: reporter, title, body and raw headers
    unchanged, with the status Submit returned and the merged result of
    the analyzer outcome and the verdict; further submissions do not
    change it. *)
Lemma roundtrip_in_turn (t : TicketIn) (e e1 : env) (w : world) :
  let '(out, w') := create_ticket t e w in
  ∀ w'', later w' w'' →
    (get_ticket (ticket_id out) e1 w'').1
    = inr {| full_id := ticket_id out;
             full_ts := time_time e;
             full_reporter := reporter t;
             full_title := title t;
             full_body := body t;
             full_urls :=
               urls_of_column (Str.join "," (default [] (urls t)));
             full_headers := headers t;
             full_analyzer_status := status out;
             full_analyzer_result :=
               Some (merged_result (analyzer e (calls w))
                       (auth_verdict_from_headers (headers t))) |}.
Proof.
  rewrite create_ticket_run; simpl. intros w'' Hlater.
  eapply later_keeps in Hlater; [|simpl; apply lookup_insert_eq].
  by rewrite (get_ticket_found _ _ _ _ Hlater).
Qed.

(** After the sample ticket a second one is submitted. *)
Lemma roundtrip_in_turn_example :
  ∃ full,
    (get_ticket 1 unreachable_env
       (create_ticket other_ticket failing_env
          (create_ticket sample_ticket unreachable_env empty_world).2).2).1
    = inr full
    ∧ full_headers full = sample_headers
    ∧ full_analyzer_status full = "analyzer_error".
Proof.
  pose proof (roundtrip_in_turn sample_ticket unreachable_env
                unreachable_env empty_world) as H.
  destruct (create_ticket sample_ticket unreachable_env empty_world)
    as [out w'] eqn:E.
  assert (ticket_id out = 1%Z ∧ status out = "analyzer_error") as [Hid Hst]
    by (by injection E as <- _).
  specialize (H (create_ticket other_ticket failing_env w').2
                (later_submit w' w' other_ticket failing_env (later_now w'))).
  rewrite Hid in H. change ((out, w').2) with w'. rewrite H.
  eexists. split; [reflexivity|]. split; [reflexivity | exact Hst].
Defined.

(** ** Listing the store *)

#[global] Instance id_desc_trans : Transitive id_desc.
Proof. intros a b c. unfold id_desc. lia. Qed.

#[global] Instance id_desc_total : Total id_desc.
Proof. intros a b. unfold id_desc. lia. Qed.







(** ** The ids of the store *)

Lemma later_sequence (w w' : world) :
  later w w' → (sqlite_sequence w ≤ sqlite_sequence w')%Z.
Proof.
  induction 1 as [|w w' t e _ IH]; [done|].
  rewrite create_ticket_run; simpl. unfold next_rowid. lia.
Qed.

(** Submissions handled in turn, none overlapping another: a submission
    made after another one receives a strictly larger id. *)
Lemma ids_increase_in_turn
    (t t' : TicketIn) (e e' : env) (w w'' : world) :
  later (create_ticket t e w).2 w'' →
  (ticket_id (create_ticket t e w).1
   < ticket_id (create_ticket t' e' w'').1)%Z.
Proof.
  intros Hlater%later_sequence. revert Hlater.
  rewrite !create_ticket_run; simpl. intros Hle.
  unfold next_rowid at 2. lia.
Qed.

(** The second of two submissions. *)
Lemma ids_increase_in_turn_example :
  (ticket_id (create_ticket sample_ticket unreachable_env empty_world).1
   < ticket_id
       (create_ticket other_ticket failing_env
          (create_ticket sample_ticket unreachable_env empty_world).2).1)%Z.
Proof. apply ids_increase_in_turn. apply later_now. Defined.

(** Submissions handled in turn, none overlapping another, on a store
    that starts empty: the ids are 1 up to the number of tickets, that
    number is also the number of analyzer calls made, five effects were
    logged for each, no ticket is left queued and every ticket has a
    result that carries a verdict. *)
Lemma store_invariant_in_turn (w : world) :
  later empty_world w →
  let n := size (tickets w) in
  sqlite_sequence w = Z.of_nat n
  ∧ (∀ k : Z, is_Some (tickets w !! k) ↔ (1 ≤ k ≤ Z.of_nat n)%Z)
  ∧ calls w = n
  ∧ length (log w) = 5 * n
  ∧ map_Forall (λ _ r, row_analyzer_status r ∈ submit_statuses
                       ∧ has_verdict (row_analyzer_result r)) (tickets w).
Proof.
  intros H. remember empty_world as w0 eqn:Hw0.
  induction H as [w0 | w0 w t e _ IH]; subst w0; simpl.
  - rewrite map_size_empty. split; [done|]. split.
    + intros k. rewrite lookup_empty. split; [by intros []|]. simpl. lia.
    + split; [done|]. split; [done|]. apply map_Forall_empty.
  - destruct (IH eq_refl) as (Hseq & Hdom & Hcalls & Hlog & Hall).
    set (n := size (tickets w)) in *.
    assert (max_rowid (tickets w) ≤ Z.of_nat n)%Z as Hmax.
    { unfold max_rowid.
      apply (map_fold_weak_ind
               (λ (r : Z) (m : gmap Z ticket_row),
                  (∀ k, is_Some (m !! k) → (k ≤ Z.of_nat n)%Z) →
                  (r ≤ Z.of_nat n)%Z)).
      - intros _. lia.
      - intros i x m r Hi IHm Hk.
        assert (i ≤ Z.of_nat n)%Z
          by (apply Hk; rewrite lookup_insert_eq; by eexists).
        assert (r ≤ Z.of_nat n)%Z; [|lia].
        apply IHm. intros k Hk'. apply Hk.
        destruct (decide (i = k)) as [-> | Hne];
          [rewrite lookup_insert_eq; by eexists|].
        by rewrite lookup_insert_ne.
      - intros k Hk. by apply Hdom. }
    assert (next_rowid w = (Z.of_nat n + 1)%Z) as Hnext
      by (unfold next_rowid; lia).
    rewrite create_ticket_run; simpl.
    rewrite map_size_insert_None by apply next_rowid_fresh.
    fold n. rewrite Hnext. split; [lia|]. split; [|split; [|split]].
    + intros k. destruct (decide ((Z.of_nat n + 1)%Z = k)) as [<- | Hne].
      * rewrite lookup_insert_eq. split; [lia | by eexists].
      * rewrite lookup_insert_ne, Hdom by done. lia.
    + by rewrite Hcalls.
    + rewrite length_app, Hlog. simpl. lia.
    + apply map_Forall_insert_2; [|done]. simpl. split.
      * unfold terminal_status, submit_statuses. case_decide; [in_list|].
        pose proof (resolve_overall_cases
                      (extract (header_lines (headers t)))) as Hov.
        fold (auth_verdict_from_headers (headers t)) in Hov.
        list_cases Hov; rewrite Hov; in_list.
      * destruct (analyzer e (calls w)); simpl;
          by eexists [_], _.
Qed.

(** Two submissions on the empty store. *)
Lemma store_invariant_in_turn_example :
  sqlite_sequence
    (create_ticket other_ticket failing_env
       (create_ticket sample_ticket unreachable_env empty_world).2).2
  = 2%Z.
Proof.
  set (w := (create_ticket other_ticket failing_env
               (create_ticket sample_ticket unreachable_env
                  empty_world).2).2).
  destruct (store_invariant_in_turn w) as (Hseq & _).
  - apply later_submit, later_submit, later_now.
  - rewrite Hseq. reflexivity.
Defined.

(** ** Urls with commas *)











(** ** The verdict of a header block *)

Lemma extract_nil : extract [] = ∅.
Proof. reflexivity. Qed.

(** X8. A header block none of whose lines starts, in any casing, with
    authentication-results has the verdict unknown and no result for any
    mechanism, whatever else it contains. *)
Theorem no_candidate_unknown (raw_headers : string) (ls : list string) :
  lines_of raw_headers ls →
  Forall (λ l, ¬ candidate l) ls →
  auth_verdict_from_headers raw_headers = Verdict None None None "unknown".
Proof.
  intros Hls Hnone. apply lines_of_splitlines in Hls. subst ls.
  unfold auth_verdict_from_headers.
  by rewrite header_lines_filter, filter_none.
Qed.

(** The block with the tokens on an ARC header only. *)
Lemma no_candidate_unknown_witness :
  auth_verdict_from_headers arc_headers = Verdict None None None "unknown".
Proof.
  apply (no_candidate_unknown arc_headers [arc_headers]).
  - apply lines_last; [discriminate | reflexivity].
  - repeat constructor. intros [H | H];
      apply ci_prefix_startswith in H; discriminate H.
Defined.

Lemma resolve_pass_iff (found : gmap string string) :
  overall (resolve found) = "pass"
  ↔ found !! "spf" = Some "pass" ∧ found !! "dkim" = Some "pass"
    ∧ found !! "dmarc" = Some "pass".
Proof.
  split.
  - unfold resolve.
    destruct (found !! "spf") as [a|], (found !! "dkim") as [b|],
      (found !! "dmarc") as [c|]; simpl;
      repeat match goal with
      | |- context [negb (String.eqb ?x GOOD_VALUE)] =>
          destruct (negb (String.eqb x GOOD_VALUE)); simpl
      end;
      repeat case_bool_decide; simpl; try done.
    intros _. by simplify_eq.
  - intros (H1 & H2 & H3). apply resolve_all_pass. intros m Hm.
    by list_cases Hm; subst m.
Qed.

Lemma resolve_unknown_iff (found : gmap string string) :
  overall (resolve found) = "unknown"
  ↔ found !! "spf" = None ∧ found !! "dkim" = None
    ∧ found !! "dmarc" = None.
Proof.
  split.
  - unfold resolve.
    destruct (found !! "spf") as [a|], (found !! "dkim") as [b|],
      (found !! "dmarc") as [c|]; simpl;
      repeat match goal with
      | |- context [negb (String.eqb ?x GOOD_VALUE)] =>
          destruct (negb (String.eqb x GOOD_VALUE)); simpl
      end;
      repeat case_bool_decide; simpl; done.
  - intros (H1 & H2 & H3). apply resolve_unknown. intros m Hm.
    by list_cases Hm; subst m.
Qed.

(** No other block has the verdict pass. *)
Lemma pass_needs_first_results (raw_headers : string) (ls : list string)
    (sigs : list (string * string)) :
  lines_of raw_headers ls →
  reads ls sigs →
  overall (auth_verdict_from_headers raw_headers) = "pass" →
  ∀ k, k ∈ mechanisms → first_result k sigs = Some "pass".
Proof.
  intros Hls Hreads Hpass k Hk. unfold auth_verdict_from_headers in Hpass.
  apply resolve_pass_iff in Hpass as (H1 & H2 & H3).
  rewrite <- (extract_reads raw_headers ls sigs) by done.
  by list_cases Hk; subst k.
Qed.

(** X9. For every header block of code points U+0000 to U+00FF the
    returned dict is consistent, as the docstring says: overall
    is pass exactly when the three results are pass, unknown exactly when
    there is none, and fail otherwise; every result present is a non-empty
    word of lowercase letters. *)
Theorem verdict_consistent (raw_headers : string) :
  let v := auth_verdict_from_headers raw_headers in
  (overall v = "pass"
     ↔ spf v = Some "pass" ∧ dkim v = Some "pass" ∧ dmarc v = Some "pass")
  ∧ (overall v = "unknown" ↔ spf v = None ∧ dkim v = None ∧ dmarc v = None)
  ∧ (overall v ≠ "pass" → overall v ≠ "unknown" → overall v = "fail")
  ∧ (∀ x, x ∈ [spf v; dkim v; dmarc v] → ∀ a, x = Some a →
       a ≠ "" ∧ Str.all Char.is_lower a = true).
Proof.
  unfold auth_verdict_from_headers. simpl.
  set (found := extract (header_lines raw_headers)).
  split; [apply resolve_pass_iff|]. split; [apply resolve_unknown_iff|].
  split.
  - pose proof (resolve_overall_cases found) as H. intros H1 H2.
    by list_cases H.
  - intros x Hx a ->.
    assert (∃ k, found !! k = Some a) as [k Hk]
      by (list_cases Hx; eauto).
    unfold found in Hk. rewrite extract_first_result in Hk.
    by apply first_result_Some, signals_valid in Hk as (_ & ? & ?).
Qed.

(** A block with one result. *)
Lemma verdict_consistent_witness :
  overall (auth_verdict_from_headers
             "Authentication-Results: mx; DKIM=Pass") = "fail".
Proof.
  apply (proj1 (proj2 (proj2 (verdict_consistent
           "Authentication-Results: mx; DKIM=Pass")))).
  - discriminate.
  - discriminate.
Defined.

Lemma signals_app (l1 l2 : list string) :
  signals (l1 ++ l2) = signals l1 ++ signals l2.
Proof. unfold signals. apply bind_app. Qed.

Lemma first_result_app_cases (k : string) s1 s2 :
  first_result k (s1 ++ s2)
  = match first_result k s1 with
    | Some v => Some v
    | None => first_result k s2
    end.
Proof.
  induction s1 as [|[k' v] s1 IH]; simpl; [done|]. by case_decide.
Qed.

Lemma header_lines_app (b x : string) (c : ascii) :
  Char.is_linebreak c = true →
  ¬ (c = "013"%char ∧ Str.head x = Some "010"%char) →
  header_lines ((b +:+ String c "") +:+ x)
  = header_lines (b +:+ String c "") ++ header_lines x.
Proof.
  intros Hc Hx. rewrite !header_lines_filter. unfold Str.splitlines.
  by rewrite splitlines_from_app, filter_app.
Qed.

(** X10. Text added after a complete line cannot undo what was found: a
    result already found for a mechanism stays, a verdict pass stays
    pass, and a result other than pass keeps the verdict at fail. *)
Theorem results_survive_append (b x : string) (c : ascii) :
  Char.is_linebreak c = true →
  ¬ (c = "013"%char ∧ Str.head x = Some "010"%char) →
  let v := auth_verdict_from_headers (b +:+ String c "") in
  let v' := auth_verdict_from_headers ((b +:+ String c "") +:+ x) in
  (∀ a, spf v = Some a → spf v' = Some a)
  ∧ (∀ a, dkim v = Some a → dkim v' = Some a)
  ∧ (∀ a, dmarc v = Some a → dmarc v' = Some a)
  ∧ (overall v = "pass" → overall v' = "pass")
  ∧ ((∃ a, Some a ∈ [spf v; dkim v; dmarc v] ∧ a ≠ "pass") →
     overall v' = "fail").
Proof.
  intros Hc Hx. unfold auth_verdict_from_headers. cbv zeta.
  rewrite header_lines_app by done.
  set (l1 := header_lines (b +:+ String c "")). set (l2 := header_lines x).
  assert (∀ k a, extract l1 !! k = Some a → extract (l1 ++ l2) !! k = Some a)
    as Hkeep.
  { intros k a. rewrite !extract_first_result, signals_app,
      first_result_app_cases. by intros ->. }
  split; [apply (Hkeep "spf")|]. split; [apply (Hkeep "dkim")|].
  split; [apply (Hkeep "dmarc")|]. split.
  - rewrite !resolve_pass_iff. intros (H1 & H2 & H3). auto.
  - intros (a & Hin & Hne). apply resolve_fail.
    list_cases Hin; symmetry in Hin; apply Hkeep in Hin.
    + exists "spf", a. split; [in_list | done].
    + exists "dkim", a. split; [in_list | done].
    + exists "dmarc", a. split; [in_list | done].
Qed.

(** A second Authentication-Results line that claims pass. *)
Lemma results_survive_append_witness :
  overall (auth_verdict_from_headers
             "Authentication-Results: spf=fail
Authentication-Results: spf=pass; dkim=pass; dmarc=pass")
  = "fail".
Proof.
  apply (results_survive_append "Authentication-Results: spf=fail"
           "Authentication-Results: spf=pass; dkim=pass; dmarc=pass"
           "010"%char).
  - reflexivity.
  - intros [H _]. discriminate H.
  - exists "fail". split; [|discriminate]. vm_compute. left.
Defined.

(** X11. The second test of the scanner never adds a line: a line with
    the prefix authentication-results-original has the prefix
    authentication-results, so the scanner keeps exactly the lines that
    pass the first test. *)
Theorem second_test_is_subsumed (lines : list string) (line : string) :
  (Str.startswith (Str.lower line) "authentication-results-original" = true
     → Str.startswith (Str.lower line) "authentication-results" = true)
  ∧ scan_line lines line
    = if Str.startswith (Str.lower line) "authentication-results"
      then lines ++ [line] else lines.
Proof.
  assert (Str.startswith (Str.lower line) "authentication-results-original"
            = true
          → Str.startswith (Str.lower line) "authentication-results" = true)
    as Hsub.
  { rewrite !startswith_prefix. intros [r ->]. by exists ("-original" +:+ r). }
  split; [exact Hsub|]. unfold scan_line.
  destruct (Str.startswith _ "authentication-results") eqn:E1; [done|].
  destruct (Str.startswith _ "authentication-results-original") eqn:E2;
    [|done].
  by specialize (Hsub eq_refl).
Qed.

(** A line of the second kind. *)
Lemma second_test_is_subsumed_witness :
  Str.startswith (Str.lower "Authentication-Results-Original: spf=pass")
    "authentication-results" = true.
Proof.
  apply (proj1 (second_test_is_subsumed []
                  "Authentication-Results-Original: spf=pass")).
  reflexivity.
Defined.

(** ** The case of letters *)

Lemma lower_linebreak (c : ascii) :
  Char.is_linebreak (Char.lower c) = Char.is_linebreak c.
Proof. each_char c. Qed.

Lemma lower_space (c : ascii) :
  Char.is_space (Char.lower c) = Char.is_space c.
Proof. each_char c. Qed.

Lemma lower_word (c : ascii) :
  Char.is_word (Char.lower c) = Char.is_word c.
Proof. each_char c. Qed.

Lemma lower_is_letter (c : ascii) :
  Char.is_letter (Char.lower c) = Char.is_letter c.
Proof. each_char c. Qed.

Lemma lower_cr (c : ascii) :
  Char.is_code 13 (Char.lower c) = Char.is_code 13 c.
Proof. each_char c. Qed.

Lemma lower_lf (c : ascii) :
  Char.is_code 10 (Char.lower c) = Char.is_code 10 c.
Proof. each_char c. Qed.

Lemma lower_equals (c : ascii) :
  Char.lower c = "="%char → c = "="%char.
Proof. each_char c. Qed.

Lemma caseless_same (p : ascii → bool) (c c' : ascii) :
  caseless p → Char.lower c = Char.lower c' → p c = p c'.
Proof. intros Hp H. by rewrite <- (Hp c), <- (Hp c'), H. Qed.

Lemma same_case_cons (c c' : ascii) (s s' : string) :
  same_case (String c s) (String c' s')
  ↔ Char.lower c = Char.lower c' ∧ same_case s s'.
Proof.
  unfold same_case, Str.lower. simpl. split.
  - by intros [= ? ?].
  - by intros [-> ->].
Qed.

Lemma same_case_empty (s : string) : same_case "" s → s = "".
Proof. by destruct s. Qed.

Lemma same_case_sym (s s' : string) : same_case s s' → same_case s' s.
Proof. done. Qed.

Lemma same_case_length (s s' : string) :
  same_case s s' → String.length s = String.length s'.
Proof.
  revert s'. induction s as [|c s IH]; intros s' H.
  - by rewrite (same_case_empty s' H).
  - destruct s' as [|c' s']; [done|].
    apply same_case_cons in H as [_ H]. simpl. by rewrite (IH s').
Qed.

Lemma same_case_app (a a' b b' : string) :
  same_case a a' → same_case b b' → same_case (a +:+ b) (a' +:+ b').
Proof. unfold same_case. rewrite !lower_app. by intros -> ->. Qed.

Lemma same_case_app_inv (a b s' : string) :
  same_case (a +:+ b) s' →
  ∃ a' b', s' = a' +:+ b' ∧ same_case a a' ∧ same_case b b'.
Proof.
  revert s'. induction a as [|c a IH]; intros s' H.
  - by exists "", s'.
  - destruct s' as [|c' s']; [done|]. rewrite app_cons in H.
    apply same_case_cons in H as [Hc H].
    destruct (IH s' H) as (a' & b' & -> & Ha & Hb).
    exists (String c' a'), b'. split; [done|]. split; [|done].
    by apply same_case_cons.
Qed.

Lemma same_case_all (p : ascii → bool) (s s' : string) :
  caseless p → same_case s s' → Str.all p s = Str.all p s'.
Proof.
  intros Hp. revert s'. induction s as [|c s IH]; intros s' H.
  - by rewrite (same_case_empty s' H).
  - destruct s' as [|c' s']; [done|].
    apply same_case_cons in H as [Hc H]. simpl.
    by rewrite (caseless_same p c c' Hp Hc), (IH s' H).
Qed.

Lemma same_case_starts (p : ascii → bool) (s s' : string) :
  caseless p → same_case s s' → starts_with_a p s = starts_with_a p s'.
Proof.
  intros Hp H. destruct s as [|c s].
  - by rewrite (same_case_empty s' H).
  - destruct s' as [|c' s']; [done|].
    apply same_case_cons in H as [Hc _]. by apply caseless_same.
Qed.

Lemma same_case_last (p : ascii → bool) (s s' : string) q q' :
  caseless p → same_case s s' →
  from_option p false q = from_option p false q' →
  from_option p false (Str.last q s) = from_option p false (Str.last q' s').
Proof.
  intros Hp. revert s' q q'. induction s as [|c s IH]; intros s' q q' H Hq.
  - by rewrite (same_case_empty s' H).
  - destruct s' as [|c' s']; [done|].
    apply same_case_cons in H as [Hc H]. simpl. apply IH; [done|]. simpl.
    by apply caseless_same.
Qed.

Lemma word_at_from_option (q : option ascii) :
  Re.is_word_at q = from_option Char.is_word false q.
Proof. by destruct q. Qed.

Lemma token_same_case (prev prev' : option ascii) (s s' g1 g2 rest : string) :
  token prev s g1 g2 rest → same_case s s' →
  Re.is_word_at prev = Re.is_word_at prev' →
  ∃ g1' g2' rest',
    token prev' s' g1' g2' rest'
    ∧ same_case g1 g1' ∧ same_case g2 g2' ∧ same_case rest rest'.
Proof.
  intros (w1 & w2 & -> & Hm & Hw1 & Hw2 & Hne & Hg & Hrest & Hprev) Hs Hp.
  apply same_case_app_inv in Hs as (g1' & x1 & -> & Hg1 & Hs).
  apply same_case_app_inv in Hs as (w1' & x2 & -> & Hw1' & Hs).
  apply same_case_app_inv in Hs as (eq' & x3 & -> & Heq & Hs).
  apply same_case_app_inv in Hs as (w2' & x4 & -> & Hw2' & Hs).
  apply same_case_app_inv in Hs as (g2' & rest' & -> & Hg2 & Hr).
  assert (eq' = "=") as ->.
  { destruct eq' as [|c [|d eq']]; try done.
    apply same_case_cons in Heq as [Hc _].
    by rewrite (lower_equals c (eq_sym Hc)). }
  exists g1', g2', rest'. split; [|done].
  exists w1', w2'. split; [done|]. split; [by rewrite <- Hg1|].
  split; [by rewrite <- (same_case_all _ w1 w1' lower_space Hw1')|].
  split; [by rewrite <- (same_case_all _ w2 w2' lower_space Hw2')|].
  split.
  { intros ->. apply same_case_length in Hg2. by destruct g2. }
  split; [by rewrite <- (same_case_all _ g2 g2' lower_is_letter Hg2)|].
  split; [by rewrite <- (same_case_starts _ rest rest' lower_is_letter Hr)|].
  congruence.
Qed.

Lemma finditer_same_case (s s' : string) (n : nat) (prev prev' : option ascii) :
  same_case s s' → Re.is_word_at prev = Re.is_word_at prev' →
  Forall2 (λ m m' : string * string,
             same_case m.1 m'.1 ∧ same_case m.2 m'.2)
    (Re.finditer_from n prev s) (Re.finditer_from n prev' s').
Proof.
  revert s' n prev prev'.
  induction s as [|c s IH]; intros s' n prev prev' Hs Hp.
  - rewrite (same_case_empty s' Hs). constructor.
  - destruct s' as [|c' s']; [done|].
    pose proof Hs as Hs0. apply same_case_cons in Hs as [Hc Hs].
    assert (Re.is_word_at (Some c) = Re.is_word_at (Some c')) as Hp'
      by (simpl; by apply caseless_same; [exact lower_word|]).
    simpl. destruct n as [|n]; [|by apply IH].
    destruct (Re.match_here prev (String c s)) as [[[g1 g2] rest]|] eqn:E;
      destruct (Re.match_here prev' (String c' s'))
        as [[[g1' g2'] rest']|] eqn:E'.
    + apply match_here_token in E.
      destruct (token_same_case _ prev' _ _ _ _ _ E Hs0 Hp)
        as (h1 & h2 & r & Ht & H1 & H2 & Hr).
      apply match_here_token in Ht. rewrite E' in Ht.
      injection Ht as <- <- <-. constructor; [done|].
      rewrite (same_case_length rest rest' Hr),
        (same_case_length s s' Hs).
      by apply IH.
    + apply match_here_token in E.
      destruct (token_same_case _ prev' _ _ _ _ _ E Hs0 Hp)
        as (h1 & h2 & r & Ht & _).
      apply match_here_token in Ht. congruence.
    + apply match_here_token in E'.
      destruct (token_same_case _ prev _ _ _ _ _ E'
                  (same_case_sym _ _ Hs0) (eq_sym Hp))
        as (h1 & h2 & r & Ht & _).
      apply match_here_token in Ht. congruence.
    + by apply IH.
Qed.

Lemma signals_same_case (lines lines' : list string) :
  Forall2 same_case lines lines' → signals lines = signals lines'.
Proof.
  induction 1 as [|l l' lines lines' Hl _ IH]; [done|].
  rewrite (signals_cons l), (signals_cons l'), IH. f_equal.
  unfold signals. simpl. rewrite !app_nil_r. unfold Re.finditer.
  pose proof (finditer_same_case l l' 0 None None Hl eq_refl) as H.
  induction H as [|[g1 g2] [h1 h2] ms ms' [H1 H2] _ IHm]; [done|].
  rewrite !fmap_cons, IHm. simpl in *. by rewrite H1, H2.
Qed.

Lemma splitlines_same_case (s s' cur cur' : string) :
  same_case s s' → same_case cur cur' →
  Forall2 same_case (Str.splitlines_from cur s) (Str.splitlines_from cur' s').
Proof.
  revert s' cur cur'. induction s as [s IH] using string_length_ind.
  intros s' cur cur' Hs Hcur.
  destruct s as [|c s].
  - rewrite (same_case_empty s' Hs). simpl.
    destruct cur as [|d cur].
    + rewrite (same_case_empty cur' Hcur). constructor.
    + destruct cur' as [|d' cur']; [done|]. by repeat constructor.
  - destruct s' as [|c' s']; [done|].
    apply same_case_cons in Hs as [Hc Hs]. simpl.
    rewrite <- (caseless_same _ c c' lower_linebreak Hc).
    destruct (Char.is_linebreak c).
    + destruct s as [|d s].
      * rewrite (same_case_empty s' Hs). by repeat constructor.
      * destruct s' as [|d' s']; [done|].
        pose proof Hs as Hs0. apply same_case_cons in Hs as [Hd Hs].
        rewrite <- (caseless_same _ c c' lower_cr Hc),
          <- (caseless_same _ d d' lower_lf Hd).
        destruct (Char.is_code 13 c && Char.is_code 10 d);
          constructor; try done; apply IH; simpl; try done; lia.
    + apply IH; [simpl; lia | done|].
      apply same_case_app; [done|]. by apply same_case_cons.
Qed.

Lemma candidate_same_case (l l' : string) :
  same_case l l' → candidate l ↔ candidate l'.
Proof.
  intros H. unfold candidate. rewrite !ci_prefix_startswith.
  unfold same_case in H. by rewrite H.
Qed.

Lemma header_lines_same_case (raw raw' : string) :
  same_case raw raw' →
  Forall2 same_case (header_lines raw) (header_lines raw').
Proof.
  intros H. rewrite !header_lines_filter.
  pose proof (splitlines_same_case raw raw' "" "" H eq_refl) as Hl.
  fold (Str.splitlines raw) (Str.splitlines raw') in Hl.
  induction Hl as [|l l' ls ls' Hc _ IH]; [constructor|].
  rewrite !filter_cons.
  destruct (decide (candidate l)) as [Hl | Hl];
    destruct (decide (candidate l')) as [Hl' | Hl'].
  - by constructor.
  - by apply (candidate_same_case l l' Hc) in Hl.
  - by apply (candidate_same_case l l' Hc) in Hl'.
  - done.
Qed.

(** X12. The verdict does not depend on the case of the letters of the
    header block: two blocks with the same lowercase form have the same
    verdict. *)
Theorem verdict_ignores_case (raw_headers raw_headers' : string) :
  Str.lower raw_headers = Str.lower raw_headers' →
  auth_verdict_from_headers raw_headers
  = auth_verdict_from_headers raw_headers'.
Proof.
  intros H. unfold auth_verdict_from_headers. f_equal.
  apply map_eq. intros k. rewrite !extract_first_result.
  by rewrite (signals_same_case _ _ (header_lines_same_case _ _ H)).
Qed.

(** The sample block in upper case. *)
Lemma verdict_ignores_case_witness :
  auth_verdict_from_headers
    "AUTHENTICATION-RESULTS: SPF=PASS SMTP.MAILFROM=BOUNCE@ZOOM.US; DKIM=PASS HEADER.D=ZOOM.US; DMARC=PASS HEADER.FROM=ZOOM.US"
  = auth_verdict_from_headers sample_headers.
Proof. apply verdict_ignores_case. reflexivity. Defined.

(** ** The generator of [send_sample_ticket.py] *)

Lemma all_impl (p q : ascii → bool) (s : string) :
  (∀ c, p c = true → q c = true) → Str.all p s = true → Str.all q s = true.
Proof.
  intros H. induction s as [|c s IH]; [done|]. simpl.
  intros [Hc Hs]%andb_prop. by rewrite (H c Hc), IH.
Qed.

Lemma all_get (p : ascii → bool) (s : string) (i : nat) :
  Str.all p s = true → i < String.length s →
  p (default "000"%char (String.get i s)) = true.
Proof.
  revert i. induction s as [|c s IH]; intros i H Hi; simpl in *; [lia|].
  apply andb_prop in H as [Hc Hs]. destruct i as [|i]; [done|].
  apply IH; [done | lia].
Qed.

Lemma choices_all (p : ascii → bool) (population : string) (k : nat)
    clock (g : Sample.source) :
  Str.all p population = true → 0 < String.length population →
  Str.all p (Sample.choices population k clock g).1 = true.
Proof.
  intros Hp Hlen. revert g. induction k as [|k IH]; intros g; [done|].
  simpl. unfold mbind, Sample.G_bind, mret, Sample.G_ret. simpl.
  specialize (IH {| Sample.tape := Sample.tape g;
                    Sample.pos := S (Sample.pos g);
                    Sample.ticks := Sample.ticks g |}).
  destruct (Sample.choices population k clock _) as [rest g'].
  simpl in *. rewrite IH, all_get; [done | done|].
  by apply Nat.mod_upper_bound, Nat.neq_0_lt_0.
Qed.

Lemma digit_no_linebreak (c : ascii) :
  Char.is_digit c = true → negb (Char.is_linebreak c) = true.
Proof. each_char c. Qed.

Lemma letter_no_linebreak' (c : ascii) :
  Char.is_letter c = true → negb (Char.is_linebreak c) = true.
Proof. intros H. by rewrite (letter_no_linebreak c H). Qed.

Lemma uint_digits (d : Decimal.uint) :
  Str.all Char.is_digit (NilEmpty.string_of_uint d) = true.
Proof. induction d; simpl; done. Qed.

Lemma str_no_linebreak (n : nat) : no_linebreak (Sample.str n).
Proof.
  unfold no_linebreak, Sample.str.
  eapply all_impl; [apply digit_no_linebreak | apply uint_digits].
Qed.

Lemma pad2_no_linebreak (n : nat) : no_linebreak (Sample.pad2 n).
Proof.
  unfold Sample.pad2. destruct (_ <? 2); [|apply str_no_linebreak].
  unfold no_linebreak. rewrite all_app. by rewrite str_no_linebreak.
Qed.

Lemma join_no_linebreak (sep : string) (l : list string) :
  no_linebreak sep → Forall no_linebreak l → no_linebreak (Str.join sep l).
Proof.
  intros Hsep. unfold Str.join, no_linebreak.
  induction 1 as [|x l Hx Hl IH]; [done|].
  destruct l as [|y l]; [done|].
  change (String.concat sep (x :: y :: l))
    with (x +:+ sep +:+ String.concat sep (y :: l)).
  rewrite !all_app, Hx, Hsep. by rewrite IH.
Qed.

Lemma times_Forall {A} (P : A → Prop) (m : Sample.G A) (n : nat) clock g :
  (∀ g, P (m clock g).1) → Forall P (Sample.times n m clock g).1.
Proof.
  intros Hm. revert g. induction n as [|n IH]; intros g; [constructor|].
  simpl. unfold mbind, Sample.G_bind, mret, Sample.G_ret.
  specialize (Hm g). destruct (m clock g) as [x g1].
  specialize (IH g1). destruct (Sample.times n m clock g1) as [xs g2].
  by constructor.
Qed.

Lemma rand_ipv6_no_linebreak clock (g : Sample.source) :
  no_linebreak (Sample.rand_ipv6 clock g).1.
Proof.
  unfold Sample.rand_ipv6, mbind, Sample.G_bind, mret, Sample.G_ret.
  pose proof (times_Forall no_linebreak
                (Sample.choices "0123456789abcdef" 4) 8 clock g) as H.
  destruct (Sample.times 8 _ clock g) as [groups g1]. simpl.
  apply join_no_linebreak; [done|]. apply H. intros g0.
  apply choices_all; [done | simpl; lia].
Qed.

Lemma host_no_linebreak clock (g : Sample.source) :
  no_linebreak (Sample.host clock g).1.
Proof.
  unfold Sample.host, mbind, Sample.G_bind, mret, Sample.G_ret.
  pose proof (choices_all (λ c, negb (Char.is_linebreak c))
                "abcdefghijklmnopqrstuvwxyz" 6 clock g eq_refl
                ltac:(simpl; lia)) as Hl.
  unfold Sample.rand_local.
  destruct (Sample.choices _ 6 clock g) as [l g1]. simpl in *.
  unfold no_linebreak. rewrite !all_app, Hl.
  by rewrite str_no_linebreak, pad2_no_linebreak.
Qed.

Lemma received_loop_step (hops : nat) (lines : list string) (src : string)
    clock (g : Sample.source) :
  Sample.received_loop (S hops) lines src clock g
  = let '(dst, g1) := Sample.host clock g in
    let '(ip1, g2) := Sample.rand_ipv6 clock g1 in
    let '(ip2, g3) := Sample.rand_ipv6 clock g2 in
    Sample.received_loop hops
      (lines ++ ["Received: from " +:+ src +:+ " (" +:+ ip1 +:+ ")"
                 +:+ Sample.nl +:+ " by " +:+ dst +:+ " (" +:+ ip2
                 +:+ ") with Microsoft SMTP Server;" +:+ " "
                 +:+ clock (Sample.ticks g3)])
      dst clock
      {| Sample.tape := Sample.tape g3; Sample.pos := Sample.pos g3;
         Sample.ticks := S (Sample.ticks g3) |}.
Proof. reflexivity. Qed.

Lemma received_loop_entries (hops : nat) (lines : list string)
    (src : string) clock (g : Sample.source) :
  (∀ n, no_linebreak (clock n)) →
  no_linebreak src → Forall received_entry lines →
  Forall received_entry (Sample.received_loop hops lines src clock g).1.
Proof.
  intros Hclock. revert lines src g.
  induction hops as [|hops IH]; intros lines src g Hsrc Hlines; [done|].
  rewrite received_loop_step.
  pose proof (host_no_linebreak clock g) as Hdst.
  destruct (Sample.host clock g) as [dst g1].
  pose proof (rand_ipv6_no_linebreak clock g1) as Hip1.
  destruct (Sample.rand_ipv6 clock g1) as [ip1 g2].
  pose proof (rand_ipv6_no_linebreak clock g2) as Hip2.
  destruct (Sample.rand_ipv6 clock g2) as [ip2 g3].
  cbn [fst] in Hdst, Hip1, Hip2. apply IH; [done|].
  apply Forall_app. split; [done|]. repeat constructor.
  exists (src +:+ " (" +:+ ip1 +:+ ")"),
    (dst +:+ " (" +:+ ip2 +:+ ") with Microsoft SMTP Server;" +:+ " "
     +:+ clock (Sample.ticks g3)).
  split; [by rewrite !app_assoc_s|]. unfold no_linebreak in *.
  rewrite !all_app, Hsrc, Hip1, Hdst, Hip2, Hclock. done.
Qed.

Lemma make_received_chain_entries (hops : nat) clock (g : Sample.source) :
  (∀ n, no_linebreak (clock n)) →
  Forall received_entry (Sample.make_received_chain hops clock g).1.
Proof.
  intros Hclock. unfold Sample.make_received_chain, mbind, Sample.G_bind.
  pose proof (host_no_linebreak clock g) as Hsrc.
  destruct (Sample.host clock g) as [src g1].
  by apply received_loop_entries.
Qed.

Lemma choice_elem_of (seq : list string) clock (g : Sample.source) :
  seq ≠ [] → (Sample.choice seq clock g).1 ∈ seq.
Proof.
  intros Hne. unfold Sample.choice, Sample.randbelow, Sample.draw, mbind,
    Sample.G_bind, mret, Sample.G_ret. simpl.
  destruct (seq !! _) as [x|] eqn:E.
  - by apply list_elem_of_lookup_2 in E.
  - apply lookup_ge_None in E.
    assert (Sample.tape g (Sample.pos g) mod length seq < length seq);
      [|lia].
    apply Nat.mod_upper_bound. by destruct seq.
Qed.

Lemma shuffle_orders (a b c : string) clock (g : Sample.source) :
  (Sample.shuffle [a; b; c] clock g).1 ∈ orders3 a b c.
Proof.
  unfold Sample.shuffle. change (length [a; b; c] - 1) with 2.
  unfold Sample.shuffle_from, Sample.randbelow, Sample.draw, mbind,
    Sample.G_bind, mret, Sample.G_ret.
  cbn [fst snd Sample.tape Sample.pos Sample.ticks].
  pose proof (Nat.mod_upper_bound (Sample.tape g (Sample.pos g)) 3
                ltac:(lia)) as H1.
  pose proof (Nat.mod_upper_bound (Sample.tape g (S (Sample.pos g))) 2
                ltac:(lia)) as H2.
  destruct (Sample.tape g (Sample.pos g) mod 3) as [|[|[|]]]; [..|lia];
    destruct (Sample.tape g (S (Sample.pos g)) mod 2) as [|[|]]; try lia;
    unfold orders3, Sample.swap; cbn; in_list.
Qed.

Lemma auth_line_all_ok :
  forallb (λ v1, forallb (λ v2, forallb (λ v3,
    forallb (auth_line_ok v1 v2 v3) SENDER_DOMAINS)
    RESULT_VALUES) RESULT_VALUES) RESULT_VALUES = true.
Proof. vm_compute. reflexivity. Qed.

Lemma forallb_elem_of {A} (f : A → bool) (l : list A) (x : A) :
  forallb f l = true → x ∈ l → f x = true.
Proof.
  intros H Hx. induction Hx as [x l | x y l _ IH]; simpl in H;
    apply andb_prop in H as [H1 H2]; auto.
Qed.

Lemma auth_line_checked (v1 v2 v3 domain : string) :
  v1 ∈ RESULT_VALUES → v2 ∈ RESULT_VALUES → v3 ∈ RESULT_VALUES →
  domain ∈ SENDER_DOMAINS →
  auth_line_ok v1 v2 v3 domain = true.
Proof.
  intros H1 H2 H3 Hd. pose proof auth_line_all_ok as H.
  apply (forallb_elem_of _ _ v1) in H; [|done].
  apply (forallb_elem_of _ _ v2) in H; [|done].
  apply (forallb_elem_of _ _ v3) in H; [|done].
  by apply (forallb_elem_of _ _ domain) in H.
Qed.

Lemma join_cons (sep x : string) (l : list string) :
  l ≠ [] → Str.join sep (x :: l) = x +:+ sep +:+ Str.join sep l.
Proof. by destruct l. Qed.

Lemma splitlines_line (l rest : string) :
  no_linebreak l →
  Str.splitlines (l +:+ Sample.nl +:+ rest) = l :: Str.splitlines rest.
Proof.
  intros Hl. unfold Str.splitlines.
  rewrite splitlines_from_prefix, app_empty_l by done.
  change (Sample.nl +:+ rest) with (String "010" rest).
  apply splitlines_from_break; [done|]. intros [H _]. discriminate H.
Qed.

Lemma splitlines_single (l : string) :
  no_linebreak l → l ≠ "" → Str.splitlines l = [l].
Proof.
  intros Hl Hne. unfold Str.splitlines. rewrite <- (app_empty_r l) at 1.
  rewrite splitlines_from_prefix, app_empty_l by done. by destruct l.
Qed.

Lemma not_candidate_head (c : ascii) (s : string) :
  Char.lower c ≠ "a"%char → ¬ candidate (String c s).
Proof.
  intros Hc [H | H]; apply ci_prefix_startswith in H;
    apply startswith_prefix in H as [r Hr]; unfold Str.lower in Hr;
    cbn [Str.map] in Hr; rewrite app_cons in Hr; by injection Hr.
Qed.

(** The candidate lines of a generated block start with its
    Authentication-Results line. *)
Lemma header_lines_generated (received : list string)
    (a : string) (tail : list string) :
  Forall received_entry received →
  no_linebreak a → a ≠ "" → candidate a →
  ∃ more,
    header_lines (Str.join Sample.nl (received ++ a :: tail)) = a :: more.
Proof.
  intros Hrec Ha Hne Hcand.
  induction Hrec as [|e received (x & y & -> & Hx & Hy) _ IH].
  - rewrite app_nil_l, header_lines_filter. destruct tail as [|t tail].
    + exists []. simpl. by rewrite splitlines_single, filter_cons_True.
    + rewrite join_cons, splitlines_line, filter_cons_True by done.
      by eexists.
  - destruct IH as [more IH]. exists more.
    rewrite <- app_comm_cons, join_cons by (by destruct received).
    rewrite header_lines_filter, !app_assoc_s.
    rewrite <- (app_assoc_s "Received: from " x), splitlines_line.
    2:{ unfold no_linebreak in *. by rewrite all_app, Hx. }
    rewrite <- (app_assoc_s " by " y), splitlines_line.
    2:{ unfold no_linebreak in *. by rewrite all_app, Hy. }
    rewrite !filter_cons, !decide_False, <- header_lines_filter; [done|..].
    + by apply not_candidate_head.
    + by apply not_candidate_head.
Qed.

(** The verdict of a block built like the generated ones. *)
Lemma generated_block_verdict (received tail : list string)
    (v1 v2 v3 domain : string) :
  Forall received_entry received →
  v1 ∈ RESULT_VALUES → v2 ∈ RESULT_VALUES → v3 ∈ RESULT_VALUES →
  domain ∈ SENDER_DOMAINS →
  auth_verdict_from_headers
    (Str.join Sample.nl
       (received ++ Sample.auth_line v1 v2 v3 domain :: tail))
  = Verdict (Some v1) (Some v2) (Some v3)
      (if decide (v1 = "pass" ∧ v2 = "pass" ∧ v3 = "pass")
       then "pass" else "fail").
Proof.
  intros Hrec H1 H2 H3 Hd.
  pose proof (auth_line_checked v1 v2 v3 domain H1 H2 H3 Hd) as Hok.
  unfold auth_line_ok in Hok. cbv zeta in Hok.
  apply andb_prop in Hok as [[Hnl Hpre]%andb_prop Hsig].
  apply bool_decide_eq_true in Hsig.
  set (a := Sample.auth_line v1 v2 v3 domain) in *.
  destruct (header_lines_generated received a tail Hrec Hnl) as [more Hl].
  { by destruct a. }
  { left. by apply ci_prefix_startswith. }
  unfold auth_verdict_from_headers. rewrite Hl.
  assert (extract (a :: more) !! "spf" = Some v1
          ∧ extract (a :: more) !! "dkim" = Some v2
          ∧ extract (a :: more) !! "dmarc" = Some v3) as (Hf1 & Hf2 & Hf3).
  { by rewrite !extract_first_result, signals_cons, Hsig,
      !first_result_app_cases. }
  unfold resolve. rewrite Hf1, Hf2, Hf3. simpl.
  destruct (String.eqb_spec v1 GOOD_VALUE), (String.eqb_spec v2 GOOD_VALUE),
    (String.eqb_spec v3 GOOD_VALUE); simpl; unfold GOOD_VALUE in *;
    subst; try (rewrite decide_False by (intros (? & ? & ?); done));
    done.
Qed.

Lemma draw_results_drawn (pass_triplet : bool) clock (g : Sample.source) :
  let '(a, b, c) := (Sample.draw_results pass_triplet clock g).1 in
  a ∈ RESULT_VALUES ∧ b ∈ RESULT_VALUES ∧ c ∈ RESULT_VALUES
  ∧ if pass_triplet then a = "pass" ∧ b = "pass" ∧ c = "pass"
    else ∃ x, x ∈ [a; b; c] ∧ x ∈ Sample.FAIL_FLAVORS.
Proof.
  unfold Sample.draw_results. destruct pass_triplet.
  - simpl. repeat split; unfold RESULT_VALUES; in_list.
  - unfold mbind, Sample.G_bind.
    pose proof (choice_elem_of Sample.FAIL_FLAVORS clock g ltac:(done))
      as H1.
    destruct (Sample.choice Sample.FAIL_FLAVORS clock g) as [v1 g1].
    pose proof (choice_elem_of ("pass" :: Sample.FAIL_FLAVORS) clock g1
                  ltac:(done)) as H2.
    destruct (Sample.choice ("pass" :: Sample.FAIL_FLAVORS) clock g1)
      as [v2 g2].
    pose proof (choice_elem_of ("pass" :: Sample.FAIL_FLAVORS) clock g2
                  ltac:(done)) as H3.
    destruct (Sample.choice ("pass" :: Sample.FAIL_FLAVORS) clock g2)
      as [v3 g3].
    pose proof (shuffle_orders v1 v2 v3 clock g3) as Hs.
    destruct (Sample.shuffle [v1; v2; v3] clock g3) as [vals g4].
    cbn [fst] in *. fold RESULT_VALUES in H2, H3.
    assert (v1 ∈ RESULT_VALUES) as H1' by (by apply list_elem_of_further).
    unfold orders3 in Hs. unfold mret, Sample.G_ret.
    list_cases Hs; subst vals; cbn [Sample.unpack3 fst];
      (split; [done|]; split; [done|]; split; [done|]);
      exists v1; (split; [in_list | done]).
Qed.

Lemma make_auth_results_drawn (pass_triplet legit_sender : bool)
    clock (g : Sample.source) :
  ∃ v1 v2 v3 domain,
    (Sample.make_auth_results pass_triplet legit_sender clock g).1
    = (Sample.auth_line v1 v2 v3 domain, domain)
    ∧ v1 ∈ RESULT_VALUES ∧ v2 ∈ RESULT_VALUES ∧ v3 ∈ RESULT_VALUES
    ∧ domain ∈ SENDER_DOMAINS
    ∧ if pass_triplet then v1 = "pass" ∧ v2 = "pass" ∧ v3 = "pass"
      else ∃ x, x ∈ [v1; v2; v3] ∧ x ∈ Sample.FAIL_FLAVORS.
Proof.
  unfold Sample.make_auth_results, mbind, Sample.G_bind.
  pose proof (draw_results_drawn pass_triplet clock g) as Hr.
  destruct (Sample.draw_results pass_triplet clock g) as [[[v1 v2] v3] g1].
  cbn [fst] in Hr. destruct Hr as (H1 & H2 & H3 & Hp).
  set (doms := if legit_sender then Sample.SENDER_DOMAINS_TRUSTY
               else Sample.SENDER_DOMAINS_SUSPICIOUS).
  pose proof (choice_elem_of doms clock g1
                ltac:(unfold doms; by destruct legit_sender)) as Hd.
  destruct (Sample.choice doms clock g1) as [domain g2].
  cbn [fst] in *. exists v1, v2, v3, domain.
  split; [done|]. repeat (split; [done|]). split; [|done].
  unfold SENDER_DOMAINS, doms in *. apply elem_of_app.
  destruct legit_sender; auto.
Qed.

(** A generated block: the Received chain, the Authentication-Results
    line with the drawn results, then other headers. *)
Lemma generate_headers_shape clock (g : Sample.source) :
  (∀ n, no_linebreak (clock n)) →
  ∃ received v1 v2 v3 domain tail is_pass,
    (Sample.generate_headers clock g).1
    = (Str.join Sample.nl
         (received ++ Sample.auth_line v1 v2 v3 domain :: tail), is_pass)
    ∧ Forall received_entry received
    ∧ v1 ∈ RESULT_VALUES ∧ v2 ∈ RESULT_VALUES ∧ v3 ∈ RESULT_VALUES
    ∧ domain ∈ SENDER_DOMAINS
    ∧ if is_pass then v1 = "pass" ∧ v2 = "pass" ∧ v3 = "pass"
      else ∃ x, x ∈ [v1; v2; v3] ∧ x ∈ Sample.FAIL_FLAVORS.
Proof.
  intros Hclock. unfold Sample.generate_headers, mbind, Sample.G_bind.
  destruct (Sample.bernoulli clock g) as [is_pass g1].
  destruct ((if is_pass then mret true else Sample.bernoulli) clock g1)
    as [legit g2].
  destruct (Sample.randint 3 5 clock g2) as [hops g3].
  pose proof (make_received_chain_entries hops clock g3 Hclock) as Hrec.
  destruct (Sample.make_received_chain hops clock g3) as [received g4].
  destruct (make_auth_results_drawn is_pass legit clock g4)
    as (v1 & v2 & v3 & domain & Ha & H1 & H2 & H3 & Hd & Hp).
  destruct (Sample.make_auth_results is_pass legit clock g4)
    as [[line dom] g5].
  cbn [fst] in Ha, Hrec. injection Ha as -> ->.
  unfold mret, Sample.G_ret.
  repeat match goal with
         | |- context [?m clock ?g'] => destruct (m clock g') as [? ?]
         end.
  cbn [fst].
  by eexists received, v1, v2, v3, domain, _, is_pass.
Qed.

(** X13. When the triplet is not to pass, the three results the
    generator draws are never all pass: at least one is a failure
    flavour, whatever the draws. *)
Theorem drawn_results_not_all_pass clock (g : Sample.source) :
  let '(spf, dkim, dmarc) := (Sample.draw_results false clock g).1 in
  (spf ≠ "pass" ∨ dkim ≠ "pass" ∨ dmarc ≠ "pass")
  ∧ Forall (λ v, v ∈ "pass" :: Sample.FAIL_FLAVORS) [spf; dkim; dmarc].
Proof.
  pose proof (draw_results_drawn false clock g) as H.
  destruct (Sample.draw_results false clock g) as [[[a b] c] g'].
  cbn [fst] in *. destruct H as (H1 & H2 & H3 & x & Hx & Hf).
  split; [|by repeat (apply Forall_cons_2; [done|])].
  assert (x ≠ "pass") as Hne
    by (intros ->; unfold Sample.FAIL_FLAVORS in Hf; by list_cases Hf).
  list_cases Hx; subst x; auto.
Qed.

(** X14. The label the generator returns with a header block agrees with
    the verdict of the service on that block: the verdict is pass when
    the label is true and fail when it is false, never unknown, and each
    of the three results is present and is pass or a failure flavour;
    this holds for all draws when the clock text has no line boundary. *)
Theorem generated_label_is_verdict clock (g : Sample.source) :
  (∀ n, no_linebreak (clock n)) →
  let '(hdrs, is_pass) := (Sample.generate_headers clock g).1 in
  let v := auth_verdict_from_headers hdrs in
  overall v = (if is_pass then "pass" else "fail")
  ∧ Forall (λ r, ∃ a, r = Some a ∧ a ∈ "pass" :: Sample.FAIL_FLAVORS)
      [spf v; dkim v; dmarc v].
Proof.
  intros Hclock.
  destruct (generate_headers_shape clock g Hclock)
    as (received & v1 & v2 & v3 & domain & tail & is_pass & -> & Hrec
        & H1 & H2 & H3 & Hd & Hp).
  cbv zeta. rewrite generated_block_verdict by done. simpl.
  split; [|by repeat (apply Forall_cons_2; [by eexists|])].
  destruct is_pass.
  - destruct Hp as (-> & -> & ->). by rewrite decide_True.
  - destruct Hp as (x & Hx & Hf). rewrite decide_False; [done|].
    intros (-> & -> & ->).
    assert (x = "pass") as -> by (by list_cases Hx).
    unfold Sample.FAIL_FLAVORS in Hf. by list_cases Hf.
Qed.

(** A run of the generator. *)
Lemma generated_label_is_verdict_witness :
  overall (auth_verdict_from_headers
             (Sample.generate_headers sample_clock sample_source).1.1)
  = "fail".
Proof.
  pose proof (generated_label_is_verdict sample_clock sample_source) as H.
  assert ((Sample.generate_headers sample_clock sample_source).1.2 = false)
    as Hlabel by (vm_compute; reflexivity).
  destruct (Sample.generate_headers sample_clock sample_source).1
    as [hdrs is_pass].
  cbn [fst snd] in *. subst is_pass. apply H.
  intros n. unfold sample_clock, no_linebreak.
  rewrite !all_app. by rewrite str_no_linebreak.
Defined.

(** X15. A ticket that carries a generated header block is answered by
    Submit with the status the generator's label announces, pass or fail,
    when the analyzer call succeeds, and with analyzer_error when it
    fails. *)
Theorem generated_ticket_status
    clock (g : Sample.source) (t : TicketIn) (e : env) (w : world) :
  (∀ n, no_linebreak (clock n)) →
  headers t = (Sample.generate_headers clock g).1.1 →
  status (create_ticket t e w).1
  = if decide (gateway_failed (analyzer e (calls w))) then "analyzer_error"
    else if (Sample.generate_headers clock g).1.2 then "pass" else "fail".
Proof.
  intros Hclock Hh. rewrite create_ticket_run. cbn [fst status].
  unfold terminal_status. case_decide; [done|]. rewrite Hh.
  destruct (generate_headers_shape clock g Hclock)
    as (received & v1 & v2 & v3 & domain & tail & is_pass & -> & Hrec
        & H1 & H2 & H3 & Hd & Hp).
  cbn [fst snd]. rewrite generated_block_verdict by done. simpl.
  destruct is_pass.
  - destruct Hp as (-> & -> & ->). by rewrite decide_True.
  - destruct Hp as (x & Hx & Hf). rewrite decide_False; [done|].
    intros (-> & -> & ->).
    assert (x = "pass") as -> by (by list_cases Hx).
    unfold Sample.FAIL_FLAVORS in Hf. by list_cases Hf.
Qed.

(** A generated ticket and an analyzer that answers. *)
Lemma generated_ticket_status_witness :
  status (create_ticket generated_ticket answering_env empty_world).1
  = "fail".
Proof.
  rewrite (generated_ticket_status sample_clock sample_source);
    [by vm_compute | | reflexivity].
  intros n. unfold sample_clock, no_linebreak.
  rewrite !all_app. by rewrite str_no_linebreak.
Defined.

Lemma received_loop_chain (hops : nat) (lines : list string) (src : string)
    clock (g : Sample.source) :
  ∃ chain,
    (Sample.received_loop hops lines src clock g).1 = lines ++ chain
    ∧ length chain = hops ∧ chained src chain.
Proof.
  revert lines src g. induction hops as [|hops IH]; intros lines src g.
  - exists []. by rewrite app_nil_r.
  - rewrite received_loop_step.
    destruct (Sample.host clock g) as [dst g1].
    destruct (Sample.rand_ipv6 clock g1) as [ip1 g2].
    destruct (Sample.rand_ipv6 clock g2) as [ip2 g3].
    edestruct IH as (chain & -> & Hlen & Hchain).
    eexists (_ :: chain). rewrite <- app_assoc. split; [done|].
    split; [by rewrite length_cons, Hlen|].
    by exists dst, ip1, ip2, (clock (Sample.ticks g3)).
Qed.

Lemma received_entry_lines (e : string) :
  received_entry e →
  length (Str.splitlines e) = 2 ∧ header_lines e = [].
Proof.
  intros (x & y & -> & Hx & Hy).
  assert (Str.splitlines
            ("Received: from " +:+ x +:+ Sample.nl +:+ " by " +:+ y)
          = ["Received: from " +:+ x; " by " +:+ y]) as Hl.
  { rewrite <- (app_assoc_s "Received: from " x), splitlines_line.
    - rewrite splitlines_single; [done| |done].
      unfold no_linebreak in *. by rewrite all_app, Hy.
    - unfold no_linebreak in *. by rewrite all_app, Hx. }
  rewrite header_lines_filter, Hl. split; [done|].
  rewrite !filter_cons, !decide_False; [done|..];
    by apply not_candidate_head.
Qed.

(** X16. The Received chain has one entry per hop; every entry names
    after [from] the host that the entry before it names after [by];
    every entry is two lines of text, and none of its lines is one that
    the header scanner keeps. *)
Theorem received_chain_hops (hops : nat) clock (g : Sample.source) :
  (∀ n, no_linebreak (clock n)) →
  let chain := (Sample.make_received_chain hops clock g).1 in
  length chain = hops
  ∧ (∃ src, chained src chain)
  ∧ Forall (λ e, length (Str.splitlines e) = 2 ∧ header_lines e = []) chain.
Proof.
  intros Hclock chain.
  pose proof (make_received_chain_entries hops clock g Hclock) as Hent.
  fold chain in Hent. unfold chain in *. clear chain.
  unfold Sample.make_received_chain, mbind, Sample.G_bind in *.
  destruct (Sample.host clock g) as [src g1].
  destruct (received_loop_chain hops [] src clock g1)
    as (chain & Hc & Hlen & Hchain).
  rewrite Hc in *. rewrite app_nil_l in *.
  split; [done|]. split; [by exists src|].
  eapply Forall_impl; [exact Hent|]. apply received_entry_lines.
Qed.

(** A chain of four hops. *)
Lemma received_chain_hops_witness :
  length (Sample.make_received_chain 4 sample_clock sample_source).1 = 4.
Proof.
  apply (received_chain_hops 4 sample_clock sample_source).
  intros n. unfold sample_clock, no_linebreak.
  rewrite !all_app. by rewrite str_no_linebreak.
Defined.

Lemma choices_length (population : string) (k : nat)
    clock (g : Sample.source) :
  String.length (Sample.choices population k clock g).1 = k.
Proof.
  revert g. induction k as [|k IH]; intros g; [done|].
  simpl. unfold mbind, Sample.G_bind, mret, Sample.G_ret. simpl.
  specialize (IH {| Sample.tape := Sample.tape g;
                    Sample.pos := S (Sample.pos g);
                    Sample.ticks := Sample.ticks g |}).
  destruct (Sample.choices population k clock _) as [rest g1].
  simpl in *. by rewrite IH.
Qed.

Lemma choices_word (p : ascii → bool) (population : string) (k : nat)
    clock (g : Sample.source) :
  Str.all p population = true → 0 < String.length population →
  word_of p k (Sample.choices population k clock g).1.
Proof.
  intros Hp Hlen. split; [apply choices_length | by apply choices_all].
Qed.

Lemma times_length {A} (m : Sample.G A) (n : nat) clock g :
  length (Sample.times n m clock g).1 = n.
Proof.
  revert g. induction n as [|n IH]; intros g; [done|].
  simpl. unfold mbind, Sample.G_bind, mret, Sample.G_ret.
  destruct (m clock g) as [x g1].
  specialize (IH g1). destruct (Sample.times n m clock g1) as [xs g2].
  simpl in *. by rewrite IH.
Qed.

(** X17. The random texts have the announced shape for every outcome of
    the draws: [rand_id(n)] is [n] ASCII letters or digits,
    [rand_local(n)] is [n] lowercase letters, and [rand_ipv6()] is eight
    groups of four hexadecimal digits joined by colons, 39 characters in
    all. *)
Theorem random_text_shape (n : nat) clock (g : Sample.source) :
  word_of ascii_alnum n (Sample.rand_id n clock g).1
  ∧ word_of Char.is_lower n (Sample.rand_local n clock g).1
  ∧ (∃ groups,
       (Sample.rand_ipv6 clock g).1 = Str.join ":" groups
       ∧ length groups = 8
       ∧ Forall (word_of hex_digit 4) groups)
  ∧ String.length (Sample.rand_ipv6 clock g).1 = 39.
Proof.
  split; [apply choices_word; [done | simpl; lia]|].
  split; [apply choices_word; [done | simpl; lia]|].
  unfold Sample.rand_ipv6, mbind, Sample.G_bind, mret, Sample.G_ret.
  pose proof (times_Forall (word_of hex_digit 4)
                (Sample.choices "0123456789abcdef" 4) 8 clock g) as H.
  pose proof (times_length (Sample.choices "0123456789abcdef" 4) 8 clock g)
    as Hlen.
  destruct (Sample.times 8 _ clock g) as [groups g1]. cbn [fst] in *.
  assert (Forall (word_of hex_digit 4) groups) as Hall.
  { apply H. intros g0. apply choices_word; [done | simpl; lia]. }
  split; [by exists groups|].
  do 9 (destruct groups as [|? groups]; try discriminate Hlen).
  repeat match goal with
         | H : Forall _ (_ :: _) |- _ =>
             apply Forall_cons in H as [[? _] H]
         end.
  unfold Str.join. cbn [String.concat]. rewrite !length_app_s.
  simpl. lia.
Qed.

(** * Requests that overlap *)

(** ** One handler *)

(** What a step does, stage by stage. *)
Lemma advance_insert (t : TicketIn) (e : env) (w : world) :
  advance t AtInsert e w
  = (AtCommit,
     {| tickets := <[next_rowid w := queued_row e t]> (tickets w);
        sqlite_sequence := next_rowid w; lastrowid := next_rowid w;
        calls := calls w;
        log := log w ++ [EvInsert (next_rowid w) (queued_row e t)] |}).
Proof. reflexivity. Qed.

Lemma advance_update (t : TicketIn) (id : Z) (o : post_outcome)
    (e : env) (w : world) :
  let v := auth_verdict_from_headers (headers t) in
  let st := terminal_status o v in
  let res := Some (merged_result o v) in
  advance t (AtUpdate id o) e w
  = (AtLastCommit {| ticket_id := id; status := st |},
     {| tickets := alter (set_outcome st res) id (tickets w);
        sqlite_sequence := sqlite_sequence w; lastrowid := lastrowid w;
        calls := calls w;
        log := log w ++ [EvUpdate id st res] |}).
Proof. destruct o; reflexivity. Qed.

(** A handler that makes its six steps without a step of another handler
    in between does what [create_ticket] does as a whole. *)
Lemma advance_whole (t : TicketIn) (e : env) (w : world) :
  (s1 ← advance t AtInsert; s2 ← advance t s1; s3 ← advance t s2;
   s4 ← advance t s3; s5 ← advance t s4; advance t s5) e w
  = (Returned (create_ticket t e w).1, (create_ticket t e w).2).
Proof.
  rewrite create_ticket_run. cbv zeta. unfold terminal_status, queued_row.
  unfold mbind, M_bind, advance, mret, M_ret, ask, execute_insert, commit,
    emit, cur_lastrowid, client_post, execute_update; simpl.
  destruct (analyzer e (calls w)); simpl;
    unfold mbind, M_bind, mret, M_ret; simpl;
    rewrite alter_insert_eq, <- !app_assoc; reflexivity.
Qed.

Lemma step_at (i : nat) (p : list handler) (w : world) (h : handler) :
  p !! i = Some h →
  step i (p, w)
  = (<[i := {| h_ticket := h_ticket h; h_env := h_env h;
               h_stage := (advance (h_ticket h) (h_stage h) (h_env h) w).1 |}]>
       p,
     (advance (h_ticket h) (h_stage h) (h_env h) w).2).
Proof.
  intros H. unfold step. cbn [fst snd]. rewrite H.
  by destruct (advance (h_ticket h) (h_stage h) (h_env h) w).
Qed.

Lemma step_beyond (i : nat) (p : list handler) (w : world) :
  p !! i = None → step i (p, w) = (p, w).
Proof. intros H. unfold step. cbn [fst snd]. by rewrite H. Qed.

Lemma run_app (s1 s2 : list nat) (pw : pool) :
  run (s1 ++ s2) pw = run s2 (run s1 pw).
Proof. apply foldl_app. Qed.

Lemma run_snoc (s : list nat) (i : nat) (pw : pool) :
  run (s ++ [i]) pw = step i (run s pw).
Proof. by rewrite run_app. Qed.

(** The whole run of one handler in the pool. *)
Lemma run_whole (i : nat) (p : list handler) (w : world)
    (t : TicketIn) (e : env) :
  p !! i = Some {| h_ticket := t; h_env := e; h_stage := AtInsert |} →
  run (whole i) (p, w)
  = (<[i := {| h_ticket := t; h_env := e;
               h_stage := Returned (create_ticket t e w).1 |}]> p,
     (create_ticket t e w).2).
Proof.
  intros H. pose proof (lookup_lt_Some _ _ _ H) as Hi.
  pose proof (advance_whole t e w) as Hw.
  unfold mbind, M_bind in Hw.
  unfold whole, run. cbn [replicate foldl].
  rewrite (step_at i p w _ H). cbn [h_ticket h_env h_stage].
  destruct (advance t AtInsert e w) as [s1 w1]. cbn [fst snd].
  erewrite step_at by (apply list_lookup_insert_eq; done).
  cbn [h_ticket h_env h_stage]. rewrite list_insert_insert_eq.
  destruct (advance t s1 e w1) as [s2 w2]. cbn [fst snd].
  erewrite step_at by (apply list_lookup_insert_eq; done).
  cbn [h_ticket h_env h_stage]. rewrite list_insert_insert_eq.
  destruct (advance t s2 e w2) as [s3 w3]. cbn [fst snd].
  erewrite step_at by (apply list_lookup_insert_eq; done).
  cbn [h_ticket h_env h_stage]. rewrite list_insert_insert_eq.
  destruct (advance t s3 e w3) as [s4 w4]. cbn [fst snd].
  erewrite step_at by (apply list_lookup_insert_eq; done).
  cbn [h_ticket h_env h_stage]. rewrite list_insert_insert_eq.
  destruct (advance t s4 e w4) as [s5 w5]. cbn [fst snd].
  erewrite step_at by (apply list_lookup_insert_eq; done).
  cbn [h_ticket h_env h_stage]. rewrite list_insert_insert_eq.
  by rewrite Hw.
Qed.

(** ** Two submissions that overlap *)

(** C2, on two submissions that overlap.  The analyzer call of the first
    request times out and the request is answered analyzer_error, with
    the id of the record of the second request; the record the first
    request created stays queued without a result, and at the end no
    record holds analyzer_error or the error: the failure and the
    verdict of the first request are stored nowhere. *)
Theorem overlap_loses_failure :
  let pw := run overtaken (arrive two_requests, empty_world) in
  stage_of pw 0
  = Some (Returned {| ticket_id := 2; status := "analyzer_error" |})
  ∧ stage_of pw 1 = Some (Returned {| ticket_id := 2; status := "pass" |})
  ∧ size (tickets pw.2) = 2
  ∧ tickets pw.2 !! 1%Z = Some (queued_row unreachable_env sample_ticket)
  ∧ tickets pw.2 !! 2%Z
    = Some (set_outcome "pass"
              (Some (merged_result (Success "<html>ok</html>")
                       (auth_verdict_from_headers (headers other_ticket))))
              (queued_row answering_env other_ticket)).
Proof. vm_compute. by repeat split. Qed.

(** C3, on two submissions that overlap.  The analyzer answers the second
    request, which is answered pass; the call of the first request fails
    afterwards, and its terminal write goes to the record of the second
    request, whose status becomes analyzer_error although its call
    succeeded; the record of the first request keeps the status queued
    after both requests have returned. *)
Theorem overlap_status_of_other_call :
  let pw := run overtaken_late (arrive two_requests, empty_world) in
  (∀ n, ¬ gateway_failed (analyzer answering_env n))
  ∧ stage_of pw 1 = Some (Returned {| ticket_id := 2; status := "pass" |})
  ∧ stage_of pw 0
    = Some (Returned {| ticket_id := 2; status := "analyzer_error" |})
  ∧ (row_reporter <$> tickets pw.2 !! 2%Z) = Some (reporter other_ticket)
  ∧ (row_analyzer_status <$> tickets pw.2 !! 2%Z) = Some "analyzer_error"
  ∧ (row_reporter <$> tickets pw.2 !! 1%Z) = Some (reporter sample_ticket)
  ∧ (row_analyzer_status <$> tickets pw.2 !! 1%Z) = Some "queued".
Proof. split; [by intros n H|]. vm_compute. by repeat split. Qed.

(** C6, on two submissions that overlap.  Each of the two requests makes
    one outbound call and two writes, but the update of the first request
    is not made on the record it inserted: the record of the second
    request is written three times, inserted once and updated twice, and
    the record of the first request once. *)
Theorem overlap_third_write :
  let pw := run overtaken (arrive two_requests, empty_world) in
  Forall (λ h, ∃ out, h_stage h = Returned out) pw.1
  ∧ length (filter is_post (log pw.2)) = 2
  ∧ length (filter is_write (log pw.2)) = 4
  ∧ length (filter (writes_to 1) (log pw.2)) = 1
  ∧ length (filter (writes_to 2) (log pw.2)) = 3
  ∧ filter (writes_to 2) (log pw.2)
    = [EvInsert 2 (queued_row answering_env other_ticket);
       EvUpdate 2 "analyzer_error"
         (Some (merged_result (TransportError "timed out")
                  (auth_verdict_from_headers (headers sample_ticket))));
       EvUpdate 2 "pass"
         (Some (merged_result (Success "<html>ok</html>")
                  (auth_verdict_from_headers (headers other_ticket))))].
Proof.
  vm_compute. split; [|by repeat split].
  repeat constructor; by eexists.
Qed.

(** ** Any schedule *)

Lemma advance_commit (t : TicketIn) (e : env) (w : world) :
  advance t AtCommit e w
  = (AtLastrowid,
     {| tickets := tickets w; sqlite_sequence := sqlite_sequence w;
        lastrowid := lastrowid w; calls := calls w;
        log := log w ++ [EvCommit] |}).
Proof. reflexivity. Qed.

Lemma advance_lastrowid (t : TicketIn) (e : env) (w : world) :
  advance t AtLastrowid e w = (AtPost (lastrowid w), w).
Proof. reflexivity. Qed.

Lemma advance_post (t : TicketIn) (id : Z) (e : env) (w : world) :
  advance t (AtPost id) e w
  = (AtUpdate id (analyzer e (calls w)),
     {| tickets := tickets w; sqlite_sequence := sqlite_sequence w;
        lastrowid := lastrowid w; calls := S (calls w);
        log := log w ++ [EvPost (ANALYZER_FORM_URL e)
                           [("headers", headers t)]] |}).
Proof. reflexivity. Qed.

Lemma advance_last_commit (t : TicketIn) (out : TicketOut)
    (e : env) (w : world) :
  advance t (AtLastCommit out) e w
  = (Returned out,
     {| tickets := tickets w; sqlite_sequence := sqlite_sequence w;
        lastrowid := lastrowid w; calls := calls w;
        log := log w ++ [EvCommit] |}).
Proof. reflexivity. Qed.

Lemma advance_returned (t : TicketIn) (out : TicketOut)
    (e : env) (w : world) :
  advance t (Returned out) e w = (Returned out, w).
Proof. reflexivity. Qed.

Lemma count_insert (P : stage → bool) (p : list handler) (i : nat)
    (h h' : handler) :
  p !! i = Some h →
  count P (<[i := h']> p) + Nat.b2n (P (h_stage h))
  = count P p + Nat.b2n (P (h_stage h')).
Proof.
  unfold count. revert i. induction p as [|x p IH]; intros i Hi; [done|].
  destruct i as [|i]; simpl in *.
  - simplify_eq. destruct (P (h_stage h)), (P (h_stage h')); simpl; lia.
  - specialize (IH i Hi). destruct (P (h_stage x)); simpl; lia.
Qed.

Lemma count_arrive (P : stage → bool) (rs : list (TicketIn * env)) :
  P AtInsert = false → count P (arrive rs) = 0.
Proof.
  intros HP. unfold count, arrive.
  induction rs as [|r rs IH]; [done|]. simpl. by rewrite HP.
Qed.

Lemma count_positive (P : stage → bool) (p : list handler) (i : nat)
    (h : handler) :
  p !! i = Some h → P (h_stage h) = true → 1 ≤ count P p.
Proof.
  unfold count. revert i. induction p as [|x p IH]; intros i Hi HP; [done|].
  destruct i as [|i]; simpl in *.
  - simplify_eq. rewrite HP. simpl. lia.
  - specialize (IH i Hi HP). destruct (P (h_stage x)); simpl; lia.
Qed.

Lemma length_filter_snoc (P : event → bool) (l : list event) (ev : event) :
  length (filter P (l ++ [ev])) = length (filter P l) + Nat.b2n (P ev).
Proof.
  rewrite filter_app, length_app. f_equal.
  rewrite filter_cons. by destruct (P ev).
Qed.

Lemma max_rowid_le (t : gmap Z ticket_row) (b : Z) :
  (0 ≤ b)%Z → (∀ k, is_Some (t !! k) → (k ≤ b)%Z) → (max_rowid t ≤ b)%Z.
Proof.
  intros Hb. unfold max_rowid.
  apply (map_fold_weak_ind
           (λ (r : Z) (m : gmap Z ticket_row),
              (∀ k, is_Some (m !! k) → (k ≤ b)%Z) → (r ≤ b)%Z)).
  - by intros _.
  - intros i x m r Hi IHm Hk.
    assert (i ≤ b)%Z by (apply Hk; rewrite lookup_insert_eq; by eexists).
    assert (r ≤ b)%Z; [|lia].
    apply IHm. intros k Hk'. apply Hk.
    destruct (decide (i = k)) as [-> | Hne];
      [rewrite lookup_insert_eq; by eexists|].
    by rewrite lookup_insert_ne.
Qed.

Lemma alter_row (f : ticket_row → ticket_row) (id : Z)
    (m : gmap Z ticket_row) (r : ticket_row) :
  m !! id = Some r → alter f id m = <[id := f r]> m.
Proof.
  intros H. apply map_eq. intros k.
  destruct (decide (id = k)) as [<- | Hne].
  - by rewrite lookup_alter_eq, lookup_insert_eq, H.
  - by rewrite lookup_alter_ne, lookup_insert_ne.
Qed.

Lemma terminal_status_submit (o : post_outcome) (raw_headers : string) :
  terminal_status o (auth_verdict_from_headers raw_headers)
  ∈ submit_statuses.
Proof.
  unfold terminal_status, submit_statuses. case_decide; [in_list|].
  pose proof (resolve_overall_cases (extract (header_lines raw_headers)))
    as Hov.
  fold (auth_verdict_from_headers raw_headers) in Hov.
  list_cases Hov; rewrite Hov; in_list.
Qed.

Lemma merged_has_verdict (o : post_outcome) (v : verdict) :
  has_verdict (Some (merged_result o v)).
Proof. destruct o; simpl; by eexists [_], _. Qed.

Lemma coherent_start (rs : list (TicketIn * env)) :
  coherent (arrive rs, empty_world).
Proof.
  unfold coherent. cbn [fst snd tickets sqlite_sequence lastrowid calls log
                        empty_world].
  rewrite map_size_empty, !count_arrive by done.
  split; [done|]. split; [done|]. split.
  { intros k. rewrite lookup_empty. split; [by intros [] | lia]. }
  repeat (split; [done|]). split; [|apply map_Forall_empty].
  unfold arrive. apply Forall_fmap, Forall_forall. intros r _. simpl.
  split; [done|]. by intros out [|].
Qed.

Ltac world_fields :=
  cbn [fst snd tickets sqlite_sequence lastrowid calls log
       h_ticket h_env h_stage].

(** A step of any handler keeps the pool coherent. *)
Lemma coherent_step (i : nat) (pw : pool) :
  coherent pw → coherent (step i pw).
Proof.
  destruct pw as [p w]. intros Hc.
  destruct (p !! i) as [h|] eqn:Hi; [|by rewrite step_beyond].
  rewrite (step_at i p w h Hi).
  destruct Hc as (Hseq & Hlast & Hdom & Hins & Hcalls & Hposts & Hwrites
                  & Hheld & Hrows).
  world_fields. cbn [fst snd] in *. set (n := size (tickets w)) in *.
  pose proof (Forall_lookup_1 _ _ _ _ Hheld Hi) as [Hid Hst].
  assert (∀ P s',
            count P (<[i := {| h_ticket := h_ticket h; h_env := h_env h;
                               h_stage := s' |}]> p)
            + Nat.b2n (P (h_stage h))
            = count P p + Nat.b2n (P s')) as Hcount
    by (intros P s';
        apply (count_insert P p i h
                 {| h_ticket := h_ticket h; h_env := h_env h;
                    h_stage := s' |} Hi)).
  destruct h as [t e s]. world_fields. cbn [h_ticket h_env h_stage] in *.
  destruct s as [ | | |id|id o|out|out].
  - rewrite advance_insert. unfold coherent. world_fields.
    assert (next_rowid w = (Z.of_nat n + 1)%Z) as Hnext.
    { unfold next_rowid.
      pose proof (max_rowid_le (tickets w) (Z.of_nat n) ltac:(lia)) as Hmax.
      assert (max_rowid (tickets w) ≤ Z.of_nat n)%Z
        by (apply Hmax; intros k Hk; by apply Hdom).
      lia. }
    rewrite map_size_insert_None by apply next_rowid_fresh. fold n.
    pose proof (Hcount inserted AtCommit) as C1.
    pose proof (Hcount posted AtCommit) as C2.
    pose proof (Hcount updated AtCommit) as C3. simpl in C1, C2, C3.
    rewrite !length_filter_snoc. simpl. rewrite Hnext.
    split; [lia|]. split; [lia|]. split; [|split; [lia|]].
    2:{ split; [lia|]. split; [lia|]. split; [lia|]. split.
        - apply Forall_insert; [|simpl; split; [done | by intros out [|]]].
          eapply Forall_impl; [exact Hheld|]. intros h [H1 H2].
          split; [|done]. intros id Hh. specialize (H1 id Hh). lia.
        - apply map_Forall_insert_2; [by left | done]. }
    intros k. destruct (decide ((Z.of_nat n + 1)%Z = k)) as [<- | Hne].
    + rewrite lookup_insert_eq. split; [lia | by eexists].
    + rewrite lookup_insert_ne, Hdom by done. lia.
  - rewrite advance_commit. unfold coherent. world_fields. fold n.
    pose proof (Hcount inserted AtLastrowid) as C1.
    pose proof (Hcount posted AtLastrowid) as C2.
    pose proof (Hcount updated AtLastrowid) as C3. simpl in C1, C2, C3.
    rewrite !length_filter_snoc. simpl.
    repeat (split; [first [done | lia]|]). split; [|done].
    apply Forall_insert; [done|]. simpl. split; [done | by intros out [|]].
  - rewrite advance_lastrowid. unfold coherent. world_fields. fold n.
    pose proof (Hcount inserted (AtPost (lastrowid w))) as C1.
    pose proof (Hcount posted (AtPost (lastrowid w))) as C2.
    pose proof (Hcount updated (AtPost (lastrowid w))) as C3.
    simpl in C1, C2, C3.
    pose proof (count_positive inserted p i _ Hi eq_refl) as Hpos.
    repeat (split; [first [done | lia]|]). split; [|done].
    apply Forall_insert; [done|]. simpl. split; [|by intros out [|]].
    intros id [= <-]. lia.
  - rewrite advance_post. unfold coherent. world_fields. fold n.
    pose proof (Hcount inserted (AtUpdate id (analyzer e (calls w)))) as C1.
    pose proof (Hcount posted (AtUpdate id (analyzer e (calls w)))) as C2.
    pose proof (Hcount updated (AtUpdate id (analyzer e (calls w)))) as C3.
    simpl in C1, C2, C3.
    rewrite !length_filter_snoc. simpl.
    repeat (split; [first [done | lia]|]). split; [|done].
    apply Forall_insert; [done|]. simpl. split; [|by intros out [|]].
    intros id' [= <-]. by apply Hid.
  - rewrite advance_update. cbv zeta. unfold coherent. world_fields.
    assert (1 ≤ id ≤ Z.of_nat n)%Z as Hrange by (by apply Hid).
    apply Hdom in Hrange as [r Hr].
    rewrite (alter_row _ id _ r Hr).
    rewrite map_size_insert_Some by (by eexists). fold n.
    set (st := terminal_status o (auth_verdict_from_headers (headers t))).
    set (out := {| ticket_id := id; status := st |}).
    pose proof (Hcount inserted (AtLastCommit out)) as C1.
    pose proof (Hcount posted (AtLastCommit out)) as C2.
    pose proof (Hcount updated (AtLastCommit out)) as C3.
    simpl in C1, C2, C3.
    rewrite !length_filter_snoc. simpl.
    split; [lia|]. split; [lia|]. split; [|split; [lia|]].
    2:{ split; [lia|]. split; [lia|]. split; [lia|]. split.
        - apply Forall_insert; [done|]. simpl. split.
          + intros id' [= <-]. by apply Hid.
          + intros out' [[= <-] | [=]]. apply terminal_status_submit.
        - apply map_Forall_insert_2; [|done]. right. simpl. split.
          + apply terminal_status_submit.
          + apply merged_has_verdict. }
    intros k. destruct (decide (id = k)) as [<- | Hne].
    + rewrite lookup_insert_eq. split; [intros _ | by eexists].
      apply Hdom. by eexists.
    + by rewrite lookup_insert_ne, Hdom.
  - rewrite advance_last_commit. unfold coherent. world_fields. fold n.
    pose proof (Hcount inserted (Returned out)) as C1.
    pose proof (Hcount posted (Returned out)) as C2.
    pose proof (Hcount updated (Returned out)) as C3. simpl in C1, C2, C3.
    rewrite !length_filter_snoc. simpl.
    repeat (split; [first [done | lia]|]). split; [|done].
    apply Forall_insert; [done|]. simpl. split.
    + intros id Hh. by apply Hid.
    + intros out' [[=] | [= <-]]. apply (Hst out). by left.
  - rewrite advance_returned. world_fields.
    rewrite list_insert_id by done. unfold coherent. world_fields.
    by repeat (split; [done|]).
Qed.

Lemma coherent_run (schedule : list nat) (pw : pool) :
  coherent pw → coherent (run schedule pw).
Proof.
  revert pw. induction schedule as [|i schedule IH]; intros pw H; [done|].
  apply IH. by apply coherent_step.
Qed.

(** ** What a step changes *)

Lemma step_other (i k : nat) (pw : pool) :
  i ≠ k → (step i pw).1 !! k = pw.1 !! k.
Proof.
  intros Hne. destruct pw as [p w].
  destruct (p !! i) as [h|] eqn:Hi; [|by rewrite step_beyond].
  rewrite (step_at i p w h Hi). cbn [fst]. by apply list_lookup_insert_ne.
Qed.

Lemma step_self (i : nat) (pw : pool) (h : handler) :
  pw.1 !! i = Some h →
  (step i pw).1 !! i
  = Some {| h_ticket := h_ticket h; h_env := h_env h;
            h_stage := (advance (h_ticket h) (h_stage h) (h_env h) pw.2).1 |}
  ∧ (step i pw).2 = (advance (h_ticket h) (h_stage h) (h_env h) pw.2).2.
Proof.
  destruct pw as [p w]. cbn [fst snd]. intros Hi.
  rewrite (step_at i p w h Hi). cbn [fst snd]. split; [|done].
  apply list_lookup_insert_eq. by apply lookup_lt_Some in Hi.
Qed.


(** The number of records never shrinks. *)
Lemma step_size (i : nat) (pw : pool) :
  coherent pw → size (tickets pw.2) ≤ size (tickets (step i pw).2).
Proof.
  destruct pw as [p w]. cbn [fst snd]. intros Hc.
  destruct (p !! i) as [h|] eqn:Hi; [|by rewrite step_beyond].
  rewrite (step_at i p w h Hi). cbn [snd].
  destruct Hc as (_ & _ & Hdom & _ & _ & _ & _ & Hheld & _).
  cbn [fst snd] in *.
  pose proof (Forall_lookup_1 _ _ _ _ Hheld Hi) as [Hid _].
  destruct h as [t e s]. cbn [h_ticket h_env h_stage] in *.
  destruct s as [ | | |id|id o|out|out]; try done.
  - rewrite advance_insert. world_fields.
    rewrite map_size_insert_None by apply next_rowid_fresh. lia.
  - rewrite advance_update. world_fields.
    destruct (proj2 (Hdom id) (Hid id eq_refl)) as [r Hr].
    rewrite (alter_row _ id _ r Hr).
    by rewrite map_size_insert_Some by (by eexists).
Qed.

Lemma run_size (schedule : list nat) (pw : pool) :
  coherent pw → size (tickets pw.2) ≤ size (tickets (run schedule pw).2).
Proof.
  revert pw. induction schedule as [|i schedule IH]; intros pw H; [done|].
  cbn [run foldl]. fold (run schedule (step i pw)).
  pose proof (step_size i pw H). pose proof (IH (step i pw) (coherent_step i pw H)).
  lia.
Qed.

(** ** The ids that handlers read *)

(** A handler keeps the id it has read. *)
Lemma step_holds (k i : nat) (pw : pool) (a : Z) :
  holds pw i a → holds (step k pw) i a.
Proof.
  intros (h & Hi & Ha). destruct (decide (k = i)) as [-> | Hne].
  - destruct (step_self i pw h Hi) as [Hs _]. eexists. split; [exact Hs|].
    cbn [h_stage]. destruct h as [t e s]. cbn [h_ticket h_env h_stage] in *.
    destruct s as [ | | |id|id o|out|out]; try done.
    by rewrite advance_update.
  - exists h. by rewrite step_other.
Qed.

Lemma run_holds (schedule : list nat) (pw : pool) (i : nat) (a : Z) :
  holds pw i a → holds (run schedule pw) i a.
Proof.
  revert pw. induction schedule as [|k schedule IH]; intros pw H; [done|].
  apply IH. by apply step_holds.
Qed.

(** The id a handler reads is the number of records at that time. *)
Lemma late_insert_larger (schedule : list nat) (pw : pool) (j : nat)
    (a : Z) :
  coherent pw → (a ≤ Z.of_nat (size (tickets pw.2)))%Z → waiting pw j →
  let pw' := run schedule pw in
  coherent pw'
  ∧ (a ≤ Z.of_nat (size (tickets pw'.2)))%Z
  ∧ ∃ h, pw'.1 !! j = Some h
      ∧ (h_stage h = AtInsert
         ∨ (a < Z.of_nat (size (tickets pw'.2)))%Z
           ∧ ∀ b, held_id (h_stage h) = Some b → (a < b)%Z).
Proof.
  intros Hc Ha (h0 & Hj0 & Hs0). cbv zeta.
  induction schedule as [|k schedule IH] using rev_ind.
  - split; [done|]. split; [done|]. exists h0. split; [done | by left].
  - rewrite run_snoc. set (pw' := run schedule pw) in *.
    destruct IH as (Hc' & Ha' & h & Hj & Hh).
    pose proof (step_size k pw' Hc') as Hsize.
    split; [by apply coherent_step|]. split; [lia|].
    destruct (decide (k = j)) as [-> | Hne].
    2:{ exists h. rewrite step_other by done. split; [done|].
        destruct Hh as [? | [? ?]]; [by left|]. right. split; [lia | done]. }
    destruct (step_self j pw' h Hj) as [Hs Hw]. eexists. split; [exact Hs|].
    cbn [h_stage]. rewrite Hw.
    destruct Hc' as (_ & Hlast & _). cbn [fst snd] in Hlast.
    destruct h as [t e s]. cbn [h_ticket h_env h_stage] in *.
    destruct s as [ | | |id|id o|out|out].
    + right. rewrite advance_insert. world_fields.
      rewrite map_size_insert_None by apply next_rowid_fresh.
      split; [lia | done].
    + destruct Hh as [? | [? ?]]; [done|]. right. by rewrite advance_commit.
    + destruct Hh as [? | [? ?]]; [done|]. right.
      rewrite advance_lastrowid. world_fields. split; [done|].
      intros b [= <-]. lia.
    + destruct Hh as [? | [? Hb]]; [done|]. right. rewrite advance_post.
      world_fields. split; [done|]. intros b [= <-]. by apply Hb.
    + destruct Hh as [? | [? Hb]]; [done|]. right.
      rewrite <- Hw. split; [lia|]. rewrite advance_update. world_fields.
      intros b [= <-]. by apply Hb.
    + destruct Hh as [? | [? Hb]]; [done|]. right.
      rewrite advance_last_commit. world_fields. split; [done|].
      intros b Hbb. by apply Hb.
    + destruct Hh as [? | [? Hb]]; [done|]. right.
      by rewrite advance_returned.
Qed.

(** X5. However the handlers are scheduled on a store that starts empty:
    a request that makes its INSERT after another request has read its
    id reads, and is answered with, a strictly larger id; and a handler
    keeps the id it has read. *)
Theorem ticket_ids_increase (rs : list (TicketIn * env))
    (before after : list nat) (i j : nat) (a b : Z) :
  let pw := run before (arrive rs, empty_world) in
  holds pw i a → waiting pw j →
  holds (run after pw) j b →
  (a < b)%Z ∧ holds (run after pw) i a.
Proof.
  intros pw Hi Hj Hb. split; [|by apply run_holds].
  assert (coherent pw) as Hc by apply coherent_run, coherent_start.
  assert (a ≤ Z.of_nat (size (tickets pw.2)))%Z as Ha.
  { destruct Hi as (h & Hh & Hheld).
    destruct Hc as (_ & _ & _ & _ & _ & _ & _ & Hall & _).
    destruct (Forall_lookup_1 _ _ _ _ Hall Hh) as [Hid _].
    specialize (Hid a Hheld). lia. }
  destruct (late_insert_larger after pw j a Hc Ha Hj)
    as (_ & _ & h & Hh & Hcase).
  destruct Hb as (h' & Hh' & Hheld). simplify_eq.
  destruct Hcase as [Hs | [_ Hlt]]; [by rewrite Hs in Hheld|].
  by apply Hlt.
Qed.

(** ** A handler that reads its own id *)




(** The second request starts after the first one has read its id. *)
Lemma ticket_ids_increase_witness :
  (1 < 2)%Z
  ∧ holds (run [1; 1; 1] (run [0; 0; 0] (arrive two_requests, empty_world)))
      0 1.
Proof.
  apply (ticket_ids_increase two_requests [0; 0; 0] [1; 1; 1] 0 1 1 2);
    by eexists.
Defined.

(** ** The store under any schedule *)

Lemma count_length (P : stage → bool) (p : list handler) :
  count P p ≤ length p.
Proof.
  unfold count. induction p as [|h p IH]; [done|]. simpl.
  destruct (P (h_stage h)); simpl; lia.
Qed.

Lemma step_length (i : nat) (pw : pool) :
  length (step i pw).1 = length pw.1.
Proof.
  destruct pw as [p w]. destruct (p !! i) as [h|] eqn:Hi.
  - rewrite (step_at i p w h Hi). cbn [fst]. apply length_insert.
  - by rewrite step_beyond.
Qed.

Lemma run_length (schedule : list nat) (pw : pool) :
  length (run schedule pw).1 = length pw.1.
Proof.
  revert pw. induction schedule as [|i schedule IH]; intros pw; [done|].
  cbn [run foldl]. fold (run schedule (step i pw)).
  by rewrite IH, step_length.
Qed.

(** X6. However the handlers of the requests are scheduled on a store
    that starts empty: the ids of the records are 1 up to their number,
    which is the number of handlers that have made their INSERT, one
    record per request at most; the analyzer was called once for every
    handler that has passed its call, and the writes made are one for
    every INSERT and one for every UPDATE passed; every answer carries
    one of pass, fail, unknown, analyzer_error and the id of a record;
    and every record is either queued without a result or has one of
    those four statuses and a result that ends with a verdict. *)
Theorem fresh_store_invariant (rs : list (TicketIn * env))
    (schedule : list nat) :
  let pw := run schedule (arrive rs, empty_world) in
  let n := size (tickets pw.2) in
  sqlite_sequence pw.2 = Z.of_nat n
  ∧ (∀ k : Z, is_Some (tickets pw.2 !! k) ↔ (1 ≤ k ≤ Z.of_nat n)%Z)
  ∧ n = count inserted pw.1
  ∧ n ≤ length rs
  ∧ calls pw.2 = count posted pw.1
  ∧ length (filter is_post (log pw.2)) = count posted pw.1
  ∧ length (filter is_write (log pw.2))
    = count inserted pw.1 + count updated pw.1
  ∧ (∀ i out, stage_of pw i = Some (Returned out) →
       status out ∈ submit_statuses
       ∧ is_Some (tickets pw.2 !! ticket_id out))
  ∧ map_Forall (λ _ r, settled r) (tickets pw.2).
Proof.
  intros pw n.
  assert (coherent pw) as Hc by apply coherent_run, coherent_start.
  destruct Hc as (Hseq & _ & Hdom & Hins & Hcalls & Hposts & Hwrites
                  & Hheld & Hrows).
  fold n in Hseq, Hdom, Hins, Hheld.
  repeat (split; [done|]). split.
  { rewrite Hins. etrans; [apply count_length|].
    unfold pw. rewrite run_length. unfold arrive. cbn [fst].
    by rewrite length_fmap. }
  repeat (split; [done|]). split; [|done].
  intros i out Hs. unfold stage_of in Hs.
  destruct (pw.1 !! i) as [h|] eqn:Hi; [|done]. injection Hs as Hs.
  destruct (Forall_lookup_1 _ _ _ _ Hheld Hi) as [Hid Hst].
  split; [apply Hst; by right|].
  apply Hdom, Hid. by rewrite Hs.
Qed.

(** ** Get-by-id for any id *)

Lemma get_ticket_request_bound (id : Z) (e : env) (w : world) :
  sqlite_integer id = true →
  get_ticket_request id e w
  = (inr (get_ticket id e w).1, (get_ticket id e w).2).
Proof.
  intros H. unfold get_ticket_request. rewrite H.
  unfold mbind, M_bind, mret, M_ret. by destruct (get_ticket id e w).
Qed.

(** X1. Get-by-id for an id within the 64-bit integers answers 404,
    ticket not found, exactly when the table holds no record with that
    id, and finds the record otherwise; for any other id the binding of
    the parameter raises OverflowError, which nothing catches; the store
    is never changed.  However the handlers are scheduled on a store
    that starts empty and receives fewer than 2^63 requests, the id a
    request is answered with is not found when the request has not
    started and is found once it has returned. *)
Theorem get_ticket_before_after (rs : list (TicketIn * env))
    (before after : list nat) (i : nat) (out : TicketOut)
    (id : Z) (e1 : env) (w : world) :
  (sqlite_integer id = true →
     ((get_ticket_request id e1 w).1
        = inr (inl (HTTP 404 "ticket not found"))
      ↔ tickets w !! id = None)
     ∧ (∀ r, tickets w !! id = Some r →
          (get_ticket_request id e1 w).1 = inr (inr (full_of id r))))
  ∧ (sqlite_integer id = false →
     (get_ticket_request id e1 w).1 = inl OverflowError)
  ∧ (get_ticket_request id e1 w).2 = w
  ∧ (let pw := run before (arrive rs, empty_world) in
     let pw' := run after pw in
     (Z.of_nat (length rs) < 2 ^ 63)%Z →
     waiting pw i → stage_of pw' i = Some (Returned out) →
     (get_ticket_request (ticket_id out) e1 pw.2).1
       = inr (inl (HTTP 404 "ticket not found"))
     ∧ ∃ r, tickets pw'.2 !! ticket_id out = Some r
          ∧ (get_ticket_request (ticket_id out) e1 pw'.2).1
            = inr (inr (full_of (ticket_id out) r))).
Proof.
  split; [|split; [|split]].
  - intros Hid. rewrite get_ticket_request_bound by done. cbn [fst]. split.
    + destruct (tickets w !! id) as [r|] eqn:E.
      * by rewrite (get_ticket_found id e1 w r E).
      * by rewrite (get_ticket_not_found id e1 w E).
    + intros r E. by rewrite (get_ticket_found id e1 w r E).
  - intros Hid. unfold get_ticket_request. by rewrite Hid.
  - unfold get_ticket_request. destruct (sqlite_integer id); [|done].
    unfold mbind, M_bind, mret, M_ret.
    destruct (tickets w !! id) as [r|] eqn:E.
    + by rewrite (get_ticket_found id e1 w r E).
    + by rewrite (get_ticket_not_found id e1 w E).
  - intros pw pw' Hfew Hwait Hret.
    assert (coherent pw) as Hc by apply coherent_run, coherent_start.
    set (n := size (tickets pw.2)).
    destruct (late_insert_larger after pw i (Z.of_nat n) Hc ltac:(lia) Hwait)
      as (Hc' & _ & h & Hh & Hcase).
    fold pw' in Hc', Hh, Hcase. unfold stage_of in Hret.
    rewrite Hh in Hret. injection Hret as Hs. rewrite Hs in Hcase.
    destruct Hcase as [? | [_ Hlt]]; [done|].
    specialize (Hlt (ticket_id out) eq_refl).
    destruct Hc' as (_ & _ & Hdom' & Hins' & _ & _ & _ & Hheld' & _).
    destruct (Forall_lookup_1 _ _ _ _ Hheld' Hh) as [Hid _].
    rewrite Hs in Hid. specialize (Hid (ticket_id out) eq_refl).
    assert (size (tickets pw'.2) ≤ length rs) as Hsize.
    { rewrite Hins'. etrans; [apply count_length|].
      unfold pw', pw. rewrite !run_length. unfold arrive. cbn [fst].
      by rewrite length_fmap. }
    assert (sqlite_integer (ticket_id out) = true) as Hint.
    { unfold sqlite_integer. apply andb_true_intro. split.
      - apply Z.leb_le. lia.
      - apply Z.ltb_lt. lia. }
    rewrite !get_ticket_request_bound by done. cbn [fst]. split.
    + rewrite get_ticket_not_found; [done|].
      apply eq_None_not_Some. destruct Hc as (_ & _ & Hdom & _).
      intros Hsome%Hdom. fold n in Hsome. lia.
    + destruct (proj2 (Hdom' (ticket_id out)) Hid) as [r Hr].
      exists r. split; [done|]. by rewrite (get_ticket_found _ e1 _ r Hr).
Qed.

(** An id beyond the 64-bit integers, an id that no record has, and the
    id the first of two overlapping requests is answered with. *)
Lemma get_ticket_before_after_witness :
  (get_ticket_request (2 ^ 63) unreachable_env empty_world).1
  = inl OverflowError
  ∧ (get_ticket_request 5 unreachable_env empty_world).1
    = inr (inl (HTTP 404 "ticket not found"))
  ∧ (get_ticket_request 2 unreachable_env empty_world).1
    = inr (inl (HTTP 404 "ticket not found"))
  ∧ ∃ r, tickets (run overtaken (arrive two_requests, empty_world)).2 !! 2%Z
         = Some r
       ∧ (get_ticket_request 2 unreachable_env
            (run overtaken (arrive two_requests, empty_world)).2).1
         = inr (inr (full_of 2 r)).
Proof.
  split; [|split].
  - apply (proj1 (proj2 (get_ticket_before_after [] [] [] 0
                           {| ticket_id := 0; status := "" |} (2 ^ 63)
                           unreachable_env empty_world))).
    reflexivity.
  - apply (proj1 (proj1 (get_ticket_before_after [] [] [] 0
                           {| ticket_id := 0; status := "" |} 5
                           unreachable_env empty_world) eq_refl)).
    reflexivity.
  - apply (proj2 (proj2 (proj2 (get_ticket_before_after two_requests []
                                  overtaken 0
                                  {| ticket_id := 2;
                                     status := "analyzer_error" |}
                                  0 unreachable_env empty_world)))).
    + reflexivity.
    + by eexists.
    + reflexivity.
Defined.

(** ** Get-by-id after a submission *)



